(** * NullTrace: group-key lifecycle, message channel, handshake and capsule

    Shallow embedding of the JavaScript modules
      - [modules/group.js]      (class [Group])
      - [modules/mls.js]        (class [MlsGroup extends Group])
      - [modules/handshake.js]  ([handshakeWith], [deriveSharedKey])
      - [modules/nacp.js]       ([createCapsule], [parseCapsule])
      - [app.js]                ([sendMessage], [randomString], [safeRekey])

    Conventions of the model.
    - A JS string is kept as the byte sequence of its UTF-8 encoding, so
      [TextEncoder.encode] is the identity on the underlying bytes and
      [.length] (UTF-16 code units) is computed by [js_length].
    - A JS number that the code uses as a counter, epoch or timestamp is an
      integer [Z]; [x | 0] is [toInt32] with its wrap-around written out.
      Fractional numbers, NaN and numbers beyond 1e21 are outside the model.
    - A [Map] whose iteration order is observable ([peers]) is an association
      list in insertion order; a [Map] that is only read by key ([recvSeq])
      is a [gmap].
    - A JS exception is the [None] of an [option] or the [Thrown] of a
      [completion] (every [catch] of the sources ignores the exception
      value).
    - The libsodium primitives, the KEM, [JSON.parse], [TextDecoder] and
      [String.prototype.trim] are the interfaces [Sodium], [Kem] and
      [Platform]; every statement holds for all their implementations, and
      what a statement needs of them ([hash_length], [aead_accepts],
      [ecdh_agrees], [kem_correct], [aead_correct], [sign_accepts],
      [sign_correct], [reads_back]) is among its hypotheses.  [Toy] is a
      small executable implementation on which the statements are run. *)

From Stdlib Require Import ZArith List String Ascii Bool Lia DecimalString Sorted.
From Stdlib.Strings Require Import Byte.
From Stdlib Require DecimalPos DecimalZ.
From stdpp Require Import gmap strings sorting.
Import ListNotations.

Local Open Scope Z_scope.

(* ===================================================================== *)
(** ** Bytes, strings and numbers *)
(* ===================================================================== *)

Abbreviation bytes := (list byte).

(** [new TextEncoder().encode(s)] *)
Definition _u8 (s : string) : bytes := list_byte_of_string s.

(** [sodium.from_string] is the same UTF-8 encoding. *)
Definition from_string (s : string) : bytes := list_byte_of_string s.

(** Number of UTF-16 code units of the string whose UTF-8 bytes are [s]:
    continuation bytes count for nothing, a four-byte lead for two. *)
Definition utf16_units (c : ascii) : nat :=
  let n := N_of_ascii c in
  if (n <? 128)%N then 1%nat
  else if (n <? 192)%N then 0%nat
  else if (n <? 240)%N then 1%nat
  else 2%nat.

Fixpoint js_length (s : string) : nat :=
  match s with
  | EmptyString => 0%nat
  | String c r => (utf16_units c + js_length r)%nat
  end.

(** [x | 0]: ToInt32 on an integral number. *)
Definition toInt32 (z : Z) : Z := (z + 2 ^ 31) mod 2 ^ 32 - 2 ^ 31.

Definition int32 (z : Z) : Prop := - 2 ^ 31 <= z < 2 ^ 31.

(** [String(n)] and template interpolation of an integral number. *)
Definition number_to_string (n : Z) : string :=
  NilZero.string_of_int (Z.to_int n).

(** [Array.prototype.join("")] *)
Fixpoint join (parts : list string) : string :=
  match parts with
  | [] => EmptyString
  | p :: r => String.append p (join r)
  end.

(* ===================================================================== *)
(** ** JS values and [JSON.stringify] *)
(* ===================================================================== *)

#[warnings="-register-all"]
Inductive value : Type :=
| VUndefined
| VNull
| VBool (b : bool)
| VNum (n : Z)
| VStr (s : string)
| VArr (xs : list value)
| VObj (fields : list (string * value)).

(** ToBoolean *)
Definition truthy (v : value) : bool :=
  match v with
  | VUndefined | VNull => false
  | VBool b => b
  | VNum n => negb (n =? 0)
  | VStr s => negb (String.eqb s EmptyString)
  | VArr _ | VObj _ => true
  end.

(** [typeof v === "string"], [typeof v === "number"], [typeof v === "object"] *)
Definition typeof_string (v : value) : bool :=
  match v with VStr _ => true | _ => false end.

Definition typeof_number (v : value) : bool :=
  match v with VNum _ => true | _ => false end.

Definition typeof_object (v : value) : bool :=
  match v with VNull | VArr _ | VObj _ => true | _ => false end.

(** Property read [o.k]; a missing property reads [undefined]. *)
Fixpoint assoc_get (k : string) (fs : list (string * value)) : value :=
  match fs with
  | [] => VUndefined
  | (k', v) :: r => if String.eqb k k' then v else assoc_get k r
  end.

Definition get (k : string) (o : value) : value :=
  match o with
  | VObj fs => assoc_get k fs
  | _ => VUndefined
  end.

(** Property write [o.k = v]: an existing own property keeps its place. *)
Fixpoint assoc_set (k : string) (v : value) (fs : list (string * value))
  : list (string * value) :=
  match fs with
  | [] => [(k, v)]
  | (k', v') :: r =>
      if String.eqb k k' then (k', v) :: r else (k', v') :: assoc_set k v r
  end.

Definition has_key (k : string) (o : value) : bool :=
  match o with
  | VObj fs => existsb (fun kv => String.eqb k (fst kv)) fs
  | _ => false
  end.

Definition hex_digit (n : N) : ascii :=
  ascii_of_N (if (n <? 10)%N then 48 + n else 87 + n).

(** QuoteJSONString on one code unit. *)
Definition quote_char (c : ascii) : string :=
  let n := N_of_ascii c in
  if (n =? 34)%N then String (ascii_of_N 92) (String (ascii_of_N 34) EmptyString)
  else if (n =? 92)%N then "\\"%string
  else if (n =? 8)%N then "\b"%string
  else if (n =? 12)%N then "\f"%string
  else if (n =? 10)%N then "\n"%string
  else if (n =? 13)%N then "\r"%string
  else if (n =? 9)%N then "\t"%string
  else if (n <? 32)%N then
    String.append "\u00"%string
      (String (hex_digit (n / 16)) (String (hex_digit (n mod 16)) EmptyString))
  else String c EmptyString.

Fixpoint quote_body (s : string) : string :=
  match s with
  | EmptyString => EmptyString
  | String c r => String.append (quote_char c) (quote_body r)
  end.

Definition dquote : string := String (ascii_of_N 34) EmptyString.

Definition quote (s : string) : string :=
  String.append dquote (String.append (quote_body s) dquote).

(** [JSON.stringify] on a value; a property whose value is [undefined] is
    left out of an object, an [undefined] array element prints as [null]. *)
Fixpoint JSON_stringify (v : value) : string :=
  match v with
  | VUndefined => "null"%string
  | VNull => "null"%string
  | VBool true => "true"%string
  | VBool false => "false"%string
  | VNum n => number_to_string n
  | VStr s => quote s
  | VArr xs =>
      String.append "["%string
        (String.append
           ((fix elems (l : list value) : string :=
               match l with
               | [] => EmptyString
               | [x] => JSON_stringify x
               | x :: r =>
                   String.append (JSON_stringify x)
                     (String.append ","%string (elems r))
               end) xs)
           "]"%string)
  | VObj fs =>
      String.append "{"%string
        (String.append
           ((fix props (l : list (string * value)) (first : bool) : string :=
               match l with
               | [] => EmptyString
               | (k, x) :: r =>
                   match x with
                   | VUndefined => props r first
                   | _ =>
                       String.append (if first then EmptyString else ","%string)
                         (String.append (quote k)
                            (String.append ":"%string
                               (String.append (JSON_stringify x)
                                  (props r false))))
                   end
               end) fs true)
           "}"%string)
  end.

(* ===================================================================== *)
(** ** Base64, ORIGINAL variant ([b64] and [u8] of handshake.js) *)
(* ===================================================================== *)

Definition b64_alphabet : string :=
  "ABCDEFGHIJKLMNOPQRSTUVWXYZabcdefghijklmnopqrstuvwxyz0123456789+/"%string.

Definition b64_char (n : N) : ascii :=
  match String.get (N.to_nat n) b64_alphabet with
  | Some c => c
  | None => "="%char
  end.

Definition b64_quad (a b c : N) (pad : nat) : string :=
  let n := (a * 65536 + b * 256 + c)%N in
  String (b64_char (n / 262144))
    (String (b64_char ((n / 4096) mod 64))
       (String (if (2 <=? pad)%nat then "="%char else b64_char ((n / 64) mod 64))
          (String (if (1 <=? pad)%nat then "="%char else b64_char (n mod 64))
             EmptyString))).

(** [sodium.to_base64(u, ORIGINAL)]: standard alphabet, [=] padding. *)
Fixpoint b64 (u : bytes) : string :=
  match u with
  | [] => EmptyString
  | [a] => b64_quad (Byte.to_N a) 0 0 2
  | [a; b] => b64_quad (Byte.to_N a) (Byte.to_N b) 0 1
  | a :: b :: c :: r =>
      String.append (b64_quad (Byte.to_N a) (Byte.to_N b) (Byte.to_N c) 0) (b64 r)
  end.

Definition b64_value (c : ascii) : option N :=
  let n := N_of_ascii c in
  if ((65 <=? n) && (n <=? 90))%N then Some (n - 65)%N
  else if ((97 <=? n) && (n <=? 122))%N then Some (n - 71)%N
  else if ((48 <=? n) && (n <=? 57))%N then Some (n + 4)%N
  else if (n =? 43)%N then Some 62%N
  else if (n =? 47)%N then Some 63%N
  else None.

Definition is_pad (c : ascii) : bool := (N_of_ascii c =? 61)%N.

Definition byte_of (n : N) : byte :=
  match Byte.of_N (n mod 256) with Some b => b | None => x00 end.

(** [sodium.from_base64(s, ORIGINAL)] on a string: strict decoding, [None]
    where libsodium throws (a character outside the alphabet, missing or
    misplaced padding, non-zero trailing bits). *)
Fixpoint from_base64 (s : string) : option bytes :=
  match s with
  | EmptyString => Some []
  | String c0 (String c1 (String c2 (String c3 r))) =>
      match b64_value c0, b64_value c1 with
      | Some v0, Some v1 =>
          if is_pad c2 then
            if is_pad c3 && String.eqb r EmptyString && (v1 mod 16 =? 0)%N
            then Some [byte_of (v0 * 4 + v1 / 16)]
            else None
          else
            match b64_value c2 with
            | None => None
            | Some v2 =>
                if is_pad c3 then
                  if String.eqb r EmptyString && (v2 mod 4 =? 0)%N
                  then Some [byte_of (v0 * 4 + v1 / 16);
                             byte_of ((v1 mod 16) * 16 + v2 / 4)]
                  else None
                else
                  match b64_value c3 with
                  | None => None
                  | Some v3 =>
                      match from_base64 r with
                      | None => None
                      | Some t =>
                          Some (byte_of (v0 * 4 + v1 / 16)
                                :: byte_of ((v1 mod 16) * 16 + v2 / 4)
                                :: byte_of ((v2 mod 4) * 64 + v3) :: t)
                      end
                  end
            end
      | _, _ => None
      end
  | _ => None
  end.

(** [u8(b)] applied to an arbitrary JS value: libsodium rejects whatever is
    neither a string nor a byte array. *)
Definition u8 (b : value) : option bytes :=
  match b with
  | VStr s => from_base64 s
  | _ => None
  end.

(* ===================================================================== *)
(** ** Outcomes, randomness, frames and the group state *)
(* ===================================================================== *)

(** How a call ends: with a value or with an exception. *)
Inductive completion (A : Type) : Type :=
| Returned (a : A)
| Thrown.
Arguments Returned {A} a.
Arguments Thrown {A}.

(** Sequencing of calls that may throw, with stdpp's [x ← c; k]. *)
#[global] Instance completion_ret : MRet completion := fun A a => Returned a.
#[global] Instance completion_bind : MBind completion :=
  fun A B k c => match c with Returned a => k a | Thrown => Thrown end.

(** A library call whose exception is the [None] of its model. *)
Definition call {A : Type} (o : option A) : completion A :=
  match o with Some a => Returned a | None => Thrown end.

(** The CSPRNG: an entropy tape and a cursor.  Each draw hands out the next
    unread bytes, so two draws never share a tape position. *)
Record rng : Type := mkRng { tape : nat -> byte; pos : nat }.

Definition tape_slice (r : rng) (from n : nat) : bytes :=
  map (tape r) (seq from n).

(** [sodium.randombytes_buf(n)] *)
Definition randombytes_buf (n : nat) (r : rng) : bytes * rng :=
  (tape_slice r (pos r) n, mkRng (tape r) (pos r + n)).

(** [sodium.crypto_aead_xchacha20poly1305_ietf_NPUBBYTES] *)
Definition NPUBBYTES : nat := 24.

(** An [m] frame [{t:"m", cid, s, e, n, c}]. *)
Record MsgFrame : Type := mkMsg {
  m_cid : string;
  m_s : Z;
  m_e : Z;
  m_n : value;
  m_c : value
}.

(** A [gk] frame [{t:"gk", cid, to, e, rh, n, ek}]. *)
Record GkFrame : Type := mkGk {
  gk_cid : string;
  gk_to : value;
  gk_e : Z;
  gk_rh : value;
  gk_n : value;
  gk_ek : value
}.

(** What a method does to the outside: [this.onReady?.()] and
    [this.send(obj)], in program order. *)
Inductive event : Type :=
| EvReady
| EvSend (f : GkFrame).

(** The fields of [Group] set by its constructor. *)
Record Group : Type := mkGroup {
  cid : string;
  peers : list (string * bytes);
  groupKey : option bytes;
  epoch : Z;
  pending : list MsgFrame;
  sendSeq : Z;
  recvSeq : gmap string Z
}.

(** [new Group(cid, sendFn, readyCb)] *)
Definition Group_new (c : string) : Group :=
  mkGroup c [] None 0 [] 0 ∅.

Definition set_pending (p : list MsgFrame) (g : Group) : Group :=
  mkGroup (cid g) (peers g) (groupKey g) (epoch g) p (sendSeq g) (recvSeq g).

Definition set_sendSeq (s : Z) (g : Group) : Group :=
  mkGroup (cid g) (peers g) (groupKey g) (epoch g) (pending g) s (recvSeq g).

Definition set_recvSeq (m : gmap string Z) (g : Group) : Group :=
  mkGroup (cid g) (peers g) (groupKey g) (epoch g) (pending g) (sendSeq g) m.

Definition set_peers (p : list (string * bytes)) (g : Group) : Group :=
  mkGroup (cid g) p (groupKey g) (epoch g) (pending g) (sendSeq g) (recvSeq g).

(** The four assignments shared by [rekey] and [loadGK]:
    [groupKey = k; epoch = e; sendSeq = 0; recvSeq.clear()]. *)
Definition install (k : bytes) (e : Z) (g : Group) : Group :=
  mkGroup (cid g) (peers g) (Some k) e (pending g) 0 ∅.

(** [Map.prototype.set] on [peers]: a known key keeps its position. *)
Fixpoint peers_set (c : string) (sk : bytes) (ps : list (string * bytes))
  : list (string * bytes) :=
  match ps with
  | [] => [(c, sk)]
  | (c', sk') :: r =>
      if String.eqb c c' then (c', sk) :: r else (c', sk') :: peers_set c sk r
  end.

(** [Map.prototype.delete] on [peers]. *)
Definition peers_delete (c : string) (ps : list (string * bytes))
  : list (string * bytes) :=
  filter (fun kv => negb (String.eqb c (fst kv))) ps.

(** [msg.to && msg.to !== this.cid] *)
Definition addressed_elsewhere (to : value) (self : string) : bool :=
  truthy to &&
  negb (match to with VStr t => String.eqb t self | _ => false end).

(* ===================================================================== *)
(** ** group.js: class Group *)
(* ===================================================================== *)

(** The libsodium calls made by the four modules.  [None] stands for the
    exception libsodium throws. *)
Class Sodium : Type := {
  (** [crypto_generichash(len, data, key?)] *)
  crypto_generichash : nat -> bytes -> option bytes -> bytes;
  (** [crypto_aead_xchacha20poly1305_ietf_encrypt(m, ad, null, npub, k)] *)
  aead_encrypt : bytes -> bytes -> bytes -> bytes -> option bytes;
  (** [crypto_aead_xchacha20poly1305_ietf_decrypt(null, c, ad, npub, k)] *)
  aead_decrypt : bytes -> bytes -> bytes -> bytes -> option bytes;
  (** [to_string]: fatal UTF-8 decoding *)
  to_string : bytes -> option string;
  (** [crypto_kx_keypair()] from its seed: [(publicKey, privateKey)] *)
  crypto_kx_keypair : bytes -> bytes * bytes;
  (** [crypto_scalarmult(priv, pub)] *)
  crypto_scalarmult : bytes -> bytes -> option bytes;
  (** [crypto_sign_keypair()] from its seed: [(publicKey, privateKey)] *)
  crypto_sign_keypair : bytes -> bytes * bytes;
  (** [crypto_sign_detached(msg, priv)]; it throws on a private key that
      is not of the length [crypto_sign_keypair] makes (64 bytes) *)
  crypto_sign_detached : bytes -> bytes -> option bytes;
  (** [crypto_sign_verify_detached(sig, msg, pub)] *)
  crypto_sign_verify_detached : bytes -> bytes -> bytes -> option bool
}.

Section Channel.

Context `{Sodium}.

Definition _concat (arrs : list bytes) : bytes := List.concat arrs.

Definition _nonce (c : string) (seq epoch : Z) : bytes :=
  let tag := _u8 "NT-v1|nonce|"%string in
  let body :=
    _u8 (join [c; "|"%string; number_to_string seq; "|"%string;
               number_to_string epoch]) in
  crypto_generichash 24 (_concat [tag; body]) None.

(** [_senderKey()]: the group key itself. *)
Definition _senderKey (g : Group) : option bytes := groupKey g.

(** [_aad(obj)]: the fields [t], [cid], [s], [e] of [obj], in that order. *)
Definition _aad (t c : string) (s e : Z) : bytes :=
  _u8 (JSON_stringify
         (VObj [("t"%string, VStr t); ("cid"%string, VStr c);
                ("s"%string, VNum s); ("e"%string, VNum e)])).

Definition addPeer (c : string) (sk : bytes) (g : Group) : Group :=
  set_peers (peers_set c sk (peers g)) g.

(** [encrypt(txt)]: [null] without a group key; an exception of the AEAD
    leaves [sendSeq] as it was. *)
Definition encrypt (g : Group) (txt : string)
  : Group * completion (option MsgFrame) :=
  match _senderKey g with
  | None => (g, Returned None)
  | Some key =>
      let s := sendSeq g in
      let e := epoch g in
      let nonce := _nonce (cid g) s e in
      let aad := _aad "m"%string (cid g) s e in
      match aead_encrypt (from_string txt) aad nonce key with
      | None => (g, Thrown)
      | Some cipher =>
          (set_sendSeq (s + 1) g,
           Returned (Some (mkMsg (cid g) s e (VStr (b64 nonce))
                                 (VStr (b64 cipher)))))
      end
  end.

(** The body of the [try] block of [decrypt] up to the AEAD call. *)
Definition open_msg (key : bytes) (msg : MsgFrame) : option bytes :=
  let nonce := _nonce (m_cid msg) (toInt32 (m_s msg)) (toInt32 (m_e msg)) in
  let aad :=
    _aad "m"%string (m_cid msg) (toInt32 (m_s msg)) (toInt32 (m_e msg)) in
  match u8 (m_c msg) with
  | None => None
  | Some c =>
      match u8 (m_n msg) with
      | None => None
      | Some n => aead_decrypt c aad n key
      end
  end.

Definition decrypt (g : Group) (msg : MsgFrame) : Group * option string :=
  match groupKey g with
  | None => (set_pending (pending g ++ [msg]) g, None)
  | Some key =>
      if negb (toInt32 (m_e msg) =? toInt32 (epoch g)) then (g, None)
      else
        let last := default (-1) (recvSeq g !! m_cid msg) in
        if toInt32 (m_s msg) <=? last then (g, None)
        else
          match open_msg key msg with
          | None => (g, None)
          | Some pt =>
              let g' :=
                set_recvSeq (<[m_cid msg := toInt32 (m_s msg)]> (recvSeq g)) g in
              (* [to_string] runs after [recvSeq.set] and inside the [try] *)
              (g', to_string pt)
          end
  end.

(** The [while] loop of [flush]: [todo] is what is left of [this.pending],
    [rest] the frames kept for later, [out] the texts given to [cb]. *)
Fixpoint flush_loop (g : Group) (todo rest : list MsgFrame)
         (out : list string) : Group * list MsgFrame * list string :=
  match todo with
  | [] => (g, rest, out)
  | m :: todo' =>
      let '(g1, txt) := decrypt (set_pending todo' g) m in
      match txt with
      | Some t => flush_loop g1 todo' rest (out ++ [t])
      | None =>
          if toInt32 (epoch g1) <? toInt32 (m_e m)
          then flush_loop g1 todo' (rest ++ [m]) out
          else flush_loop g1 todo' rest out
      end
  end.

(** [flush(cb)]; the second component is what [cb] receives.  The loop
    runs only with a group key, and then [decrypt] never touches
    [pending] (lemma [decrypt_pending] below). *)
Definition flush (g : Group) : Group * list string :=
  match groupKey g with
  | None => (g, [])
  | Some _ =>
      let '(g1, rest, out) := flush_loop g (pending g) [] [] in
      (set_pending (rest ++ pending g1) g1, out)
  end.

(** [Group.prototype.loadGK(msg, mySk)] *)
Definition Group_loadGK (g : Group) (msg : GkFrame) (mySk : bytes)
  : Group * list event :=
  if addressed_elsewhere (gk_to msg) (cid g) then (g, [])
  else
    let aad := _aad "gk"%string (gk_cid msg) 0 (toInt32 (gk_e msg)) in
    match u8 (gk_ek msg) with
    | None => (g, [])
    | Some c =>
        match u8 (gk_n msg) with
        | None => (g, [])
        | Some n =>
            match aead_decrypt c aad n mySk with
            | None => (g, [])
            | Some gk =>
                let g1 := install gk (toInt32 (gk_e msg)) g in
                (fst (flush g1), [EvReady])
            end
        end
    end.

(* ===================================================================== *)
(** ** mls.js: class MlsGroup extends Group *)
(* ===================================================================== *)

(** An [MlsGroup] is a [Group] with the flag [isInitiator].  The debounce
  timer ([_rekeyTimer], [_rekeyDelayMs]) only decides when [rekey] is
  called and is not part of the state below. *)
Record MlsGroup : Type := mkMls {
base : Group;
isInitiator : bool
}.

Definition MlsGroup_new (c : string) (initiator : bool) : MlsGroup :=
mkMls (Group_new c) initiator.

(** [new Set(xs)] as the list of first occurrences. *)
Fixpoint set_of (xs : list string) : list string :=
match xs with
| [] => []
| x :: r => x :: filter (fun y => negb (String.eqb x y)) (set_of r)
end.

(** The default comparison of [sort()] compares strings by their UTF-16
    code units.  On the UTF-8 bytes of the model that is the byte order
    but in one place: a character of the supplementary planes (lead byte
    F0..F4; in UTF-16 a surrogate pair, D800..DFFF) comes before the
    characters U+E000..U+FFFF (lead byte EE or EF).  [utf16_rank] puts the
    lead bytes in that order and leaves the bytes below EE where they are;
    lemma [utf16_compare_units] below shows that the comparison is that of
    the code units. *)
Definition rankN (n : N) : N :=
  (if n <? 238 then n else if n <? 240 then n + 16 else n - 2)%N.

Definition utf16_rank (c : ascii) : N := rankN (N_of_ascii c).

(** The comparison of two sequences of numbers, as [<] on JS strings
    makes it on their code units: the first difference decides, and a
    proper prefix comes first. *)
Fixpoint units_compare (a b : list N) : comparison :=
  match a with
  | [] => match b with [] => Eq | _ :: _ => Lt end
  | x :: a' =>
      match b with
      | [] => Gt
      | y :: b' =>
          match (x ?= y)%N with
          | Eq => units_compare a' b'
          | o => o
          end
      end
  end.

Definition utf16_compare (a b : string) : comparison :=
  units_compare (map utf16_rank (list_ascii_of_string a))
                (map utf16_rank (list_ascii_of_string b)).

Definition utf16_leb (a b : string) : bool :=
  match utf16_compare a b with
  | Gt => false
  | _ => true
  end.

Fixpoint sort_insert (x : string) (xs : list string) : list string :=
match xs with
| [] => [x]
| y :: r => if utf16_leb x y then x :: y :: r else y :: sort_insert x r
end.

(** [Array.prototype.sort()] with the default comparison. *)
Definition sort (xs : list string) : list string :=
fold_right sort_insert [] xs.

(** The object [base] of [_aadGK] after the conditional assignment. *)
Definition aadGK_base (senderCid : string) (e : Z) (rh : value) : value :=
  let fields :=
    [("t"%string, VStr "gk"%string); ("cid"%string, VStr senderCid);
     ("s"%string, VNum 0); ("e"%string, VNum e)] in
  VObj (if truthy rh then assoc_set "rh"%string rh fields else fields).

Definition _aadGK (senderCid : string) (e : Z) (rh : value) : bytes :=
  _u8 (JSON_stringify (aadGK_base senderCid e rh)).

Definition _rosterCids (g : Group) : list string :=
  sort (set_of (cid g :: map fst (peers g))).

Definition _rosterHash (g : Group) : string :=
  let data := _u8 (JSON_stringify (VArr (map VStr (_rosterCids g)))) in
  b64 (crypto_generichash 16 data None).

Definition addMember (peerCid : string) (sharedKey : bytes) (g : MlsGroup)
  : MlsGroup :=
  mkMls (set_peers (peers_set peerCid sharedKey (peers (base g))) (base g))
        (isInitiator g).

Definition removeMember (peerCid : string) (g : MlsGroup) : MlsGroup :=
  mkMls (set_peers (peers_delete peerCid (peers (base g))) (base g))
        (isInitiator g).

Definition setInitiator (flag : bool) (g : MlsGroup) : MlsGroup :=
  mkMls (base g) flag.

(** The [for (const [peerCid, sk] of this.peers)] loop of [rekey]: one
    nonce drawn, one wrap and one [send] per entry; an exception of the
    AEAD leaves the loop with what was sent so far. *)
Fixpoint rekey_loop (self : string) (gk : bytes) (e : Z) (rh : string)
         (ps : list (string * bytes)) (r : rng)
  : rng * list event * completion unit :=
  match ps with
  | [] => (r, [], Returned tt)
  | (peerCid, sk) :: ps' =>
      let aad := _aadGK self e (VStr rh) in
      let '(nonce, r1) := randombytes_buf NPUBBYTES r in
      match aead_encrypt gk aad nonce sk with
      | None => (r1, [], Thrown)
      | Some ek =>
          let f := mkGk self (VStr peerCid) e (VStr rh)
                        (VStr (b64 nonce)) (VStr (b64 ek)) in
          let '(r2, evs, c) := rekey_loop self gk e rh ps' r1 in
          (r2, EvSend f :: evs, c)
      end
  end.

(** [MlsGroup.prototype.rekey()] *)
Definition rekey (g : MlsGroup) (r : rng)
  : MlsGroup * rng * list event * completion unit :=
  if negb (isInitiator g) then (g, r, [], Returned tt)
  else
    let '(gk, r1) := randombytes_buf 32 r in
    let g1 := install gk (toInt32 (epoch (base g)) + 1) (base g) in
    let rh := _rosterHash g1 in
    let '(r2, evs, c) :=
      rekey_loop (cid g1) gk (epoch g1) rh (peers g1) r1 in
    (mkMls g1 true, r2, EvReady :: evs, c).

(** The closure [tryDecrypt] of [loadGK]. *)
Definition tryDecrypt (msg : GkFrame) (theirE : Z) (mySk : bytes)
           (useRh : bool) : option bytes :=
  let aad :=
    if useRh then _aadGK (gk_cid msg) theirE (gk_rh msg)
    else _aadGK (gk_cid msg) theirE VUndefined in
  match u8 (gk_ek msg) with
  | None => None
  | Some c =>
      match u8 (gk_n msg) with
      | None => None
      | Some n => aead_decrypt c aad n mySk
      end
  end.

(** The two nested [try]/[catch] blocks of [loadGK].  Besides the value
    left in [gk] the model returns the calls of [tryDecrypt] that were
    made, as the list of their [useRh] arguments. *)
Definition loadGK_attempts (msg : GkFrame) (theirE : Z) (mySk : bytes)
  : option bytes * list bool :=
  let primary := typeof_string (gk_rh msg) in
  match tryDecrypt msg theirE mySk primary with
  | Some gk => (Some gk, [primary])
  | None =>
      if typeof_string (gk_rh msg)
      then (tryDecrypt msg theirE mySk false, [primary; false])
      else (None, [primary])
  end.

(** [MlsGroup.prototype.loadGK(msg, mySk)] *)
Definition loadGK (g : MlsGroup) (msg : GkFrame) (mySk : bytes)
  : MlsGroup * list event :=
  if addressed_elsewhere (gk_to msg) (cid (base g)) then (g, [])
  else
    let me := toInt32 (epoch (base g)) in
    let theirE := toInt32 (gk_e msg) in
    if theirE <=? me then (g, [])
    else
      match fst (loadGK_attempts msg theirE mySk) with
      | None => (g, [])
      | Some gk =>
          let g1 := install gk theirE (base g) in
          (mkMls (fst (flush g1)) (isInitiator g),
           [EvReady])
      end.

End Channel.

(* ===================================================================== *)
(** ** handshake.js *)
(* ===================================================================== *)

(** The [MlKem512] object: key generation from its seed, [encap] with the
    randomness it draws, [decap].  [None] stands for a thrown exception. *)
Class Kem : Type := {
  kem_generateKeyPair : bytes -> bytes * bytes;
  kem_encap : bytes -> bytes -> option (bytes * bytes);
  kem_decap : bytes -> bytes -> option bytes
}.

(** What [createLocalKeys] returns. *)
Record LocalKeys : Type := mkLocal {
  xPub : bytes;
  xPriv : bytes;
  pqPub : bytes;
  pqPriv : bytes;
  idPub : bytes;
  idPriv : bytes
}.

(** A peer record of the caller: public material, then what the handshake
    reads and stashes ([ct], [sig], [sigOK], [sas]). *)
Record Peer : Type := mkPeer {
  p_idPub : bytes;
  p_xPub : bytes;
  p_pqPub : bytes;
  p_ct : option bytes;
  p_sig : option bytes;
  p_sigOK : option bool;
  p_sas : option string
}.

(** The three fields [buildTranscript] reads from either kind of record. *)
Record PubKeys : Type := mkPub { t_id : bytes; t_x : bytes; t_pq : bytes }.

Definition local_pub (l : LocalKeys) : PubKeys :=
  mkPub (idPub l) (xPub l) (pqPub l).

Definition peer_pub (p : Peer) : PubKeys :=
  mkPub (p_idPub p) (p_xPub p) (p_pqPub p).

(** [s.replace(/=+$/, "")] *)
Fixpoint strip_trailing_eq (s : string) : string :=
  match s with
  | EmptyString => EmptyString
  | String c r =>
      match strip_trailing_eq r with
      | EmptyString => if is_pad c then EmptyString else String c EmptyString
      | r' => String c r'
      end
  end.

Section Handshake.

Context `{Sodium} `{Kem}.

Definition fp4 (u : bytes) : string :=
  strip_trailing_eq (b64 (crypto_generichash 4 u None)).

(** [createLocalKeys()], the three key generators seeded from the CSPRNG. *)
Definition createLocalKeys (r : rng) : LocalKeys * rng :=
  let '(sx, r1) := randombytes_buf 32 r in
  let '(publicKey, privateKey) := crypto_kx_keypair sx in
  let '(sk, r2) := randombytes_buf 64 r1 in
  let '(pq_pub, pq_priv) := kem_generateKeyPair sk in
  let '(si, r3) := randombytes_buf 32 r2 in
  let '(id_pub, id_priv) := crypto_sign_keypair si in
  (mkLocal publicKey privateKey pq_pub pq_priv id_pub id_priv, r3).

Definition signDetached (msg priv : bytes) : option bytes :=
  crypto_sign_detached msg priv.

Definition verifyDetached (sig msg pub : bytes) : option bool :=
  crypto_sign_verify_detached sig msg pub.

Definition hkdfExtract (salt ikm : bytes) : bytes :=
  crypto_generichash 32 ikm (Some salt).

Definition hkdfExpand (prk info : bytes) (len : nat) : bytes :=
  let info1 := info ++ [x01] in
  crypto_generichash len info1 (Some prk).

Definition toU8 (s : string) : bytes := _u8 s.

Definition concatU8 (arrs : list bytes) : bytes := List.concat arrs.

(** [buildTranscript(local, peer, role, room)] *)
Definition buildTranscript (local peer : PubKeys) (role room : string)
  : bytes :=
  let init := if String.eqb role "init" then local else peer in
  let resp := if String.eqb role "init" then peer else local in
  let parts :=
    ["NT-v1|handshake|"; room; "|";
     "init.id="; b64 (t_id init); "|";
     "resp.id="; b64 (t_id resp); "|";
     "init.x="; b64 (t_x init); "|";
     "resp.x="; b64 (t_x resp); "|";
     "init.pq="; b64 (t_pq init); "|";
     "resp.pq="; b64 (t_pq resp)]%string in
  toU8 (join parts).

(** [deriveSharedKey(sharedX, sharedK, transcript, room)] *)
Definition deriveSharedKey (sharedX sharedK transcript : bytes)
           (room : string) : bytes :=
  let salt := crypto_generichash 32 (concatU8 [sharedX; sharedK]) None in
  let prk := hkdfExtract salt transcript in
  let info :=
    toU8 (String.append "NullTrace v1 handshake|room="
            (if String.eqb room EmptyString then "nt" else room))%string in
  hkdfExpand prk info 32.

(** [handshakeWith(peer, local, role, room = "nt")].  [room] is [None]
    when the argument is left out; [coins] is the randomness [encap]
    draws.  The result is the peer record as the call leaves it, and the
    pair key or the exception.  [crypto_scalarmult], [encap], the missing
    [ct] and [decap] throw before [peer] is written; [signDetached] throws
    after [peer.ct] was written. *)
Definition handshakeWith (peer : Peer) (local : LocalKeys) (role : string)
           (room : option string) (coins : bytes)
  : Peer * completion bytes :=
  let room := default "nt"%string room in
  match crypto_scalarmult (xPriv local) (p_xPub peer) with
  | None => (peer, Thrown)
  | Some sharedX =>
      let kem_step :=
        if String.eqb role "init" then
          match kem_encap (p_pqPub peer) coins with
          | None => None
          | Some (ct, sharedK) =>
              Some (mkPeer (p_idPub peer) (p_xPub peer) (p_pqPub peer)
                           (Some ct) (p_sig peer) (p_sigOK peer) (p_sas peer),
                    sharedK)
          end
        else
          match p_ct peer with
          | None => None (* throw new Error("Missing peer.ct ...") *)
          | Some ct =>
              match kem_decap ct (pqPriv local) with
              | None => None
              | Some sharedK => Some (peer, sharedK)
              end
          end in
      match kem_step with
      | None => (peer, Thrown)
      | Some (peer1, sharedK) =>
          let transcript :=
            buildTranscript (local_pub local) (peer_pub peer1) role room in
          let sig_step :=
            if String.eqb role "init" then
              match signDetached transcript (idPriv local) with
              | None => None
              | Some sig =>
                  Some (mkPeer (p_idPub peer1) (p_xPub peer1) (p_pqPub peer1)
                               (p_ct peer1) (Some sig)
                               (p_sigOK peer1) (p_sas peer1))
              end
            else
              Some
                match p_sig peer1 with
                | None => peer1
                | Some sig =>
                    let ok :=
                      match verifyDetached sig transcript (p_idPub peer1) with
                      | Some b => b
                      | None => false
                      end in
                    mkPeer (p_idPub peer1) (p_xPub peer1) (p_pqPub peer1)
                           (p_ct peer1) (p_sig peer1) (Some ok)
                           (p_sas peer1)
                end in
          match sig_step with
          | None => (peer1, Thrown)
          | Some peer2 =>
              let peer3 :=
                mkPeer (p_idPub peer2) (p_xPub peer2) (p_pqPub peer2)
                       (p_ct peer2) (p_sig peer2) (p_sigOK peer2)
                       (Some (fp4 transcript)) in
              (peer3,
               Returned (deriveSharedKey sharedX sharedK transcript room))
          end
      end
  end.

End Handshake.

(* ===================================================================== *)
(** ** nacp.js: the access capsule *)
(* ===================================================================== *)

Definition CAPSULE_TTL_MS : Z := 2 * 60 * 1000.
Definition PAD_MIN : Z := 512.
Definition PAD_MAX : Z := 1024.
Definition MAX_CAPSULE_BYTES : Z := 4096.
Definition CAPSULE_VER : string := "NT-C1"%string.
Definition CAPSULE_ALG : string := "Ed25519|X25519+ML-KEM-512"%string.

(** The built-ins [parseCapsule] calls besides libsodium. *)
Class Platform : Type := {
  (** [String.prototype.trim] *)
  trim : string -> string;
  (** [new TextDecoder().decode(bytes)] (never throws) *)
  TextDecoder_decode : bytes -> string;
  (** [JSON.parse]; [None] for its [SyntaxError] *)
  JSON_parse : string -> option value
}.

(** [Math.floor(Math.random() * n)] when [Math.random()] returns
    [u / 2^53]; the rounding of the floating-point product is not modelled. *)
Definition Math_random_floor (u n : Z) : Z := ((u mod 2 ^ 53) * n) / 2 ^ 53.

(** ToString on a value, as [Array.prototype.join] and [String] apply it. *)
Fixpoint ToString (v : value) : string :=
  match v with
  | VUndefined => "undefined"%string
  | VNull => "null"%string
  | VBool true => "true"%string
  | VBool false => "false"%string
  | VNum n => number_to_string n
  | VStr s => s
  | VArr xs =>
      (fix elems (l : list value) : string :=
         match l with
         | [] => EmptyString
         | x :: r =>
             String.append
               (match x with
                | VUndefined | VNull => EmptyString
                | _ => ToString x
                end)
               (match r with
                | [] => EmptyString
                | _ => String.append ","%string (elems r)
                end)
         end) xs
  | VObj _ => "[object Object]"%string
  end.

(** [parts.join("")] on an array of values: [undefined] and [null] elements
    contribute nothing. *)
Definition join_values (parts : list value) : string :=
  join (map (fun x => match x with
                      | VUndefined | VNull => EmptyString
                      | _ => ToString x
                      end) parts).

(** [a ?? b] *)
Definition nullish_or (a b : value) : value :=
  match a with
  | VUndefined | VNull => b
  | _ => a
  end.

(** [a || b] *)
Definition or_else (a b : value) : value := if truthy a then a else b.

(** What [parseCapsule] returns on success. *)
Record Invitation : Type := mkInvitation {
  inv_room : value;
  inv_cid : value;
  inv_xPub : bytes;
  inv_pqPub : bytes;
  inv_idPub : bytes;
  inv_ver : value;
  inv_alg : value
}.

Section Capsule.

Context `{Sodium} `{Platform}.

(** [randomPad(len)]: [len] bytes of [crypto.getRandomValues], each mapped
    to the character [33 + (v % 94)]. *)
Definition randomPad (len : nat) (r : rng) : string * rng :=
  let '(arr, r1) := randombytes_buf len r in
  (string_of_list_ascii
     (map (fun v => ascii_of_N (33 + Byte.to_N v mod 94)) arr), r1).

Definition encStr (s : string) : bytes := _u8 s.

(** [buildCapsuleTranscript(p)] *)
Definition buildCapsuleTranscript (p : value) : bytes :=
  let parts :=
    [VStr "v="; nullish_or (get "v" p) (VStr ""); VStr "|alg=";
     nullish_or (get "alg" p) (VStr ""); VStr "|room="; get "room" p;
     VStr "|cid="; get "cid" p; VStr "|x="; get "x" p;
     VStr "|k="; get "k" p]%string in
  let parts :=
    if typeof_number (get "iat" p)
    then parts ++ [VStr "|iat="%string; VStr (ToString (get "iat" p))]
    else parts in
  let parts :=
    parts ++ [VStr "|exp="%string; VStr (ToString (get "exp" p))] in
  encStr (join_values parts).

(** [createCapsule(room, xPub, pqPub, cid, idPriv, idPub)]; [now] is
    [Date.now()], [u] the numerator of the one [Math.random()] draw and
    [r] the entropy behind [crypto.getRandomValues]. *)
Definition capsule_payload (now : Z) (room c : string) (x_pub pq_pub : bytes)
  : value :=
  VObj [("v", VStr CAPSULE_VER); ("alg", VStr CAPSULE_ALG);
        ("room", VStr room); ("cid", VStr c);
        ("x", VStr (b64 x_pub)); ("k", VStr (b64 pq_pub));
        ("iat", VNum now); ("exp", VNum (now + CAPSULE_TTL_MS))]%string.

(** The capsule object once the transcript is signed with [sig]. *)
Definition capsule_unpadded (now : Z) (room c : string)
           (x_pub pq_pub sig id_pub : bytes) : list (string * value) :=
  let payload := capsule_payload now room c x_pub pq_pub in
  [("payload", payload); ("id", VStr (b64 id_pub));
   ("sig", VStr (b64 sig))]%string.

Definition capsule_target (u : Z) : Z :=
  PAD_MIN + Math_random_floor u (PAD_MAX - PAD_MIN + 1).

(** The capsule object after the padding block. *)
Definition capsule_padded (now u : Z) (r : rng) (room c : string)
           (x_pub pq_pub sig id_pub : bytes) : list (string * value) :=
  let capsule := capsule_unpadded now room c x_pub pq_pub sig id_pub in
  let json := JSON_stringify (VObj capsule) in
  let target := capsule_target u in
  let padCount := target - Z.of_nat (js_length json) in
  if 0 <? padCount
  then assoc_set "pad"%string
         (VStr (fst (randomPad (Z.to_nat padCount) r))) capsule
  else capsule.

(** [createCapsule]; it ends with the exception of [signDetached] when
    that throws. *)
Definition createCapsule (now u : Z) (r : rng) (room : string)
           (x_pub pq_pub : bytes) (c : string) (id_priv id_pub : bytes)
  : completion string :=
  let payload := capsule_payload now room c x_pub pq_pub in
  let transcript := buildCapsuleTranscript payload in
  sig ← call (signDetached transcript id_priv);
  let capsule := capsule_padded now u r room c x_pub pq_pub sig id_pub in
  let json := JSON_stringify (VObj capsule) in
  mret (b64 (_u8 json)).

(** The body of the [try] block of [parseCapsule]; [Thrown] where a call
    inside it throws. *)
Definition parseCapsule_body (str : value) (now : Z)
  : completion (option Invitation) :=
  match str with
  | VStr s =>
      let trimmed := trim s in
      bs ← call (u8 (VStr trimmed));
      if MAX_CAPSULE_BYTES <? Z.of_nat (length bs) then mret None
      else
        let raw := TextDecoder_decode bs in
        obj ← call (JSON_parse raw);
        if negb (truthy obj) || negb (typeof_object obj) then mret None
        else
          let payload := get "payload" obj in
          let id := get "id" obj in
          let sig := get "sig" obj in
          if negb (truthy payload) || negb (typeof_object payload)
          then mret None
          else
            let exp := get "exp" payload in
            let iat := get "iat" payload in
            match exp with
            | VNum exp_n =>
                if exp_n <? now then mret None
                else if (match iat with
                         | VNum iat_n =>
                             (now <? iat_n)
                             || (CAPSULE_TTL_MS * 2 <? exp_n - iat_n)
                         | _ => false
                         end)
                then mret None
                else
                  let transcript := buildCapsuleTranscript payload in
                  idPubBytes ← call (u8 id);
                  sigBytes ← call (u8 sig);
                  ok ← call (verifyDetached sigBytes transcript idPubBytes);
                  if negb ok then mret None
                  else
                    x_pub ← call (u8 (get "x" payload));
                    pq_pub ← call (u8 (get "k" payload));
                    mret (Some (mkInvitation
                                  (get "room" payload) (get "cid" payload)
                                  x_pub pq_pub idPubBytes
                                  (or_else (get "v" payload) (VStr "legacy"))
                                  (or_else (get "alg" payload)
                                     (VStr "legacy"))))
            | _ => mret None
            end
  | _ => mret None
  end.

(** [parseCapsule(str)]: the [try] block under its [catch { return null }]. *)
Definition parseCapsule (str : value) (now : Z)
  : completion (option Invitation) :=
  match parseCapsule_body str now with
  | Thrown => Returned None
  | r => r
  end.

End Capsule.

(* ===================================================================== *)
(** ** Sequences of calls *)
(* ===================================================================== *)

(** Calls on a [Group] that leave its key and epoch alone. *)
Inductive op : Type :=
| OpDecrypt (m : MsgFrame)
| OpEncrypt (txt : string)
| OpFlush.

Definition run_op `{Sodium} (g : Group) (o : op) : Group :=
  match o with
  | OpDecrypt m => fst (decrypt g m)
  | OpEncrypt txt => fst (encrypt g txt)
  | OpFlush => fst (flush g)
  end.

Definition run_ops `{Sodium} (g : Group) (os : list op) : Group :=
  fold_left run_op os g.

(** The part of the state that only [rekey] and [loadGK] write. *)
Definition same_key (g g' : Group) : Prop :=
  cid g' = cid g /\ peers g' = peers g /\ groupKey g' = groupKey g /\
  epoch g' = epoch g.

(** The highest sequence number accepted from [c], as [decrypt] reads it:
    [this.recvSeq.get(c) ?? -1]. *)
Definition last_seen (g : Group) (c : string) : Z :=
  default (-1) (recvSeq g !! c).

(** The epochs installed by a run of [MlsGroup.loadGK] over incoming [gk]
    frames, each with the pair key it is opened with: a call installed a
    key exactly when it fired [onReady]. *)
Fixpoint installed_epochs `{Sodium} (g : MlsGroup)
         (frames : list (GkFrame * bytes)) : list Z :=
  match frames with
  | [] => []
  | (msg, sk) :: r =>
      let '(g', evs) := loadGK g msg sk in
      match evs with
      | [] => installed_epochs g' r
      | _ :: _ => epoch (base g') :: installed_epochs g' r
      end
  end.

(** A fresh peer record holding the public keys of [l]. *)
Definition peer_of (l : LocalKeys) : Peer :=
  mkPeer (idPub l) (xPub l) (pqPub l) None None None None.

(** The peer record after the [ct] frame was received:
    [peer.ct = u8(msg.ct); if (msg.sig) peer.sig = u8(msg.sig)]. *)
Definition with_ct (p : Peer) (ct : option bytes) (sig : option bytes) : Peer :=
  mkPeer (p_idPub p) (p_xPub p) (p_pqPub p) ct sig (p_sigOK p) (p_sas p).

(** Key material as [createLocalKeys] makes it: each pair comes out of its
    generator. *)
Definition generated `{Sodium} `{Kem} (l : LocalKeys) : Prop :=
  (exists sx, crypto_kx_keypair sx = (xPub l, xPriv l)) /\
  (exists sk, kem_generateKeyPair sk = (pqPub l, pqPriv l)).

(* ===================================================================== *)
(** ** Contracts of the primitives *)
(* ===================================================================== *)

(** [crypto_generichash(len, ...)] returns [len] bytes. *)
Definition hash_length `{Sodium} : Prop :=
  forall n d k, length (crypto_generichash n d k) = n.

(** The AEAD accepts every message under a 24-byte nonce and 32-byte key. *)
Definition aead_accepts `{Sodium} : Prop :=
  forall m ad n k,
    length n = NPUBBYTES -> length k = 32%nat ->
    is_Some (aead_encrypt m ad n k).

(** X25519 between generated key pairs succeeds and agrees. *)
Definition ecdh_agrees `{Sodium} : Prop :=
  forall sa sb,
    is_Some (crypto_scalarmult (snd (crypto_kx_keypair sa))
                               (fst (crypto_kx_keypair sb))) /\
    crypto_scalarmult (snd (crypto_kx_keypair sa)) (fst (crypto_kx_keypair sb))
    = crypto_scalarmult (snd (crypto_kx_keypair sb))
                        (fst (crypto_kx_keypair sa)).

(** The KEM is correct on generated key pairs. *)
Definition kem_correct `{Kem} : Prop :=
  forall seed coins,
    exists ct ss,
      kem_encap (fst (kem_generateKeyPair seed)) coins = Some (ct, ss) /\
      kem_decap ct (snd (kem_generateKeyPair seed)) = Some ss.

(* ===================================================================== *)
(** ** A small executable instance of the primitives *)
(* ===================================================================== *)

(** Stand-ins with the shapes and contracts of the real primitives (none
    of their security), on which the statements below can be run. *)
Module Toy.

Fixpoint bytes_eqb (a b : bytes) : bool :=
  match a, b with
  | [], [] => true
  | x :: a', y :: b' => Byte.eqb x y && bytes_eqb a' b'
  | _, _ => false
  end.

Definition digest (bs : bytes) : N :=
  fold_left (fun a b => ((a * 257 + Byte.to_N b + 1) mod 1000000007)%N) bs 0%N.

Definition hash (n : nat) (d : bytes) (k : option bytes) : bytes :=
  map (fun i => byte_of (digest (default [] k ++ d) * (N.of_nat i + 1) / 7))
      (seq 0 n).

Definition tag (ad n k : bytes) : bytes := hash 16 (ad ++ n) (Some k).

Definition seal (m ad n k : bytes) : option bytes :=
  if ((length n =? 24) && (length k =? 32))%nat
  then Some (tag ad n k ++ m) else None.

Definition unseal (c ad n k : bytes) : option bytes :=
  if ((length n =? 24) && (length k =? 32))%nat
     && bytes_eqb (firstn 16 c) (tag ad n k)
  then Some (skipn 16 c) else None.

Definition dh (priv pub : bytes) : option bytes :=
  Some (repeat x2a (length priv + length pub)).

(** An identity key pair: 32 bytes of public key, and a private key of 64
    bytes that ends in the public key. *)
Definition sign_pub (seed : bytes) : bytes := hash 32 seed None.

Definition sign_priv (seed : bytes) : bytes :=
  hash 32 seed (Some [x01]) ++ sign_pub seed.

Definition sign (msg priv : bytes) : option bytes :=
  if (length priv =? 64)%nat
  then Some (hash 64 msg (Some (skipn 32 priv)))
  else None.

Definition verify (sig msg pub : bytes) : option bool :=
  if ((length sig =? 64) && (length pub =? 32))%nat
  then Some (bytes_eqb sig (hash 64 msg (Some pub)))
  else None.

Definition sodium : Sodium := {|
  crypto_generichash := hash;
  aead_encrypt := seal;
  aead_decrypt := unseal;
  to_string := fun pt => Some (string_of_list_byte pt);
  crypto_kx_keypair := fun seed => (seed, seed);
  crypto_scalarmult := dh;
  crypto_sign_keypair := fun seed => (sign_pub seed, sign_priv seed);
  crypto_sign_detached := sign;
  crypto_sign_verify_detached := verify
|}.

Definition kem : Kem := {|
  kem_generateKeyPair := fun seed => (seed, seed);
  kem_encap := fun pk coins => Some (coins, pk ++ coins);
  kem_decap := fun ct sk => Some (sk ++ ct)
|}.

(** A parser that knows the documents of [known] by their text. *)
Fixpoint parse_known (known : list value) (s : string) : option value :=
  match known with
  | [] => None
  | v :: r =>
      if String.eqb (JSON_stringify v) s then Some v else parse_known r s
  end.

Definition platform (known : list value) : Platform := {|
  trim := fun s => s;
  TextDecoder_decode := string_of_list_byte;
  JSON_parse := parse_known known
|}.

Definition zeros (n : nat) : bytes := repeat x00 n.

(** An entropy tape of zero bytes. *)
Definition rng0 : rng := mkRng (fun _ => x00) 0.

Definition key32 : bytes := repeat x11 32.
Definition nonce24 : bytes := repeat x22 24.

(** A guest's group in epoch 5 holding a key. *)
Definition group5 : Group :=
  mkGroup "guest" [] (Some key32) 5 [] 3 ∅.

(** A [gk] frame for epoch [e] wrapped under [key32] by ["host"], with
    the member [rh] it carries and the [rh] its wrap was bound to. *)
Definition gk_frame (e : Z) (rh bound : value) : GkFrame :=
  mkGk "host" (VStr "guest") e rh (VStr (b64 nonce24))
       (VStr (b64 (tag (_aadGK "host" e bound) nonce24 key32
                   ++ repeat x33 32))).

(** The same wrap as the base class makes it. *)
Definition gk_frame_base (e : Z) : GkFrame :=
  mkGk "host" (VStr "guest") e VUndefined (VStr (b64 nonce24))
       (VStr (b64 (tag (_aad "gk" "host" 0 e) nonce24 key32
                   ++ repeat x33 32))).

(** The host's and a guest's view of epoch 5 under the same key. *)
Definition host5 : Group := mkGroup "host" [] (Some key32) 5 [] 0 ∅.
Definition guest5 : Group := mkGroup "guest" [] (Some key32) 5 [] 0 ∅.

(** The first message of the guest, as [encrypt] frames it. *)
Definition msg_hi : MsgFrame :=
  match encrypt (H := sodium) guest5 "hi" with
  | (_, Returned (Some f)) => f
  | _ => mkMsg "" 0 0 VUndefined VUndefined
  end.

(** A capsule made at time [capsule_now] for room ["r1"]. *)
Definition capsule_now : Z := 1700000000000.

(** The signature [createCapsule] makes with the identity key of seed
    [key32]. *)
Definition capsule_sig : bytes :=
  default []
    (sign (buildCapsuleTranscript
             (capsule_payload capsule_now "r1" "cid" (zeros 32) (zeros 8)))
          (sign_priv key32)).

Definition capsule_doc : value :=
  VObj (capsule_padded capsule_now 0 rng0 "r1" "cid"
          (zeros 32) (zeros 8) capsule_sig (sign_pub key32)).

Definition capsule_str : string :=
  match createCapsule (H := sodium) capsule_now 0 rng0 "r1"
                      (zeros 32) (zeros 8) "cid"
                      (sign_priv key32) (sign_pub key32) with
  | Returned s => s
  | Thrown => EmptyString
  end.

End Toy.

(* ===================================================================== *)
(** ** Further calls of the sources *)
(* ===================================================================== *)

(** *** group.js: [Group.prototype.rekey] *)

(** The [for] loop of the base-class [rekey]: the AAD has no [rh] and the
    frame carries none. *)
Fixpoint Group_rekey_loop `{Sodium} (self : string) (gk : bytes) (e : Z)
         (ps : list (string * bytes)) (r : rng)
  : rng * list event * completion unit :=
  match ps with
  | [] => (r, [], Returned tt)
  | (peerCid, sk) :: ps' =>
      let aad := _aad "gk"%string self 0 e in
      let '(nonce, r1) := randombytes_buf NPUBBYTES r in
      match aead_encrypt gk aad nonce sk with
      | None => (r1, [], Thrown)
      | Some ek =>
          let f := mkGk self (VStr peerCid) e VUndefined
                        (VStr (b64 nonce)) (VStr (b64 ek)) in
          let '(r2, evs, c) := Group_rekey_loop self gk e ps' r1 in
          (r2, EvSend f :: evs, c)
      end
  end.

(** [Group.prototype.rekey()] *)
Definition Group_rekey `{Sodium} (g : Group) (r : rng)
  : Group * rng * list event * completion unit :=
  let '(gk, r1) := randombytes_buf 32 r in
  let g1 := install gk (toInt32 (epoch g) + 1) g in
  let '(r2, evs, c) := Group_rekey_loop (cid g1) gk (epoch g1) (peers g1) r1 in
  (g1, r2, EvReady :: evs, c).

(** *** Runs of [encrypt] and [decrypt] *)

(** [encrypt] on each text in turn (the send button of app.js); the frames
    are those of the calls that returned one. *)
Fixpoint encrypt_all `{Sodium} (g : Group) (txts : list string)
  : Group * list MsgFrame :=
  match txts with
  | [] => (g, [])
  | t :: r =>
      let '(g1, c) := encrypt g t in
      let '(g2, fs) := encrypt_all g1 r in
      (g2, match c with
           | Returned (Some f) => f :: fs
           | _ => fs
           end)
  end.

(** [decrypt] on each frame in turn (the [m] branch of [ws.onmessage]);
    the results are what each call returned. *)
Fixpoint decrypt_all `{Sodium} (g : Group) (ms : list MsgFrame)
  : Group * list (option string) :=
  match ms with
  | [] => (g, [])
  | m :: r =>
      let '(g1, txt) := decrypt g m in
      let '(g2, txts) := decrypt_all g1 r in
      (g2, txt :: txts)
  end.

(** *** app.js: [sendMessage], [randomString], [safeRekey] *)

Definition MIN_PACKET_SIZE : Z := 3000.
Definition MAX_PACKET_SIZE : Z := 5000.
Definition REKEY_MIN_MS : Z := 800.

(** [randomString(len)]: [len] random bytes, each mapped to the letter
    [97 + (v % 26)]. *)
Definition randomString (len : nat) (r : rng) : string * rng :=
  let '(arr, r1) := randombytes_buf len r in
  (string_of_list_ascii
     (map (fun v => ascii_of_N (97 + Byte.to_N v mod 26)) arr), r1).

(** [sendMessage(obj)]: what is handed to [ws.send], or [None] without a
    socket.  [obj] is the object by its members, [u] the numerator of the
    [Math.random()] draw, [r] the entropy behind [crypto.getRandomValues]. *)
Definition sendMessage (ws : bool) (obj : list (string * value)) (u : Z)
           (r : rng) : option string :=
  if negb ws then None
  else
    let msg := obj in
    let overhead := Z.of_nat (js_length (JSON_stringify (VObj msg))) + 8 in
    let target :=
      MIN_PACKET_SIZE
      + Math_random_floor u (MAX_PACKET_SIZE - MIN_PACKET_SIZE + 1) in
    let pad := target - overhead in
    let msg :=
      if 0 <? pad
      then assoc_set "pad"%string
             (VStr (fst (randomString (Z.to_nat pad) r))) msg
      else msg in
    Some (JSON_stringify (VObj msg)).

(** The host-side state [safeRekey] reads and writes. *)
Record Host : Type := mkHost {
  lastRekeyAt : Z;
  grp : option MlsGroup
}.

(** [safeRekey()]; [now] is [Date.now()]. *)
Definition safeRekey `{Sodium} (h : Host) (now : Z) (r : rng)
  : Host * rng * list event * completion unit :=
  match grp h with
  | None => (h, r, [], Returned tt)
  | Some g =>
      if now - lastRekeyAt h <? REKEY_MIN_MS then (h, r, [], Returned tt)
      else
        let '(g', r', evs, c) := rekey g r in
        (mkHost now (Some g'), r', evs, c)
  end.

(** [safeRekey] at each call in turn.  A call is the clock reading and
    what [grp] holds by then: other code writes [grp], only [safeRekey]
    writes [lastRekeyAt].  The result lists the readings at which the
    group was rekeyed (it fired [onReady]). *)
Fixpoint rekey_times `{Sodium} (last : Z) (calls : list (Z * option MlsGroup))
         (r : rng) : list Z :=
  match calls with
  | [] => []
  | (now, g) :: rest =>
      let '(h', r', evs, _) := safeRekey (mkHost last g) now r in
      match evs with
      | [] => rekey_times (lastRekeyAt h') rest r'
      | _ :: _ => now :: rekey_times (lastRekeyAt h') rest r'
      end
  end.

(** *** app.js: [readyUI], the [readyCb] of the group *)

(** What [readyUI] does to the group: [grp.flush(txt => addMsg(txt, "in"))];
    the second component lists the texts given to [addMsg].  The other
    statements of [readyUI] write the page and its timers. *)
Definition readyUI `{Sodium} (g : Group) : Group * list string := flush g.

(** [MlsGroup.prototype.loadGK(msg, mySk)] on a group that was made with
    the callback [cb] as [readyCb]: where the method calls
    [this.onReady?.()], between the install and its own
    [this.flush(() => {})], the callback runs on the group.  The result is
    the group, the texts the callback reports and the texts given to the
    empty callback of the method's own [flush].  ([loadGK] above records
    the call as the event [EvReady] and runs no callback.) *)
Definition loadGK_with `{Sodium} (cb : Group -> Group * list string)
           (g : MlsGroup) (msg : GkFrame) (mySk : bytes)
  : MlsGroup * list string * list string :=
  if addressed_elsewhere (gk_to msg) (cid (base g)) then (g, [], [])
  else
    let me := toInt32 (epoch (base g)) in
    let theirE := toInt32 (gk_e msg) in
    if theirE <=? me then (g, [], [])
    else
      match fst (loadGK_attempts msg theirE mySk) with
      | None => (g, [], [])
      | Some gk =>
          let g1 := install gk theirE (base g) in
          let '(g2, shown) := cb g1 in
          let '(g3, dropped) := flush g2 in
          (mkMls g3 (isInitiator g), shown, dropped)
      end.

(** *** Helpers of the statements *)

(** The members of an object as [JSON.stringify] prints them. *)
Fixpoint obj_props (l : list (string * value)) (first : bool) : string :=
  match l with
  | [] => EmptyString
  | (k, x) :: r =>
      match x with
      | VUndefined => obj_props r first
      | _ =>
          String.append (if first then EmptyString else ","%string)
            (String.append (quote k)
               (String.append ":"%string
                  (String.append (JSON_stringify x) (obj_props r false))))
      end
  end.

(** Some member is printed. *)
Definition visible (l : list (string * value)) : bool :=
  existsb (fun kv => match snd kv with VUndefined => false | _ => true end) l.

(** The characters [JSON.stringify] writes with a backslash in front. *)
Definition escapes (s : string) : nat :=
  length (filter (fun c => (N_of_ascii c =? 34)%N || (N_of_ascii c =? 92)%N)
                 (list_ascii_of_string s)).

(** The AEAD opens what it sealed. *)
Definition aead_correct `{Sodium} : Prop :=
  forall m ad n k c,
    aead_encrypt m ad n k = Some c -> aead_decrypt c ad n k = Some m.

(** Signing with a generated key returns. *)
Definition sign_accepts `{Sodium} : Prop :=
  forall seed msg,
    is_Some (crypto_sign_detached msg (snd (crypto_sign_keypair seed))).

(** Signing with a generated key returns a signature that verifies under
    its public key. *)
Definition sign_correct `{Sodium} : Prop :=
  forall seed msg,
    exists sig,
      crypto_sign_detached msg (snd (crypto_sign_keypair seed)) = Some sig /\
      crypto_sign_verify_detached sig msg (fst (crypto_sign_keypair seed))
      = Some true.

(** The platform reads back the capsule text of [doc]: [trim] leaves its
    base64 alone, [TextDecoder] inverts [TextEncoder] on it and
    [JSON.parse] inverts [JSON.stringify] on it. *)
Definition reads_back `{Platform} (doc : value) : Prop :=
  let json := JSON_stringify doc in
  trim (b64 (_u8 json)) = b64 (_u8 json) /\
  TextDecoder_decode (_u8 json) = json /\
  JSON_parse json = Some doc.

(** A frame that [decrypt] turns down without writing: its epoch is not
    the current one, or its number is not above the last one seen, or it
    does not open under the key. *)
Definition spent `{Sodium} (g : Group) (m : MsgFrame) : Prop :=
  toInt32 (m_e m) <> toInt32 (epoch g) \/
  toInt32 (m_s m) <= last_seen g (m_cid m) \/
  (forall key, groupKey g = Some key -> open_msg key m = None).

(** Sample data for running the statements. *)
Module Sample.

(** The key that [Toy.gk_frame] wraps. *)
Definition gkey : bytes := repeat x33 32.

(** The host in epoch 7 under [gkey], and its first message. *)
Definition host7 : Group := mkGroup "host" [] (Some gkey) 7 [] 0 ∅.

Definition msg_early : MsgFrame :=
  match encrypt (H := Toy.sodium) host7 "early" with
  | (_, Returned (Some f)) => f
  | _ => mkMsg "" 0 0 VUndefined VUndefined
  end.

(** A guest that got [msg_early] before any key. *)
Definition guest_waiting : MlsGroup :=
  mkMls (fst (decrypt (H := Toy.sodium) (Group_new "guest") msg_early)) false.

(** An initiator with two members. *)
Definition host_two : MlsGroup :=
  mkMls (mkGroup "host" [("ann"%string, Toy.key32); ("bob"%string, Toy.key32)]
                 None 4 [] 9 ∅) true.

(** The member ["ann"] of [host_two] before its first key, as an
    [MlsGroup] and as a base-class [Group]. *)
Definition ann0 : MlsGroup :=
  mkMls (mkGroup "ann" [("host"%string, Toy.key32)] None 0 [] 0 ∅) false.

(** An initiator whose second member holds a key of five bytes. *)
Definition host_bad : MlsGroup :=
  mkMls (mkGroup "host" [("ann"%string, Toy.key32);
                         ("bob"%string, Toy.zeros 5);
                         ("cat"%string, Toy.key32)]
                 None 4 [] 9 ∅) true.

(** A member that knows the participants of [host_two] in another order. *)
Definition bob_view : Group :=
  mkGroup "bob" [("host"%string, Toy.key32); ("ann"%string, Toy.zeros 32)]
          None 0 [] 0 ∅.

(** A capsule for keys of the real sizes: 32 bytes of X25519 key, the
    800 bytes of an ML-KEM-512 key and a generated identity key pair. *)
Definition real_capsule : string :=
  match createCapsule (H := Toy.sodium) Toy.capsule_now 0 Toy.rng0 "r1"
                      (Toy.zeros 32) (Toy.zeros 800) "cid"
                      (Toy.sign_priv Toy.key32) (Toy.sign_pub Toy.key32) with
  | Returned s => s
  | Thrown => EmptyString
  end.

(** Two sets of keys from [createLocalKeys]. *)
Definition keysA : LocalKeys :=
  fst (createLocalKeys (H := Toy.sodium) (H0 := Toy.kem) Toy.rng0).
Definition keysB : LocalKeys :=
  fst (createLocalKeys (H := Toy.sodium) (H0 := Toy.kem)
         (mkRng (fun _ => x01) 0)).

End Sample.

(** Identity keys as [createLocalKeys] makes them. *)
Definition generated_id `{Sodium} (l : LocalKeys) : Prop :=
  exists si, crypto_sign_keypair si = (idPub l, idPriv l).

(** [peer.sig = sig] on a peer record. *)
Definition with_sig (p : Peer) (sig : option bytes) : Peer :=
  mkPeer (p_idPub p) (p_xPub p) (p_pqPub p) (p_ct p) sig (p_sigOK p) (p_sas p).

(** The bytes that [_nonce] hashes. *)
Definition nonce_input (c : string) (seq epoch : Z) : bytes :=
  _concat [_u8 "NT-v1|nonce|"%string;
           _u8 (join [c; "|"%string; number_to_string seq; "|"%string;
                      number_to_string epoch])].

(** Fields written one after the other, each behind a bar. *)
Definition bar_fields (xs : list (list ascii)) : list ascii :=
  concat (map (cons "|"%char) xs).

(** The order of the default [sort]. *)
Definition str_le (x y : string) : Prop := utf16_leb x y = true.

(** *** Unicode scalar values and their encodings *)

Definition scalar (cp : N) : Prop :=
  (cp < 55296 \/ (57344 <= cp /\ cp < 1114112))%N.

(** The UTF-8 bytes of a scalar value. *)
Definition utf8_of (cp : N) : list N :=
  (if cp <? 128 then [cp]
   else if cp <? 2048 then [192 + cp / 64; 128 + cp mod 64]
   else if cp <? 65536
        then [224 + cp / 4096; 128 + (cp / 64) mod 64; 128 + cp mod 64]
        else [240 + cp / 262144; 128 + (cp / 4096) mod 64;
              128 + (cp / 64) mod 64; 128 + cp mod 64])%N.

(** The UTF-16 code units of a scalar value. *)
Definition utf16_of (cp : N) : list N :=
  (if cp <? 65536 then [cp]
   else [55296 + (cp - 65536) / 1024; 56320 + (cp - 65536) mod 1024])%N.

(** The string of the model for a sequence of scalar values. *)
Definition utf8_string (cps : list N) : string :=
  string_of_list_ascii (map ascii_of_N (flat_map utf8_of cps)).

(** The comparison at the first place where two sequences differ, if
    there is one before either ends. *)
Fixpoint differ (a b : list N) : option comparison :=
  match a, b with
  | x :: a', y :: b' =>
      match N.compare x y with
      | Eq => differ a' b'
      | o => Some o
      end
  | _, _ => None
  end.

(** The place of a scalar value in the order of UTF-16. *)
Definition key16 (cp : N) : N :=
  (if cp <? 55296 then cp
   else if cp <? 65536 then cp + 1048576
   else cp - 65536 + 55296)%N.

(* ===================================================================== *)
(** * Properties *)
(* ===================================================================== *)

(** ** Numbers *)

Ltac pow2 :=
  change (2 ^ 31) with 2147483648 in *;
  change (2 ^ 32) with 4294967296 in *.

Lemma toInt32_range (z : Z) : int32 (toInt32 z).
Proof.
  unfold int32, toInt32. pow2.
  pose proof (Z.mod_pos_bound (z + 2147483648) 4294967296 eq_refl). lia.
Qed.

Lemma toInt32_id (z : Z) : int32 z -> toInt32 z = z.
Proof.
  unfold int32, toInt32. pow2. intros Hz.
  rewrite Z.mod_small; lia.
Qed.

Lemma toInt32_idem (z : Z) : toInt32 (toInt32 z) = toInt32 z.
Proof. apply toInt32_id, toInt32_range. Qed.

(** ** What [decrypt], [encrypt] and [flush] leave alone *)

Section Frame.

Context `{Sodium}.

Lemma same_key_refl g : same_key g g.
Proof. repeat split. Qed.

Lemma same_key_trans g1 g2 g3 :
  same_key g1 g2 -> same_key g2 g3 -> same_key g1 g3.
Proof. unfold same_key. intuition congruence. Qed.

Lemma decrypt_same_key g m : same_key g (fst (decrypt g m)).
Proof.
  unfold decrypt. repeat case_match; simpl; repeat split; done.
Qed.

Lemma decrypt_sendSeq g m : sendSeq (fst (decrypt g m)) = sendSeq g.
Proof. unfold decrypt. repeat case_match; reflexivity. Qed.

(** With a key installed [decrypt] does not buffer. *)
Lemma decrypt_pending g m :
  is_Some (groupKey g) -> pending (fst (decrypt g m)) = pending g.
Proof.
  intros [k Hk]. unfold decrypt. rewrite Hk.
  repeat case_match; reflexivity.
Qed.

(** [recvSeq] entries only grow. *)
Lemma decrypt_last_seen g m c :
  last_seen g c <= last_seen (fst (decrypt g m)) c.
Proof.
  unfold decrypt, last_seen.
  repeat case_match; simpl; try lia.
  destruct (decide (m_cid m = c)) as [Heq|Hne].
  - subst c. rewrite lookup_insert_eq. simpl.
    match goal with Hle : (_ <=? _) = false |- _ =>
      apply Z.leb_gt in Hle end.
    lia.
  - rewrite lookup_insert_ne by done. lia.
Qed.

Lemma encrypt_same_key g txt : same_key g (fst (encrypt g txt)).
Proof. unfold encrypt. repeat case_match; simpl; repeat split; done. Qed.

Lemma encrypt_recvSeq g txt : recvSeq (fst (encrypt g txt)) = recvSeq g.
Proof. unfold encrypt. repeat case_match; reflexivity. Qed.

Lemma flush_loop_same_key todo : forall g rest out,
  same_key g (fst (fst (flush_loop g todo rest out))).
Proof.
  induction todo as [|m todo IH]; intros g rest out; simpl.
  - apply same_key_refl.
  - pose proof (decrypt_same_key (set_pending todo g) m) as Hd.
    destruct (decrypt (set_pending todo g) m) as [g1 txt]. simpl in Hd.
    assert (same_key g g1) as Hg by (unfold same_key in *; simpl in *; done).
    destruct txt; [|case_match];
      (eapply same_key_trans; [exact Hg | apply IH]).
Qed.

Lemma flush_loop_sendSeq todo : forall g rest out,
  sendSeq (fst (fst (flush_loop g todo rest out))) = sendSeq g.
Proof.
  induction todo as [|m todo IH]; intros g rest out; simpl; [done|].
  pose proof (decrypt_sendSeq (set_pending todo g) m) as Hd.
  destruct (decrypt (set_pending todo g) m) as [g1 txt]. simpl in Hd.
  destruct txt; [|case_match]; rewrite IH; done.
Qed.

Lemma flush_loop_last_seen todo c : forall g rest out,
  last_seen g c <= last_seen (fst (fst (flush_loop g todo rest out))) c.
Proof.
  induction todo as [|m todo IH]; intros g rest out; simpl; [lia|].
  pose proof (decrypt_last_seen (set_pending todo g) m c) as Hd.
  destruct (decrypt (set_pending todo g) m) as [g1 txt]. simpl in Hd.
  change (last_seen (set_pending todo g) c) with (last_seen g c) in Hd.
  destruct txt; [|case_match]; (etrans; [exact Hd | apply IH]).
Qed.

Lemma flush_same_key g : same_key g (fst (flush g)).
Proof.
  unfold flush. destruct (groupKey g) eqn:Hk; [|apply same_key_refl].
  pose proof (flush_loop_same_key (pending g) g [] []) as Hl.
  destruct (flush_loop g (pending g) [] []) as [[g1 rest] out].
  simpl in *. unfold same_key in *. simpl. done.
Qed.

Lemma flush_sendSeq g : sendSeq (fst (flush g)) = sendSeq g.
Proof.
  unfold flush. destruct (groupKey g); [|done].
  pose proof (flush_loop_sendSeq (pending g) g [] []) as Hl.
  destruct (flush_loop g (pending g) [] []) as [[g1 rest] out].
  simpl in *. done.
Qed.

Lemma flush_last_seen g c : last_seen g c <= last_seen (fst (flush g)) c.
Proof.
  unfold flush. destruct (groupKey g); [|simpl; lia].
  pose proof (flush_loop_last_seen (pending g) c g [] []) as Hl.
  destruct (flush_loop g (pending g) [] []) as [[g1 rest] out].
  simpl in *. done.
Qed.

Lemma run_op_same_key g o : same_key g (run_op g o).
Proof.
  destruct o; simpl;
    [apply decrypt_same_key | apply encrypt_same_key | apply flush_same_key].
Qed.

Lemma run_op_last_seen g o c : last_seen g c <= last_seen (run_op g o) c.
Proof.
  destruct o; simpl.
  - apply decrypt_last_seen.
  - unfold last_seen. rewrite encrypt_recvSeq. lia.
  - apply flush_last_seen.
Qed.

Lemma run_ops_same_key os : forall g, same_key g (run_ops g os).
Proof.
  induction os as [|o os IH]; intros g; simpl; [apply same_key_refl|].
  eapply same_key_trans; [apply run_op_same_key | apply IH].
Qed.

Lemma run_ops_last_seen os c : forall g,
  last_seen g c <= last_seen (run_ops g os) c.
Proof.
  induction os as [|o os IH]; intros g; simpl; [lia|].
  etrans; [apply run_op_last_seen | apply IH].
Qed.

(** A frame that is not newer than the last one seen from its sender is
    dropped and nothing is written. *)
Lemma decrypt_replay g m :
  is_Some (groupKey g) -> toInt32 (m_s m) <= last_seen g (m_cid m) ->
  decrypt g m = (g, None).
Proof.
  intros [k Hk] Hle. unfold decrypt. rewrite Hk.
  destruct (negb _); [done|].
  fold (last_seen g (m_cid m)).
  destruct (Z.leb_spec (toInt32 (m_s m)) (last_seen g (m_cid m))); [done|lia].
Qed.

(** What an accepting call of [decrypt] has checked and written. *)
Lemma decrypt_accepts g m g1 txt :
  decrypt g m = (g1, Some txt) ->
  is_Some (groupKey g) /\
  toInt32 (m_e m) = toInt32 (epoch g) /\
  last_seen g (m_cid m) < toInt32 (m_s m) /\
  g1 = set_recvSeq (<[m_cid m := toInt32 (m_s m)]> (recvSeq g)) g.
Proof.
  unfold decrypt, last_seen.
  destruct (groupKey g) as [k|]; [|intros [=]].
  destruct (Z.eqb_spec (toInt32 (m_e m)) (toInt32 (epoch g))) as [He|He];
    simpl; [|intros [=]].
  destruct (Z.leb_spec (toInt32 (m_s m))
              (default (-1) (recvSeq g !! m_cid m))) as [Hs|Hs];
    [intros [=]|].
  destruct (open_msg k m) as [pt|]; [|intros [=]].
  intros [= <- Hts]. eauto.
Qed.

End Frame.

(** ** The toy primitives meet the contracts *)

Lemma toy_hash_length : hash_length (H := Toy.sodium).
Proof.
  intros n d k. simpl. unfold Toy.hash.
  rewrite length_map, length_seq. reflexivity.
Qed.

Lemma toy_aead_accepts : aead_accepts (H := Toy.sodium).
Proof.
  intros m ad n k Hn Hk. simpl. unfold Toy.seal.
  rewrite Hn, Hk. simpl. eauto.
Qed.

(** ** Message channel *)

(** C3 (replay rejection).  When [decrypt] accepts a frame, its epoch is
    the current one and its sequence number is above the last one recorded
    for its sender, and the number is recorded; after that, and after any
    further calls of [decrypt], [encrypt] and [flush], a frame of the same
    sender whose sequence number is not above the accepted one is dropped:
    [decrypt] returns [null] and the state is unchanged. *)
Theorem C3_replay_rejection `{Sodium}
        (g g1 : Group) (m : MsgFrame) (txt : string) :
  decrypt g m = (g1, Some txt) ->
  (toInt32 (m_e m) = toInt32 (epoch g) /\
   last_seen g (m_cid m) < toInt32 (m_s m) /\
   recvSeq g1 !! m_cid m = Some (toInt32 (m_s m))) /\
  forall (later : list op) (m' : MsgFrame),
    m_cid m' = m_cid m ->
    toInt32 (m_s m') <= toInt32 (m_s m) ->
    decrypt (run_ops g1 later) m' = (run_ops g1 later, None).
Proof.
  intros Hacc.
  destruct (decrypt_accepts _ _ _ _ Hacc) as (Hkey & He & Hs & Hg1).
  assert (recvSeq g1 !! m_cid m = Some (toInt32 (m_s m))) as Hrec.
  { subst g1. simpl. apply lookup_insert_eq. }
  split; [done|].
  intros later m' Hcid Hle.
  apply decrypt_replay.
  - destruct (run_ops_same_key later g1) as (_ & _ & Hk & _).
    rewrite Hk. subst g1. exact Hkey.
  - rewrite Hcid.
    pose proof (run_ops_last_seen later (m_cid m) g1) as Hmono.
    unfold last_seen at 1 in Hmono. rewrite Hrec in Hmono. simpl in Hmono.
    lia.
Qed.

Lemma C3_replay_rejection_witness :
  decrypt (H := Toy.sodium)
          (run_ops (H := Toy.sodium)
                   (fst (decrypt (H := Toy.sodium) Toy.host5 Toy.msg_hi))
                   [OpEncrypt "yo"; OpFlush])
          Toy.msg_hi
  = (run_ops (H := Toy.sodium)
             (fst (decrypt (H := Toy.sodium) Toy.host5 Toy.msg_hi))
             [OpEncrypt "yo"; OpFlush], None).
Proof.
  refine (proj2 (C3_replay_rejection (H := Toy.sodium)
                   Toy.host5 _ Toy.msg_hi "hi" _)
                [OpEncrypt "yo"; OpFlush] Toy.msg_hi _ _).
  - vm_compute. reflexivity.
  - reflexivity.
  - vm_compute. discriminate.
Defined.

(** C8 (encrypt).  Without a group key [encrypt] returns [null] and leaves
    the state alone.  With a (32-byte) group key it returns the frame
    [{t:"m", cid, s, e, n, c}] with [s] the [sendSeq] and [e] the [epoch]
    before the call, [n] the base64 of the nonce derived from [(cid, s, e)]
    and [c] the base64 of the AEAD ciphertext of the text under that nonce
    and the AAD of [(cid, s, e)]; afterwards [sendSeq] is one more. *)
Theorem C8_encrypt `{Sodium} (g : Group) (txt : string) :
  hash_length -> aead_accepts ->
  (forall k, groupKey g = Some k -> length k = 32%nat) ->
  match groupKey g with
  | None => encrypt g txt = (g, Returned None)
  | Some k =>
      let s := sendSeq g in
      let e := epoch g in
      let nonce := _nonce (cid g) s e in
      exists cipher,
        aead_encrypt (from_string txt) (_aad "m" (cid g) s e) nonce k
        = Some cipher /\
        encrypt g txt
        = (set_sendSeq (s + 1) g,
           Returned (Some (mkMsg (cid g) s e (VStr (b64 nonce))
                                 (VStr (b64 cipher))))) /\
        sendSeq (fst (encrypt g txt)) = sendSeq g + 1
  end.
Proof.
  intros Hhash Haead Hlen. unfold encrypt, _senderKey.
  destruct (groupKey g) as [k|] eqn:Hk; [|reflexivity].
  simpl.
  destruct (Haead (from_string txt) (_aad "m" (cid g) (sendSeq g) (epoch g))
                  (_nonce (cid g) (sendSeq g) (epoch g)) k) as [cipher Hc].
  - unfold _nonce. apply Hhash.
  - apply Hlen. reflexivity.
  - exists cipher. rewrite Hc. simpl. done.
Qed.

Lemma C8_encrypt_witness :
  exists cipher,
    encrypt (H := Toy.sodium) Toy.guest5 "hi"
    = (set_sendSeq 1 Toy.guest5,
       Returned (Some (mkMsg "guest" 0 5
                         (VStr (b64 (_nonce (H := Toy.sodium) "guest" 0 5)))
                         (VStr (b64 cipher))))).
Proof.
  destruct (C8_encrypt (H := Toy.sodium) Toy.guest5 "hi"
              toy_hash_length toy_aead_accepts)
    as (cipher & _ & Henc & _).
  - intros k [= <-]. reflexivity.
  - exists cipher. exact Henc.
Defined.

(** ** Group-key installation *)

Section Install.

Context `{Sodium}.

(** Every [recvSeq] entry after [decrypt] was there before or comes from
    the frame. *)
Lemma decrypt_recvSeq_origin g m c v :
  recvSeq (fst (decrypt g m)) !! c = Some v ->
  recvSeq g !! c = Some v \/ (m_cid m = c /\ toInt32 (m_s m) = v).
Proof.
  unfold decrypt. repeat case_match; simpl; auto.
  destruct (decide (m_cid m = c)) as [Heq|Hne].
  - rewrite Heq, lookup_insert_eq. intros [= <-]. auto.
  - rewrite lookup_insert_ne by done. auto.
Qed.

Lemma flush_loop_recvSeq_origin todo : forall g rest out c v,
  recvSeq (fst (fst (flush_loop g todo rest out))) !! c = Some v ->
  recvSeq g !! c = Some v \/
  exists m, In m todo /\ m_cid m = c /\ toInt32 (m_s m) = v.
Proof.
  induction todo as [|m todo IH]; intros g rest out c v; simpl; [auto|].
  pose proof (decrypt_recvSeq_origin (set_pending todo g) m c v) as Hd.
  destruct (decrypt (set_pending todo g) m) as [g1 txt]. simpl in Hd.
  intros Hres.
  assert (recvSeq g1 !! c = Some v \/
          exists m', In m' todo /\ m_cid m' = c /\ toInt32 (m_s m') = v)
    as [Hg1 | (m' & Hin & Hm')].
  { destruct txt; [|case_match]; eapply IH; exact Hres. }
  - destruct (Hd Hg1) as [Hold | Hnew]; [auto|].
    right. exists m. auto.
  - right. exists m'. auto.
Qed.

(** After [flush] on a freshly installed key, [recvSeq] holds nothing but
    what the buffered frames put there. *)
Lemma flush_install_recvSeq k e g c v :
  recvSeq (fst (flush (install k e g))) !! c = Some v ->
  exists m, In m (pending g) /\ m_cid m = c /\ toInt32 (m_s m) = v.
Proof.
  unfold flush. simpl.
  pose proof (flush_loop_recvSeq_origin (pending g) (install k e g) [] [] c v)
    as Hl.
  destruct (flush_loop (install k e g) (pending g) [] []) as [[g1 rest] out].
  simpl in *. intros Hres.
  destruct (Hl Hres) as [Hempty | Hm]; [|exact Hm].
  rewrite lookup_empty in Hempty. discriminate.
Qed.

Lemma flush_install_fields k e g :
  let g' := fst (flush (install k e g)) in
  groupKey g' = Some k /\ epoch g' = e /\ sendSeq g' = 0 /\
  cid g' = cid g /\ peers g' = peers g.
Proof.
  destruct (flush_same_key (install k e g)) as (Hc & Hp & Hk & He).
  pose proof (flush_sendSeq (install k e g)) as Hs.
  simpl in *. done.
Qed.

(** [MlsGroup.loadGK] either changes nothing and fires nothing, or it
    installs a key for an epoch above the current one. *)
Lemma loadGK_cases (g : MlsGroup) msg mySk :
  loadGK g msg mySk = (g, []) \/
  exists gk,
    toInt32 (epoch (base g)) < toInt32 (gk_e msg) /\
    loadGK g msg mySk
    = (mkMls (fst (flush (install gk (toInt32 (gk_e msg)) (base g))))
             (isInitiator g), [EvReady]).
Proof.
  unfold loadGK.
  destruct (addressed_elsewhere _ _); [auto|].
  destruct (Z.leb_spec (toInt32 (gk_e msg)) (toInt32 (epoch (base g))));
    [auto|].
  destruct (fst (loadGK_attempts msg (toInt32 (gk_e msg)) mySk)) as [gk|];
    [|auto].
  right. exists gk. auto.
Qed.

Lemma loadGK_stale (g : MlsGroup) msg mySk :
  toInt32 (gk_e msg) <= toInt32 (epoch (base g)) ->
  loadGK g msg mySk = (g, []).
Proof.
  intros Hle. unfold loadGK.
  destruct (addressed_elsewhere _ _); [done|].
  destruct (Z.leb_spec (toInt32 (gk_e msg)) (toInt32 (epoch (base g))));
    [done|lia].
Qed.

Lemma installed_epochs_sorted frames : forall g : MlsGroup,
  StronglySorted Z.lt (installed_epochs g frames) /\
  Forall (fun e => toInt32 (epoch (base g)) < e) (installed_epochs g frames).
Proof.
  induction frames as [|[msg sk] frames IH]; intros g; simpl.
  - split; constructor.
  - destruct (loadGK_cases g msg sk) as [Hsame | (gk & Hlt & Hinst)].
    + rewrite Hsame. apply IH.
    + rewrite Hinst.
      set (g' := mkMls _ _).
      destruct (flush_install_fields gk (toInt32 (gk_e msg)) (base g))
        as (_ & He & _).
      assert (epoch (base g') = toInt32 (gk_e msg)) as He' by exact He.
      destruct (IH g') as [Hsorted Hall].
      rewrite He', toInt32_idem in Hall. rewrite He'.
      split.
      * constructor; assumption.
      * constructor; [exact Hlt|].
        eapply Forall_impl; [exact Hall|]. simpl. intros; lia.
Qed.

(** The range of [| 0] is what the constructor and [loadGK] leave in
    [epoch]. *)
Lemma Group_new_epoch_int32 c : int32 (epoch (Group_new c)).
Proof. unfold int32. simpl. pow2. lia. Qed.

Lemma loadGK_epoch_int32 (g : MlsGroup) msg mySk :
  int32 (epoch (base g)) -> int32 (epoch (base (fst (loadGK g msg mySk)))).
Proof.
  intros Hrange.
  destruct (loadGK_cases g msg mySk) as [-> | (gk & _ & ->)]; [exact Hrange|].
  simpl.
  destruct (flush_install_fields gk (toInt32 (gk_e msg)) (base g))
    as (_ & -> & _).
  apply toInt32_range.
Qed.

End Install.

(** C1 (epoch monotonicity).  A [gk] frame whose epoch, read through
    [| 0], is not above the current epoch makes [MlsGroup.loadGK] return
    with the whole state unchanged and nothing fired (first with the current
    epoch read through [| 0] as the code reads it, then for a stored epoch
    in the 32-bit range, where the two readings agree); and over any run of
    [loadGK] calls the epochs that get installed are strictly increasing
    and all above the epoch the run started from. *)
Theorem C1_epoch_monotone `{Sodium} (g : MlsGroup) (msg : GkFrame)
        (mySk : bytes) (frames : list (GkFrame * bytes)) :
  (toInt32 (gk_e msg) <= toInt32 (epoch (base g)) ->
   loadGK g msg mySk = (g, [])) /\
  (int32 (epoch (base g)) -> toInt32 (gk_e msg) <= epoch (base g) ->
   loadGK g msg mySk = (g, [])) /\
  StronglySorted Z.lt (installed_epochs g frames) /\
  Forall (fun e => toInt32 (epoch (base g)) < e) (installed_epochs g frames).
Proof.
  split; [apply loadGK_stale|].
  split.
  - intros Hrange Hle. apply loadGK_stale.
    rewrite (toInt32_id _ Hrange). exact Hle.
  - apply installed_epochs_sorted.
Qed.

Lemma C1_epoch_monotone_witness :
  loadGK (H := Toy.sodium) (mkMls Toy.group5 false)
         (Toy.gk_frame 5 (VStr "rh") (VStr "rh")) Toy.key32
  = (mkMls Toy.group5 false, []).
Proof.
  refine (proj1 (proj2 (C1_epoch_monotone (H := Toy.sodium)
                          (mkMls Toy.group5 false)
                          (Toy.gk_frame 5 (VStr "rh") (VStr "rh"))
                          Toy.key32 [])) _ _).
  - vm_compute. split; [discriminate | reflexivity].
  - vm_compute. discriminate.
Defined.

(** C9 (base-class [loadGK]).  [Group.loadGK] compares no epochs: for a
    frame that is addressed to this member and whose [ek] opens under the
    given pair key it installs the opened key, sets [epoch] to the frame's
    [e] (read through [| 0]) and [sendSeq] to 0, and clears [recvSeq]
    before the buffered frames are flushed, so that no earlier entry
    survives, whatever the current epoch is. *)
Theorem C9_base_loadGK_no_epoch_check `{Sodium} (g : Group) (msg : GkFrame)
        (mySk c n gk : bytes) :
  addressed_elsewhere (gk_to msg) (cid g) = false ->
  u8 (gk_ek msg) = Some c ->
  u8 (gk_n msg) = Some n ->
  aead_decrypt c (_aad "gk" (gk_cid msg) 0 (toInt32 (gk_e msg))) n mySk
  = Some gk ->
  let g' := fst (Group_loadGK g msg mySk) in
  Group_loadGK g msg mySk
  = (fst (flush (install gk (toInt32 (gk_e msg)) g)), [EvReady]) /\
  groupKey g' = Some gk /\
  epoch g' = toInt32 (gk_e msg) /\
  (int32 (gk_e msg) -> epoch g' = gk_e msg) /\
  sendSeq g' = 0 /\
  (forall s v, recvSeq g' !! s = Some v ->
     exists m, In m (pending g) /\ m_cid m = s /\ toInt32 (m_s m) = v) /\
  (pending g = [] -> recvSeq g' = ∅).
Proof.
  intros Hto Hek Hn Hopen g'.
  assert (Group_loadGK g msg mySk
          = (fst (flush (install gk (toInt32 (gk_e msg)) g)), [EvReady]))
    as Heq.
  { unfold Group_loadGK. rewrite Hto, Hek, Hn, Hopen. reflexivity. }
  subst g'. rewrite Heq. simpl.
  destruct (flush_install_fields gk (toInt32 (gk_e msg)) g)
    as (Hk & He & Hs & _).
  repeat split; try assumption.
  - intros Hrange. rewrite He. apply toInt32_id, Hrange.
  - intros s v. apply flush_install_recvSeq.
  - intros Hnil. apply map_eq. intros s. rewrite lookup_empty.
    destruct (recvSeq _ !! s) as [v|] eqn:Hlk; [|reflexivity].
    apply flush_install_recvSeq in Hlk as (m & Hin & _).
    rewrite Hnil in Hin. destruct Hin.
Qed.

(** The epoch moves from 5 back to 2 through the base-class entry point. *)
Lemma C9_base_loadGK_no_epoch_check_witness :
  epoch Toy.group5 = 5 /\
  epoch (fst (Group_loadGK (H := Toy.sodium) Toy.group5
                (Toy.gk_frame_base 2) Toy.key32)) = 2.
Proof.
  split; [reflexivity|].
  refine (proj1 (proj2 (proj2 (proj2
            (C9_base_loadGK_no_epoch_check (H := Toy.sodium) Toy.group5
               (Toy.gk_frame_base 2) Toy.key32 _ _ _ _ _ _ _)))) _).
  - reflexivity.
  - vm_compute. reflexivity.
  - vm_compute. reflexivity.
  - vm_compute. reflexivity.
  - vm_compute. split; [discriminate | reflexivity].
Defined.

(** The AAD of a call of [tryDecrypt] is the encoding of [aadGK_base] on
    the frame's [rh] or on [undefined]. *)
Lemma tryDecrypt_aad `{Sodium} msg theirE mySk useRh :
  tryDecrypt msg theirE mySk useRh
  = match u8 (gk_ek msg) with
    | None => None
    | Some c =>
        match u8 (gk_n msg) with
        | None => None
        | Some n =>
            aead_decrypt c
              (_u8 (JSON_stringify
                      (aadGK_base (gk_cid msg) theirE
                         (if useRh then gk_rh msg else VUndefined))))
              n mySk
        end
    end.
Proof. unfold tryDecrypt, _aadGK. destruct useRh; reflexivity. Qed.





(** ** Rekey *)

Lemma tape_slice_length (r : rng) (from n : nat) :
  length (tape_slice r from n) = n.
Proof. unfold tape_slice. rewrite length_map, length_seq. reflexivity. Qed.

Section Rekey.

Context `{Sodium}.

(** The loop of [rekey] sends one frame per member, in the order of the
    map, each with its own stretch of the entropy tape as nonce. *)
Lemma rekey_loop_sends self gk e rh ps :
  aead_accepts ->
  Forall (fun p : string * bytes => length (snd p) = 32%nat) ps ->
  forall r,
  exists frames,
    rekey_loop self gk e rh ps r
    = (mkRng (tape r) (pos r + length ps * 24), map EvSend frames,
       Returned tt) /\
    length frames = length ps /\
    forall (i : nat) peerCid sk,
      ps !! i = Some (peerCid, sk) ->
      let nonce := tape_slice r (pos r + i * 24) 24 in
      exists ek,
        aead_encrypt gk (_aadGK self e (VStr rh)) nonce sk = Some ek /\
        frames !! i
        = Some (mkGk self (VStr peerCid) e (VStr rh)
                     (VStr (b64 nonce)) (VStr (b64 ek))).
Proof.
  intros Haead Hkeys.
  induction Hkeys as [|[peerCid sk] ps Hsk Hkeys IH]; intros r.
  - exists []. simpl. repeat split.
    + destruct r as [t p]. simpl. do 2 f_equal. f_equal. lia.
    + intros i ? ? Hi. rewrite lookup_nil in Hi. discriminate.
  - simpl in Hsk. simpl.
    destruct (Haead gk (_aadGK self e (VStr rh))
                    (tape_slice r (pos r) NPUBBYTES) sk) as [ek Hek].
    { apply tape_slice_length. } { exact Hsk. }
    rewrite Hek.
    destruct (IH (mkRng (tape r) (pos r + NPUBBYTES)))
      as (frames & Hloop & Hlen & Hframes).
    rewrite Hloop. simpl.
    exists (mkGk self (VStr peerCid) e (VStr rh)
                 (VStr (b64 (tape_slice r (pos r) NPUBBYTES)))
                 (VStr (b64 ek)) :: frames).
    repeat split.
    + simpl. do 2 f_equal. f_equal. unfold NPUBBYTES. lia.
    + simpl. rewrite Hlen. reflexivity.
    + intros [|i] c' sk' Hi; simpl in Hi.
      * injection Hi as <- <-. exists ek.
        replace (pos r + 0 * 24)%nat with (pos r) by lia.
        split; [exact Hek | reflexivity].
      * destruct (Hframes i c' sk' Hi) as (ek' & Henc & Hfr).
        exists ek'. simpl in Henc, Hfr.
        replace (pos r + S i * 24)%nat with (pos r + NPUBBYTES + i * 24)%nat
          by (unfold NPUBBYTES; lia).
        split; [exact Henc | exact Hfr].
Qed.

End Rekey.

(** C5 (rekey).  On an initiator whose members all have 32-byte pair keys,
    [rekey] sets [groupKey] to the next 32 bytes of the CSPRNG, [epoch] to
    [(epoch | 0) + 1] (the epoch plus one for a stored epoch in the 32-bit
    range), [sendSeq] to 0 and [recvSeq] to the empty map, fires [onReady]
    and then sends exactly one [gk] frame per entry of [peers], in order,
    with [cid] the initiator, [to] the member, [e] the new epoch, [rh] the
    roster hash, [n] a nonce drawn on its own from the CSPRNG and [ek] the
    group key sealed under the member's pair key with the AAD of
    [(cid, e, rh)]. *)
Theorem C5_rekey `{Sodium} (g : MlsGroup) (r : rng) :
  isInitiator g = true ->
  aead_accepts ->
  Forall (fun p : string * bytes => length (snd p) = 32%nat) (peers (base g)) ->
  let gk := tape_slice r (pos r) 32 in
  let e' := toInt32 (epoch (base g)) + 1 in
  let g1 := install gk e' (base g) in
  let rh := _rosterHash (base g) in
  exists frames,
    rekey g r
    = (mkMls g1 true,
       mkRng (tape r) (pos r + 32 + length (peers (base g)) * 24),
       EvReady :: map EvSend frames, Returned tt) /\
    length gk = 32%nat /\
    groupKey g1 = Some gk /\ sendSeq g1 = 0 /\ recvSeq g1 = ∅ /\
    epoch g1 = e' /\
    (int32 (epoch (base g)) -> epoch g1 = epoch (base g) + 1) /\
    length frames = length (peers (base g)) /\
    forall (i : nat) peerCid sk,
      peers (base g) !! i = Some (peerCid, sk) ->
      let nonce := tape_slice r (pos r + 32 + i * 24) 24 in
      exists ek,
        aead_encrypt gk (_aadGK (cid (base g)) e' (VStr rh)) nonce sk
        = Some ek /\
        frames !! i
        = Some (mkGk (cid (base g)) (VStr peerCid) e' (VStr rh)
                     (VStr (b64 nonce)) (VStr (b64 ek))).
Proof.
  intros Hinit Haead Hkeys gk e' g1 rh.
  destruct (rekey_loop_sends (cid (base g)) gk e' rh (peers (base g))
              Haead Hkeys (mkRng (tape r) (pos r + 32)))
    as (frames & Hloop & Hlen & Hframes).
  exists frames. unfold rekey. rewrite Hinit. simpl.
  fold gk. fold e'.
  change (_rosterHash (install gk e' (base g))) with rh.
  rewrite Hloop. simpl.
  repeat split; try reflexivity; try assumption.
  - intros Hrange. subst e'. rewrite (toInt32_id _ Hrange). reflexivity.
Qed.

Lemma C5_rekey_witness :
  let g := mkMls (mkGroup "host" [("ann"%string, Toy.key32);
                                  ("bob"%string, Toy.key32)]
                          None 4 [] 9 ∅) true in
  exists frames,
    rekey (H := Toy.sodium) g Toy.rng0
    = (mkMls (install (Toy.zeros 32) 5 (base g)) true, mkRng (fun _ => x00) 80,
       EvReady :: map EvSend frames, Returned tt) /\
    length frames = 2%nat.
Proof.
  intros g.
  destruct (C5_rekey (H := Toy.sodium) g Toy.rng0 eq_refl toy_aead_accepts)
    as (frames & Hrekey & _ & _ & _ & _ & _ & _ & Hlen & _).
  - repeat constructor.
  - exists frames. split; [exact Hrekey | exact Hlen].
Defined.

(** ** Handshake *)

Lemma createLocalKeys_generated `{Sodium} `{Kem} (r : rng) :
  generated (fst (createLocalKeys r)).
Proof.
  unfold createLocalKeys. simpl.
  destruct (crypto_kx_keypair _) as [xp xs] eqn:Hx.
  destruct (kem_generateKeyPair _) as [pp ps] eqn:Hp.
  destruct (crypto_sign_keypair _) as [ipub ipriv].
  simpl. split; eauto.
Qed.

(** The transcript does not depend on which side builds it. *)
Lemma buildTranscript_symmetric `{Sodium} `{Kem} (a b : PubKeys) room :
  buildTranscript a b "init" room = buildTranscript b a "resp" room.
Proof. reflexivity. Qed.

Lemma toy_ecdh_agrees : ecdh_agrees (H := Toy.sodium).
Proof.
  intros sa sb. simpl. unfold Toy.dh. split; [eauto|].
  f_equal. f_equal. lia.
Qed.

Lemma toy_kem_correct : kem_correct (H := Toy.kem).
Proof. intros seed coins. simpl. eauto. Qed.

Lemma createLocalKeys_generated_id `{Sodium} `{Kem} (r : rng) :
  generated_id (fst (createLocalKeys r)).
Proof.
  unfold createLocalKeys, generated_id. simpl.
  destruct (crypto_kx_keypair _) as [xp xs].
  destruct (kem_generateKeyPair _) as [pp ps].
  destruct (crypto_sign_keypair _) as [ipub ipriv] eqn:Hi.
  simpl. eauto.
Qed.

Lemma toy_sign_priv_length (seed : bytes) :
  length (Toy.sign_priv seed) = 64%nat.
Proof.
  unfold Toy.sign_priv, Toy.sign_pub, Toy.hash.
  rewrite length_app, !length_map, !length_seq. reflexivity.
Qed.

Lemma toy_sign_accepts : sign_accepts (H := Toy.sodium).
Proof.
  intros seed msg. simpl. unfold Toy.sign.
  rewrite toy_sign_priv_length. simpl. eauto.
Qed.

(** The initiator's call ends with the exception of [signDetached] when
    that throws, and [peer.ct] is written by then. *)
Lemma handshakeWith_sign_throws `{Sodium} `{Kem} (peer : Peer)
      (local : LocalKeys) (room : option string) (coins : bytes)
      (sharedX ct sharedK : bytes) :
  crypto_scalarmult (xPriv local) (p_xPub peer) = Some sharedX ->
  kem_encap (p_pqPub peer) coins = Some (ct, sharedK) ->
  signDetached
    (buildTranscript (local_pub local) (peer_pub peer) "init"
                     (default "nt"%string room))
    (idPriv local) = None ->
  handshakeWith peer local "init" room coins
  = (mkPeer (p_idPub peer) (p_xPub peer) (p_pqPub peer) (Some ct)
            (p_sig peer) (p_sigOK peer) (p_sas peer), Thrown).
Proof.
  intros HX Henc Hsign. unfold handshakeWith.
  rewrite HX. cbn [String.eqb Ascii.eqb Bool.eqb]. rewrite Henc.
  cbv zeta.
  change (peer_pub (mkPeer (p_idPub peer) (p_xPub peer) (p_pqPub peer)
                           (Some ct) (p_sig peer) (p_sigOK peer)
                           (p_sas peer)))
    with (peer_pub peer).
  rewrite Hsign. reflexivity.
Qed.

(** C2 (role symmetry).  For key records [A] and [B] as [createLocalKeys]
    makes them, the initiator's call on [B]'s public keys returns a pair
    key of 32 bytes, and the responder's call on [A]'s public keys
    together with the KEM ciphertext the initiator stashed (and any
    signature, or none) returns the same bytes, whatever the room. *)
Theorem C2_handshake_role_symmetry `{Sodium} `{Kem} (A B : LocalKeys)
        (room : option string) (coins coins' : bytes) (sig : option bytes) :
  hash_length -> ecdh_agrees -> kem_correct -> sign_accepts ->
  generated A -> generated B -> generated_id A ->
  exists peerB peerA skey,
    handshakeWith (peer_of B) A "init" room coins = (peerB, Returned skey) /\
    handshakeWith (with_ct (peer_of A) (p_ct peerB) sig) B "resp" room coins'
    = (peerA, Returned skey) /\
    length skey = 32%nat.
Proof.
  intros Hhash Hecdh Hkem Hsign [[sxa Hxa] _] [[sxb Hxb] [skb Hkb]] [sia Hia].
  destruct (Hecdh sxa sxb) as [[sharedX HX] Hagree].
  rewrite Hxa, Hxb in HX, Hagree. simpl in HX, Hagree.
  rewrite HX in Hagree. symmetry in Hagree.
  destruct (Hkem skb coins) as (ct & sharedK & Henc & Hdec).
  rewrite Hkb in Henc, Hdec. simpl in Henc, Hdec.
  destruct (Hsign sia
              (buildTranscript (local_pub A) (local_pub B) "init"
                               (default "nt"%string room))) as [sg Hsg].
  rewrite Hia in Hsg. cbn [snd] in Hsg.
  eexists _, _, _. split; [|split].
  - unfold handshakeWith. simpl. rewrite HX, Henc. simpl.
    unfold signDetached.
    match goal with
    | |- context [crypto_sign_detached ?t ?k] =>
        replace (crypto_sign_detached t k) with (Some sg)
          by (symmetry; exact Hsg)
    end.
    reflexivity.
  - unfold handshakeWith. simpl. rewrite Hagree, Hdec. simpl.
    reflexivity.
  - unfold deriveSharedKey, hkdfExpand. apply Hhash.
Qed.

Lemma C2_handshake_role_symmetry_witness :
  let A := fst (createLocalKeys (H := Toy.sodium) (H0 := Toy.kem) Toy.rng0) in
  let B := fst (createLocalKeys (H := Toy.sodium) (H0 := Toy.kem)
                  (mkRng (fun _ => x01) 0)) in
  exists peerB peerA skey,
    handshakeWith (H := Toy.sodium) (H0 := Toy.kem)
                  (peer_of B) A "init" (Some "r1"%string) (Toy.zeros 32)
    = (peerB, Returned skey) /\
    handshakeWith (H := Toy.sodium) (H0 := Toy.kem)
                  (with_ct (peer_of A) (p_ct peerB) (p_sig peerB)) B "resp"
                  (Some "r1"%string) []
    = (peerA, Returned skey) /\
    length skey = 32%nat.
Proof.
  intros A B.
  destruct (C2_handshake_role_symmetry (H := Toy.sodium) (H0 := Toy.kem)
              A B (Some "r1"%string) (Toy.zeros 32) []
              (p_sig (fst (handshakeWith (H := Toy.sodium) (H0 := Toy.kem)
                                         (peer_of B) A "init"
                                         (Some "r1"%string) (Toy.zeros 32))))
              toy_hash_length toy_ecdh_agrees toy_kem_correct
              toy_sign_accepts
              (createLocalKeys_generated (H := Toy.sodium) (H0 := Toy.kem) _)
              (createLocalKeys_generated (H := Toy.sodium) (H0 := Toy.kem) _)
              (createLocalKeys_generated_id (H := Toy.sodium)
                                            (H0 := Toy.kem) _))
    as (peerB & peerA & skey & Hinit & Hresp & Hlen).
  exists peerB, peerA, skey.
  split; [exact Hinit|]. split; [|exact Hlen].
  rewrite Hinit in Hresp. exact Hresp.
Defined.

(** On a record whose identity key is not one that [crypto_sign_keypair]
    makes, here the empty key, the initiator's call throws. *)
Lemma handshakeWith_bad_identity_key :
  snd (handshakeWith (H := Toy.sodium) (H0 := Toy.kem)
         (peer_of Sample.keysB)
         (mkLocal (xPub Sample.keysA) (xPriv Sample.keysA)
                  (pqPub Sample.keysA) (pqPriv Sample.keysA)
                  (idPub Sample.keysA) [])
         "init" (Some "r1"%string) (Toy.zeros 32))
  = Thrown.
Proof. vm_compute. reflexivity. Qed.

(** ** Capsule *)

(** C10 (totality of [parseCapsule]).  Whatever value it is given and
    whatever the decoder, the JSON parser, the signature check and the
    clock do, [parseCapsule] returns (an invitation or [null]); it never
    ends with an exception. *)
Theorem C10_parseCapsule_total `{Sodium} `{Platform} (str : value) (now : Z) :
  (exists r : option Invitation, parseCapsule str now = Returned r) /\
  parseCapsule str now <> Thrown /\
  (parseCapsule_body str now = Thrown -> parseCapsule str now = Returned None).
Proof.
  unfold parseCapsule.
  destruct (parseCapsule_body str now) as [r|]; repeat split; eauto;
    discriminate.
Qed.

(** The [catch] is not idle: the [try] block does throw, here on a string
    that is not base64. *)
Lemma parseCapsule_body_throws :
  parseCapsule_body (H := Toy.sodium) (H0 := Toy.platform []) (VStr "!") 0
  = Thrown.
Proof. reflexivity. Qed.

Lemma C10_parseCapsule_total_witness :
  parseCapsule (H := Toy.sodium) (H0 := Toy.platform []) (VStr "!") 0
  = Returned None.
Proof.
  apply (proj2 (proj2 (C10_parseCapsule_total (H := Toy.sodium)
                         (H0 := Toy.platform []) (VStr "!") 0))).
  reflexivity.
Defined.

(** C7 (capsule TTL).  For a capsule that decodes, parses to an object
    with an object [payload] and a number [exp], whose [id], [sig], [x] and
    [k] are base64 and whose signature verifies, [parseCapsule] returns an
    invitation if and only if [now <= exp] and, when [iat] is a number,
    [iat <= now] and [exp - iat <= 2 * TTL]; otherwise it returns [null].
    [TTL] is 120 s, in milliseconds like the clock. *)
Theorem C7_capsule_ttl `{Sodium} `{Platform} (s : string) (now : Z)
        (bs : bytes) (fields pfields : list (string * value)) (exp_n : Z)
        (idb sigb xb kb : bytes) :
  let obj := VObj fields in
  let payload := VObj pfields in
  u8 (VStr (trim s)) = Some bs ->
  Z.of_nat (length bs) <= MAX_CAPSULE_BYTES ->
  JSON_parse (TextDecoder_decode bs) = Some obj ->
  get "payload" obj = payload ->
  get "exp" payload = VNum exp_n ->
  u8 (get "id" obj) = Some idb ->
  u8 (get "sig" obj) = Some sigb ->
  u8 (get "x" payload) = Some xb ->
  u8 (get "k" payload) = Some kb ->
  verifyDetached sigb (buildCapsuleTranscript payload) idb = Some true ->
  let time_ok :=
    now <= exp_n /\
    forall iat_n, get "iat" payload = VNum iat_n ->
                  iat_n <= now /\ exp_n - iat_n <= 2 * CAPSULE_TTL_MS in
  ((exists inv, parseCapsule (VStr s) now = Returned (Some inv))
   <-> time_ok) /\
  (~ time_ok -> parseCapsule (VStr s) now = Returned None) /\
  CAPSULE_TTL_MS = 120 * 1000.
Proof.
  intros obj payload Hbs Hsize Hparse Hpayload Hexp Hid Hsig Hx Hk Hverify
         time_ok.
  assert (parseCapsule (VStr s) now
          = if exp_n <? now then Returned None
            else if match get "iat" payload with
                    | VNum iat_n =>
                        (now <? iat_n) || (CAPSULE_TTL_MS * 2 <? exp_n - iat_n)
                    | _ => false
                    end
                 then Returned None
                 else Returned (Some (mkInvitation
                        (get "room" payload) (get "cid" payload) xb kb idb
                        (or_else (get "v" payload) (VStr "legacy"))
                        (or_else (get "alg" payload) (VStr "legacy")))))
    as Hrun.
  { unfold parseCapsule, parseCapsule_body.
    rewrite Hbs. cbn [call mbind completion_bind].
    destruct (Z.ltb_spec MAX_CAPSULE_BYTES (Z.of_nat (length bs))); [lia|].
    rewrite Hparse. cbn [call mbind completion_bind].
    change (truthy obj) with true. change (typeof_object obj) with true.
    cbn [negb orb]. rewrite Hpayload.
    change (truthy payload) with true.
    change (typeof_object payload) with true.
    cbn [negb orb]. rewrite Hexp.
    destruct (exp_n <? now); [reflexivity|].
    destruct (match get "iat" payload with VNum _ => _ | _ => false end);
      [reflexivity|].
    rewrite Hid, Hsig. cbn [call mbind completion_bind].
    rewrite Hverify.
    cbn [call mbind completion_bind negb].
    rewrite Hx, Hk. reflexivity. }
  assert (time_ok <->
          (exp_n <? now) = false /\
          match get "iat" payload with
          | VNum iat_n =>
              (now <? iat_n) || (CAPSULE_TTL_MS * 2 <? exp_n - iat_n)
          | _ => false
          end = false) as Htime.
  { subst time_ok. rewrite Z.ltb_ge.
    destruct (get "iat" payload) as [| |b|iat_n|t|xs|fs];
      try (split; [intros [Hle _]; split; [exact Hle | reflexivity]
                  | intros [Hle _]; split; [exact Hle | intros ? [=]]]).
    rewrite orb_false_iff, !Z.ltb_ge. split.
    - intros [Hle Hiat]. destruct (Hiat iat_n eq_refl). lia.
    - intros [Hle [Hi He]]. split; [exact Hle|].
      intros ? [= <-]. lia. }
  split; [|split; [|reflexivity]].
  - rewrite Htime, Hrun. split.
    + intros [inv Hinv].
      destruct (exp_n <? now); [discriminate|].
      destruct (match get "iat" payload with VNum _ => _ | _ => false end);
        [discriminate|]. split; reflexivity.
    + intros [-> ->]. eauto.
  - rewrite Htime, Hrun. intros Hnot.
    destruct (exp_n <? now); [reflexivity|].
    destruct (match get "iat" payload with VNum _ => _ | _ => false end);
      [reflexivity|]. exfalso. apply Hnot. split; reflexivity.
Qed.

Lemma C7_capsule_ttl_witness :
  exists inv,
    parseCapsule (H := Toy.sodium) (H0 := Toy.platform [Toy.capsule_doc])
                 (VStr Toy.capsule_str) (Toy.capsule_now + 1000)
    = Returned (Some inv).
Proof.
  refine (proj2 (proj1 (C7_capsule_ttl (H := Toy.sodium)
                          (H0 := Toy.platform [Toy.capsule_doc])
                          Toy.capsule_str (Toy.capsule_now + 1000)
                          _ _ _ _ _ _ _ _ _ _ _ _ _ _ _ _ _ _)) _).
  - vm_compute. reflexivity.
  - vm_compute. discriminate.
  - vm_compute. reflexivity.
  - vm_compute. reflexivity.
  - vm_compute. reflexivity.
  - vm_compute. reflexivity.
  - vm_compute. reflexivity.
  - vm_compute. reflexivity.
  - vm_compute. reflexivity.
  - vm_compute. reflexivity.
  - split.
    + vm_compute. discriminate.
    + intros iat_n Hiat. vm_compute in Hiat. injection Hiat as <-.
      vm_compute. split; discriminate.
Defined.

Lemma String_length_append (s t : string) :
  String.length (String.append s t) = (String.length s + String.length t)%nat.
Proof. induction s as [|c s IH]; simpl; [reflexivity | rewrite IH; reflexivity]. Qed.

(** Base64 with padding: four characters for every three bytes begun. *)
Lemma b64_length (u : bytes) :
  String.length (b64 u) = (4 * ((length u + 2) / 3))%nat.
Proof.
  remember (length u) as n eqn:Hn. revert u Hn.
  induction n as [n IH] using lt_wf_ind. intros u ->.
  destruct u as [|a [|b [|c r]]]; try reflexivity.
  cbn [b64]. rewrite String_length_append.
  rewrite (IH (length r)) by (simpl; lia || reflexivity).
  cbn [length b64_quad String.length].
  replace (S (S (S (length r))) + 2)%nat with (1 * 3 + (length r + 2))%nat
    by lia.
  rewrite Nat.div_add_l by discriminate. lia.
Qed.

Lemma Math_random_floor_range (u n : Z) :
  0 < n -> 0 <= Math_random_floor u n < n.
Proof.
  intros Hn. unfold Math_random_floor.
  assert (0 < 2 ^ 53) as Hpow by reflexivity.
  pose proof (Z.mod_pos_bound u (2 ^ 53) Hpow) as Hu.
  split.
  - apply Z.div_pos; [nia | exact Hpow].
  - apply Z.div_lt_upper_bound; [exact Hpow | nia].
Qed.

Lemma capsule_target_range (u : Z) : 512 <= capsule_target u <= 1024.
Proof.
  unfold capsule_target, PAD_MIN, PAD_MAX.
  pose proof (Math_random_floor_range u (1024 - 512 + 1) eq_refl). lia.
Qed.

Lemma string_of_list_ascii_length (l : list ascii) :
  String.length (string_of_list_ascii l) = length l.
Proof. induction l as [|c l IH]; simpl; [reflexivity | rewrite IH; reflexivity]. Qed.

Lemma randomPad_length (len : nat) (r : rng) :
  String.length (fst (randomPad len r)) = len.
Proof.
  unfold randomPad. simpl.
  rewrite string_of_list_ascii_length, length_map. apply tape_slice_length.
Qed.

(** The padding is made of the characters ["!"] to ["~"]. *)
Lemma randomPad_chars (len : nat) (r : rng) (ch : ascii) :
  In ch (list_ascii_of_string (fst (randomPad len r))) ->
  (33 <= N_of_ascii ch <= 126)%N.
Proof.
  unfold randomPad. simpl.
  rewrite list_ascii_of_string_of_list_ascii.
  intros Hin. apply in_map_iff in Hin as (v & <- & _).
  pose proof (N.mod_upper_bound (Byte.to_N v) 94 ltac:(discriminate)) as Hm.
  set (k := (Byte.to_N v mod 94)%N) in *. clearbody k.
  rewrite N_ascii_embedding by lia. lia.
Qed.

(** The padding block of [createCapsule]: the target is between 512 and
    1024; when the JSON text of the capsule is shorter than the target a
    [pad] member of exactly the missing number of characters is added,
    each between ["!"] and ["~"], and otherwise nothing is added. *)
Lemma capsule_padding_cases (now u : Z) (r : rng) (room : string)
      (x_pub pq_pub : bytes) (c : string) (sig id_pub : bytes) :
  let unpadded := capsule_unpadded now room c x_pub pq_pub sig id_pub in
  let padded := capsule_padded now u r room c x_pub pq_pub sig id_pub in
  let j := Z.of_nat (js_length (JSON_stringify (VObj unpadded))) in
  let target := capsule_target u in
  512 <= target <= 1024 /\
  (j < target ->
   exists pad,
     padded = unpadded ++ [("pad"%string, VStr pad)] /\
     Z.of_nat (String.length pad) = target - j /\
     forall ch, In ch (list_ascii_of_string pad) ->
                (33 <= N_of_ascii ch <= 126)%N) /\
  (target <= j -> padded = unpadded).
Proof.
  intros unpadded padded j target.
  split; [apply capsule_target_range|].
  split.
  - intros Hlt. subst padded. unfold capsule_padded.
    fold unpadded. fold target. fold j.
    destruct (Z.ltb_spec 0 (target - j)); [|lia].
    eexists. split; [reflexivity|]. split.
    + rewrite randomPad_length. lia.
    + apply randomPad_chars.
  - intros Hge. subst padded. unfold capsule_padded.
    fold unpadded. fold target. fold j.
    destruct (Z.ltb_spec 0 (target - j)); [lia|reflexivity].
Qed.

(* ===================================================================== *)
(** * Further properties *)
(* ===================================================================== *)

(** ** Base64 *)

Lemma append_cons c s r :
  String.append (String c s) r = String c (String.append s r).
Proof. reflexivity. Qed.

Lemma append_nil r : String.append EmptyString r = r.
Proof. reflexivity. Qed.

Lemma b64_char_value (n : N) :
  (n < 64)%N -> b64_value (b64_char n) = Some n /\ is_pad (b64_char n) = false.
Proof.
  intros Hn.
  assert (exists k, n = N.of_nat k /\ (k < 64)%nat) as (k & -> & Hk).
  { exists (N.to_nat n). split; lia. }
  clear Hn.
  do 64 (destruct k as [|k]; [vm_compute; split; reflexivity|]).
  lia.
Qed.

Lemma byte_of_to_N (a : byte) : byte_of (Byte.to_N a) = a.
Proof.
  unfold byte_of. pose proof (Byte.to_N_bounded a).
  rewrite N.mod_small by lia. rewrite Byte.of_to_N. reflexivity.
Qed.

Ltac ndiv := zify; Z.to_euclidean_division_equations; lia.

Lemma from_base64_quad (a b c : byte) (r : string) :
  from_base64
    (String.append (b64_quad (Byte.to_N a) (Byte.to_N b) (Byte.to_N c) 0) r)
  = match from_base64 r with
    | Some t => Some (a :: b :: c :: t)
    | None => None
    end.
Proof.
  pose proof (Byte.to_N_bounded a) as Ha.
  pose proof (Byte.to_N_bounded b) as Hb.
  pose proof (Byte.to_N_bounded c) as Hc.
  set (x := Byte.to_N a) in *. set (y := Byte.to_N b) in *.
  set (z := Byte.to_N c) in *.
  unfold b64_quad. cbv zeta. cbn [Nat.leb].
  set (n := (x * 65536 + y * 256 + z)%N).
  destruct (b64_char_value (n / 262144)) as [H0 _]; [subst n; ndiv|].
  destruct (b64_char_value ((n / 4096) mod 64)) as [H1 _]; [subst n; ndiv|].
  destruct (b64_char_value ((n / 64) mod 64)) as [H2 P2]; [subst n; ndiv|].
  destruct (b64_char_value (n mod 64)) as [H3 P3]; [subst n; ndiv|].
  rewrite !append_cons, append_nil.
  cbn [from_base64]. rewrite H0, H1, P2, H2, P3, H3.
  destruct (from_base64 r) as [t|]; [|reflexivity].
  replace (n / 262144 * 4 + (n / 4096) mod 64 / 16)%N with x by (subst n; ndiv).
  replace (((n / 4096) mod 64) mod 16 * 16 + (n / 64) mod 64 / 4)%N with y
    by (subst n; ndiv).
  replace (((n / 64) mod 64) mod 4 * 64 + n mod 64)%N with z by (subst n; ndiv).
  subst x y z. rewrite !byte_of_to_N. reflexivity.
Qed.

(** [u8] inverts [b64]. *)
Lemma from_base64_b64 (u : bytes) : from_base64 (b64 u) = Some u.
Proof.
  remember (length u) as k eqn:Hk. revert u Hk.
  induction k as [k IH] using lt_wf_ind. intros u ->.
  destruct u as [|a [|b [|c r]]].
  - reflexivity.
  - pose proof (Byte.to_N_bounded a) as Ha.
    cbn [b64]. unfold b64_quad. cbv zeta. cbn [Nat.leb].
    set (x := Byte.to_N a) in *.
    set (n := (x * 65536 + 0 * 256 + 0)%N).
    destruct (b64_char_value (n / 262144)) as [H0 _]; [subst n; ndiv|].
    destruct (b64_char_value ((n / 4096) mod 64)) as [H1 _]; [subst n; ndiv|].
    cbn [from_base64]. rewrite H0, H1.
    change (is_pad "=") with true. cbn [andb String.eqb].
    replace ((n / 4096) mod 64 mod 16 =? 0)%N with true
      by (symmetry; apply N.eqb_eq; subst n; ndiv).
    replace (n / 262144 * 4 + (n / 4096) mod 64 / 16)%N with x
      by (subst n; ndiv).
    subst x. rewrite byte_of_to_N. reflexivity.
  - pose proof (Byte.to_N_bounded a) as Ha.
    pose proof (Byte.to_N_bounded b) as Hb.
    cbn [b64]. unfold b64_quad. cbv zeta. cbn [Nat.leb].
    set (x := Byte.to_N a) in *. set (y := Byte.to_N b) in *.
    set (n := (x * 65536 + y * 256 + 0)%N).
    destruct (b64_char_value (n / 262144)) as [H0 _]; [subst n; ndiv|].
    destruct (b64_char_value ((n / 4096) mod 64)) as [H1 _]; [subst n; ndiv|].
    destruct (b64_char_value ((n / 64) mod 64)) as [H2 P2]; [subst n; ndiv|].
    cbn [from_base64]. rewrite H0, H1, P2, H2.
    change (is_pad "=") with true. cbn [andb String.eqb].
    replace ((n / 64) mod 64 mod 4 =? 0)%N with true
      by (symmetry; apply N.eqb_eq; subst n; ndiv).
    replace (n / 262144 * 4 + (n / 4096) mod 64 / 16)%N with x
      by (subst n; ndiv).
    replace (((n / 4096) mod 64) mod 16 * 16 + (n / 64) mod 64 / 4)%N with y
      by (subst n; ndiv).
    subst x y. rewrite !byte_of_to_N. reflexivity.
  - cbn [b64]. rewrite from_base64_quad.
    rewrite (IH (length r)) by (simpl; lia || reflexivity). reflexivity.
Qed.

Lemma u8_b64 (u : bytes) : u8 (VStr (b64 u)) = Some u.
Proof. apply from_base64_b64. Qed.

Lemma toy_bytes_eqb_refl (a : bytes) : Toy.bytes_eqb a a = true.
Proof.
  induction a as [|x a IH]; [reflexivity|]. simpl.
  rewrite IH, andb_true_r. apply Byte.byte_dec_lb. reflexivity.
Qed.

Lemma toy_aead_correct : aead_correct (H := Toy.sodium).
Proof.
  intros m ad n k c.
  change (Toy.seal m ad n k = Some c -> Toy.unseal c ad n k = Some m).
  unfold Toy.seal, Toy.unseal.
  destruct ((length n =? 24)%nat && (length k =? 32)%nat); [|discriminate].
  intros Hc.
  assert (c = Toy.tag ad n k ++ m) as -> by congruence. clear Hc.
  cbn [andb].
  assert (length (Toy.tag ad n k) = 16%nat) as Hlen.
  { unfold Toy.tag, Toy.hash. rewrite length_map, length_seq. reflexivity. }
  pose proof (take_app_length (Toy.tag ad n k) m) as Ht. rewrite Hlen in Ht.
  pose proof (drop_app_length (Toy.tag ad n k) m) as Hd. rewrite Hlen in Hd.
  rewrite Ht, Hd, toy_bytes_eqb_refl. reflexivity.
Qed.

(** ** The message channel end to end *)

Section ChannelRuns.

Context `{Sodium}.

(** What one call of [encrypt] does: nothing but return, or one frame
    numbered with the old [sendSeq] and [sendSeq] one more. *)
Lemma encrypt_cases g txt :
  (fst (encrypt g txt) = g /\
   (snd (encrypt g txt) = Returned None \/ snd (encrypt g txt) = Thrown)) \/
  exists n c,
    encrypt g txt
    = (set_sendSeq (sendSeq g + 1) g,
       Returned (Some (mkMsg (cid g) (sendSeq g) (epoch g) n c))).
Proof.
  unfold encrypt, _senderKey.
  destruct (groupKey g) as [k|]; [|left; auto].
  destruct (aead_encrypt _ _ _ k) as [cipher|]; [|left; auto].
  right. eauto.
Qed.

(** With a 32-byte key and the contracts of the primitives [encrypt]
    returns the frame of the sealed text. *)
Lemma encrypt_frames g txt k :
  hash_length -> aead_accepts ->
  groupKey g = Some k -> length k = 32%nat ->
  exists cipher,
    aead_encrypt (from_string txt)
                 (_aad "m" (cid g) (sendSeq g) (epoch g))
                 (_nonce (cid g) (sendSeq g) (epoch g)) k = Some cipher /\
    encrypt g txt
    = (set_sendSeq (sendSeq g + 1) g,
       Returned (Some (mkMsg (cid g) (sendSeq g) (epoch g)
                         (VStr (b64 (_nonce (cid g) (sendSeq g) (epoch g))))
                         (VStr (b64 cipher))))).
Proof.
  intros Hhash Haead Hk Hlen. unfold encrypt, _senderKey. rewrite Hk.
  destruct (Haead (from_string txt) (_aad "m" (cid g) (sendSeq g) (epoch g))
                  (_nonce (cid g) (sendSeq g) (epoch g)) k) as [cipher Hc];
    [unfold _nonce; apply Hhash | exact Hlen |].
  exists cipher. rewrite Hc. split; reflexivity.
Qed.

(** A sealed frame is opened by whoever holds the key, while sequence
    number and epoch are in the range of [| 0]. *)
Lemma decrypt_sealed (receiver : Group) (c : string) (s e : Z)
      (txt : string) (k cipher : bytes) :
  aead_correct ->
  to_string (from_string txt) = Some txt ->
  aead_encrypt (from_string txt) (_aad "m" c s e) (_nonce c s e) k
  = Some cipher ->
  groupKey receiver = Some k ->
  epoch receiver = e -> int32 e -> int32 s ->
  last_seen receiver c < s ->
  decrypt receiver (mkMsg c s e (VStr (b64 (_nonce c s e))) (VStr (b64 cipher)))
  = (set_recvSeq (<[c := s]> (recvSeq receiver)) receiver, Some txt).
Proof.
  intros Hcorrect Hutf Hseal Hk He Hre Hrs Hlast.
  unfold decrypt, open_msg. rewrite Hk. cbn [m_e m_s m_cid m_n m_c].
  rewrite He, (toInt32_id _ Hre), (toInt32_id _ Hrs), Z.eqb_refl.
  cbn [negb]. fold (last_seen receiver c).
  destruct (Z.leb_spec s (last_seen receiver c)); [lia|].
  rewrite !u8_b64, (Hcorrect _ _ _ _ _ Hseal), Hutf. reflexivity.
Qed.

End ChannelRuns.

(** X1 (encrypt, then decrypt).  A frame that [encrypt] returned is
    accepted by [decrypt] on any group that holds the same key in the same
    epoch and has seen nothing from the sender at or above the frame's
    number, provided epoch and number are in the range of [| 0]: the text
    comes back and the number is recorded for the sender. *)
Theorem X1_encrypt_decrypt_round_trip `{Sodium} (sender sender' receiver : Group)
        (txt : string) (f : MsgFrame) :
  aead_correct ->
  to_string (from_string txt) = Some txt ->
  encrypt sender txt = (sender', Returned (Some f)) ->
  groupKey receiver = groupKey sender ->
  epoch receiver = epoch sender ->
  int32 (epoch sender) -> int32 (sendSeq sender) ->
  last_seen receiver (cid sender) < sendSeq sender ->
  decrypt receiver f
  = (set_recvSeq (<[cid sender := sendSeq sender]> (recvSeq receiver)) receiver,
     Some txt).
Proof.
  intros Hcorrect Hutf Henc Hkey He Hre Hrs Hlast.
  unfold encrypt, _senderKey in Henc.
  destruct (groupKey sender) as [k|] eqn:Hk; [|discriminate].
  destruct (aead_encrypt _ _ _ k) as [cipher|] eqn:Hseal; [|discriminate].
  injection Henc as _ <-.
  apply (decrypt_sealed receiver (cid sender) (sendSeq sender) (epoch sender)
           txt k cipher); assumption.
Qed.

Lemma X1_encrypt_decrypt_round_trip_witness :
  decrypt (H := Toy.sodium) Toy.host5 Toy.msg_hi
  = (set_recvSeq (<["guest"%string := 0]> (recvSeq Toy.host5)) Toy.host5,
     Some "hi"%string).
Proof.
  refine (X1_encrypt_decrypt_round_trip (H := Toy.sodium)
            Toy.guest5 _ Toy.host5 "hi" Toy.msg_hi
            toy_aead_correct _ _ _ _ _ _ _).
  - reflexivity.
  - vm_compute. reflexivity.
  - reflexivity.
  - reflexivity.
  - vm_compute. split; [discriminate | reflexivity].
  - vm_compute. split; [discriminate | reflexivity].
  - vm_compute. reflexivity.
Defined.

(** X2 (sequence numbers never repeat).  Over any run of [encrypt] calls,
    whatever the texts and whether or not some calls fail, the frames
    carry the sender's [cid], the one epoch and consecutive sequence
    numbers starting at the [sendSeq] before the run, and [sendSeq] ends
    that many higher; so no two frames of an epoch share [(cid, s, e)],
    the input of the nonce. *)
Theorem X2_encrypt_numbers_frames `{Sodium} (g : Group) (txts : list string) :
  let g' := fst (encrypt_all g txts) in
  let fs := snd (encrypt_all g txts) in
  sendSeq g' = sendSeq g + Z.of_nat (length fs) /\
  same_key g g' /\ recvSeq g' = recvSeq g /\
  (forall (i : nat) f,
     fs !! i = Some f ->
     m_cid f = cid g /\ m_e f = epoch g /\ m_s f = sendSeq g + Z.of_nat i) /\
  NoDup (map m_s fs).
Proof.
  revert g. induction txts as [|t txts IH]; intros g; cbn zeta.
  - simpl. split_and!; try done; try lia; try apply same_key_refl; constructor.
  - cbn [encrypt_all].
    destruct (encrypt_cases g t) as [[Hg Hr] | (n & c & Henc)].
    + destruct (encrypt g t) as [g1 r]. simpl in Hg, Hr. subst g1.
      destruct (IH g) as (Hs & Hk & Hrcv & Hfs & Hnd).
      destruct (encrypt_all g txts) as [g2 fs]. simpl in *.
      destruct Hr as [-> | ->]; split_and!; done.
    + rewrite Henc.
      destruct (IH (set_sendSeq (sendSeq g + 1) g))
        as (Hs & Hk & Hrcv & Hfs & Hnd).
      destruct (encrypt_all (set_sendSeq (sendSeq g + 1) g) txts) as [g2 fs].
      cbn [fst snd] in *. simpl in Hs. simpl in Hrcv.
      assert (forall x, In x (map m_s fs) -> sendSeq g + 1 <= x) as Hlow.
      { intros x Hx. apply in_map_iff in Hx as (f & <- & Hf).
        apply list_elem_of_In, list_elem_of_lookup in Hf as [i Hi].
        destruct (Hfs i f Hi) as (_ & _ & ->). simpl. lia. }
      split_and!.
      * simpl. lia.
      * exact Hk.
      * exact Hrcv.
      * intros [|i] f Hi; simpl in Hi.
        -- injection Hi as <-. simpl. split_and!; [done | done | lia].
        -- destruct (Hfs i f Hi) as (Hc & He & ->). simpl in *.
           split_and!; [done | done | lia].
      * simpl. constructor; [|exact Hnd].
        intros Hin. apply list_elem_of_In in Hin. apply Hlow in Hin. lia.
Qed.

Lemma X2_encrypt_numbers_frames_witness :
  map m_s (snd (encrypt_all (H := Toy.sodium) Toy.guest5
                  ["a"; "b"; "c"]%string)) = [0; 1; 2].
Proof.
  destruct (X2_encrypt_numbers_frames (H := Toy.sodium) Toy.guest5
              ["a"; "b"; "c"]%string) as (_ & _ & _ & Hfs & _).
  destruct (Hfs 0%nat _ eq_refl) as (_ & _ & H0).
  destruct (Hfs 1%nat _ eq_refl) as (_ & _ & H1).
  destruct (Hfs 2%nat _ eq_refl) as (_ & _ & H2).
  vm_compute. reflexivity.
Defined.

(** X3 (delivery in order).  When the texts of a run of [encrypt] calls
    reach, in the order sent, a group that holds the same 32-byte key in
    the same epoch and has seen nothing from the sender at or above its
    [sendSeq], every frame is accepted and the texts come back in order;
    this needs the numbers of the run to stay below [2^31], because
    [decrypt] reads them through [| 0]. *)
Theorem X3_delivery_in_order `{Sodium} (sender receiver : Group)
        (txts : list string) (k : bytes) :
  hash_length -> aead_accepts -> aead_correct ->
  Forall (fun t => to_string (from_string t) = Some t) txts ->
  groupKey sender = Some k -> length k = 32%nat ->
  groupKey receiver = Some k ->
  epoch receiver = epoch sender -> int32 (epoch sender) ->
  - 2 ^ 31 <= sendSeq sender ->
  sendSeq sender + Z.of_nat (length txts) <= 2 ^ 31 ->
  last_seen receiver (cid sender) < sendSeq sender ->
  snd (decrypt_all receiver (snd (encrypt_all sender txts)))
  = map Some txts.
Proof.
  intros Hhash Haead Hcorrect Hutf. revert sender receiver.
  induction Hutf as [|t txts Ht Hutf IH];
    intros sender receiver Hks Hlen Hkr He Hre Hlo Hhi Hlast; [reflexivity|].
  cbn [encrypt_all].
  destruct (encrypt_frames sender t k Hhash Haead Hks Hlen)
    as (cipher & Hseal & Henc).
  rewrite Henc.
  specialize (IH (set_sendSeq (sendSeq sender + 1) sender)).
  destruct (encrypt_all (set_sendSeq (sendSeq sender + 1) sender) txts)
    as [g2 fs] eqn:Hall.
  cbn [snd decrypt_all].
  assert (int32 (sendSeq sender)) as Hrs.
  { unfold int32. simpl length in Hhi. lia. }
  rewrite (decrypt_sealed receiver (cid sender) (sendSeq sender)
             (epoch sender) t k cipher Hcorrect Ht Hseal Hkr He Hre Hrs Hlast).
  specialize (IH (set_recvSeq (<[cid sender := sendSeq sender]>
                                 (recvSeq receiver)) receiver)).
  cbn [snd] in IH.
  assert (snd (decrypt_all
                 (set_recvSeq (<[cid sender := sendSeq sender]>
                                 (recvSeq receiver)) receiver) fs)
          = map Some txts) as Hrec.
  { apply IH; try assumption.
    - simpl. lia.
    - simpl length in Hhi. simpl. lia.
    - unfold last_seen. simpl. rewrite lookup_insert_eq. simpl. lia. }
  destruct (decrypt_all _ fs) as [r2 out].
  cbn [snd] in *. cbn [map]. f_equal. exact Hrec.
Qed.

Lemma X3_delivery_in_order_witness :
  snd (decrypt_all (H := Toy.sodium) Toy.host5
         (snd (encrypt_all (H := Toy.sodium) Toy.guest5
                 ["a"; "b"; "c"]%string)))
  = [Some "a"; Some "b"; Some "c"]%string.
Proof.
  refine (X3_delivery_in_order (H := Toy.sodium) Toy.guest5 Toy.host5
            ["a"; "b"; "c"]%string Toy.key32
            toy_hash_length toy_aead_accepts toy_aead_correct
            _ _ _ _ _ _ _ _ _).
  - repeat constructor.
  - reflexivity.
  - reflexivity.
  - reflexivity.
  - reflexivity.
  - vm_compute. split; [discriminate | reflexivity].
  - vm_compute. discriminate.
  - vm_compute. discriminate.
  - vm_compute. reflexivity.
Defined.

(** ** The buffer of early frames *)

Section Buffer.

Context `{Sodium}.

Lemma spent_dropped g m :
  is_Some (groupKey g) -> spent g m -> decrypt g m = (g, None).
Proof.
  intros [k Hk] Hspent. unfold decrypt. rewrite Hk.
  destruct (Z.eqb_spec (toInt32 (m_e m)) (toInt32 (epoch g))) as [He|He];
    [|reflexivity].
  cbn [negb]. fold (last_seen g (m_cid m)).
  destruct (Z.leb_spec (toInt32 (m_s m)) (last_seen g (m_cid m)));
    [reflexivity|].
  destruct Hspent as [Hne | [Hle | Hopen]]; [contradiction | lia |].
  rewrite (Hopen k Hk). reflexivity.
Qed.

(** A spent frame stays spent while key and epoch stay. *)
Lemma spent_stable g g' m :
  same_key g g' ->
  (forall c, last_seen g c <= last_seen g' c) ->
  spent g m -> spent g' m.
Proof.
  intros (_ & _ & Hk & He) Hmono [Hne | [Hle | Hopen]].
  - left. rewrite He. exact Hne.
  - right. left. specialize (Hmono (m_cid m)). lia.
  - right. right. intros key Hkey. apply Hopen. rewrite <- Hk. exact Hkey.
Qed.

(** Whatever [decrypt] answers on a frame, the frame is spent afterwards. *)
Lemma decrypt_spends g m :
  is_Some (groupKey g) -> spent (fst (decrypt g m)) m.
Proof.
  intros [k Hk]. unfold decrypt. rewrite Hk.
  destruct (Z.eqb_spec (toInt32 (m_e m)) (toInt32 (epoch g))) as [He|He];
    cbn [negb fst]; [|left; exact He].
  fold (last_seen g (m_cid m)).
  destruct (Z.leb_spec (toInt32 (m_s m)) (last_seen g (m_cid m)));
    cbn [fst]; [right; left; assumption|].
  destruct (open_msg k m) as [pt|] eqn:Hopen; cbn [fst].
  - right. left. unfold last_seen. simpl. rewrite lookup_insert_eq.
    simpl. lia.
  - right. right. intros key Hkey. congruence.
Qed.

Lemma flush_loop_spends todo : forall g rest out m,
  is_Some (groupKey g) -> (In m todo \/ spent g m) ->
  spent (fst (fst (flush_loop g todo rest out))) m.
Proof.
  induction todo as [|x todo IH]; intros g rest out m Hkey Hm; simpl.
  - destruct Hm as [[] | Hs]. exact Hs.
  - pose proof (decrypt_same_key (set_pending todo g) x) as Hsame.
    pose proof (decrypt_last_seen (set_pending todo g) x) as Hmono.
    pose proof (decrypt_spends (set_pending todo g) x Hkey) as Hx.
    destruct (decrypt (set_pending todo g) x) as [g1 txt].
    cbn [fst] in *.
    assert (is_Some (groupKey g1)) as Hkey1.
    { destruct Hsame as (_ & _ & -> & _). exact Hkey. }
    assert (In m todo \/ spent g1 m) as Hm1.
    { destruct Hm as [[<- | Hin] | Hs]; [right; exact Hx | left; exact Hin |].
      right. eapply (spent_stable (set_pending todo g)); eauto. }
    destruct txt; [|case_match]; apply IH; assumption.
Qed.

(** The frames [flush] keeps are the buffered frames of a later epoch. *)
Lemma flush_loop_rest todo : forall g rest out,
  is_Some (groupKey g) ->
  snd (fst (flush_loop g todo rest out))
  = rest ++ filter (fun m => toInt32 (epoch g) <? toInt32 (m_e m)) todo /\
  pending (fst (fst (flush_loop g todo rest out)))
  = match todo with [] => pending g | _ :: _ => [] end.
Proof.
  induction todo as [|x todo IH]; intros g rest out Hkey; simpl.
  - rewrite app_nil_r. split; reflexivity.
  - pose proof (decrypt_same_key (set_pending todo g) x) as Hsame.
    pose proof (decrypt_pending (set_pending todo g) x Hkey) as Hpend.
    destruct (decrypt (set_pending todo g) x) as [g1 txt] eqn:Hd.
    cbn [fst] in *.
    destruct Hsame as (_ & _ & Hk1 & He1). simpl in Hk1, He1, Hpend.
    assert (is_Some (groupKey g1)) as Hkey1 by (rewrite Hk1; exact Hkey).
    rewrite He1. rewrite filter_cons.
    assert (forall r o, pending (fst (fst (flush_loop g1 todo r o))) = [])
      as Hp.
    { intros r o. destruct (IH g1 r o Hkey1) as [_ Hq]. rewrite Hq.
      destruct todo; [exact Hpend | reflexivity]. }
    assert (forall r o,
              snd (fst (flush_loop g1 todo r o))
              = r ++ filter (fun m => toInt32 (epoch g) <? toInt32 (m_e m))
                            todo) as Hr.
    { intros r o. destruct (IH g1 r o Hkey1) as [Hq _]. rewrite Hq, He1.
      reflexivity. }
    destruct txt as [t|].
    + rewrite Hr. split; [|apply Hp].
      apply decrypt_accepts in Hd as (_ & He & _).
      simpl in He.
      case_decide as Hlt; [|reflexivity].
      apply Is_true_true, Z.ltb_lt in Hlt. lia.
    + destruct (toInt32 (epoch g) <? toInt32 (m_e x)) eqn:Hlt.
      * rewrite Hr, <- app_assoc. split; [|apply Hp].
        case_decide as Hd'; [reflexivity|].
        exfalso. apply Hd'. apply Is_true_true. reflexivity.
      * rewrite Hr. split; [|apply Hp].
        case_decide as Hd'; [|reflexivity].
        apply Is_true_true in Hd'. congruence.
Qed.

End Buffer.

(** What [flush] does with a key installed. *)
Lemma flush_with_key `{Sodium} (g : Group) :
  is_Some (groupKey g) ->
  let g' := fst (flush g) in
  pending g'
  = filter (fun m => toInt32 (epoch g) <? toInt32 (m_e m)) (pending g) /\
  forall m, In m (pending g) -> decrypt g' m = (g', None).
Proof.
  intros Hkey. unfold flush.
  destruct (flush_loop_rest (pending g) g [] [] Hkey) as [Hrest Hpend].
  pose proof (flush_loop_spends (pending g) g [] []) as Hspent.
  pose proof (flush_loop_same_key (pending g) g [] []) as Hsame.
  destruct Hkey as [k Hk]. rewrite Hk.
  assert (is_Some (groupKey g)) as Hkey by eauto.
  destruct (flush_loop g (pending g) [] []) as [[g1 rest] out].
  cbn [fst snd] in *. cbn zeta. split.
  - simpl. rewrite Hrest, Hpend. destruct (pending g); simpl;
      rewrite ?app_nil_r; reflexivity.
  - intros m Hin. apply spent_dropped.
    + simpl. destruct Hsame as (_ & _ & -> & _). exact Hkey.
    + specialize (Hspent m Hkey (or_introl Hin)).
      destruct Hspent as [Hne | [Hle | Hopen]];
        [left; exact Hne | right; left; exact Hle | right; right; exact Hopen].
Qed.

(** X4 (flush).  Without a group key [flush] does nothing.  With one, it
    leaves in [pending] exactly the buffered frames of a later epoch, in
    their order, touches neither key, epoch nor [sendSeq], and every frame
    that was buffered is turned down by [decrypt] afterwards. *)
Theorem X4_flush_keeps_later_epochs `{Sodium} (g : Group) :
  (groupKey g = None -> flush g = (g, [])) /\
  (is_Some (groupKey g) ->
   let g' := fst (flush g) in
   pending g'
   = filter (fun m => toInt32 (epoch g) <? toInt32 (m_e m)) (pending g) /\
   same_key g g' /\ sendSeq g' = sendSeq g /\
   forall m, In m (pending g) -> decrypt g' m = (g', None)).
Proof.
  split.
  - intros Hk. unfold flush. rewrite Hk. reflexivity.
  - intros Hkey g'. destruct (flush_with_key g Hkey) as [Hp Hd].
    split_and!; [exact Hp | apply flush_same_key | apply flush_sendSeq
                | exact Hd].
Qed.

(** What [flush] hands to its callback: the texts that [decrypt] returns
    on the buffered frames, in their order. *)
Lemma decrypt_set_pending `{Sodium} (p : list MsgFrame) (g : Group)
      (m : MsgFrame) :
  is_Some (groupKey g) ->
  decrypt (set_pending p g) m
  = (set_pending p (fst (decrypt g m)), snd (decrypt g m)).
Proof.
  intros [k Hk]. unfold decrypt. cbn [set_pending groupKey epoch recvSeq].
  rewrite Hk.
  destruct (negb _); [reflexivity|].
  destruct (_ <=? _); [reflexivity|].
  destruct (open_msg k m); reflexivity.
Qed.

Lemma decrypt_all_set_pending `{Sodium} (ms : list MsgFrame) :
  forall (p : list MsgFrame) (g : Group),
    is_Some (groupKey g) ->
    snd (decrypt_all (set_pending p g) ms) = snd (decrypt_all g ms).
Proof.
  induction ms as [|m ms IH]; intros p g Hkey; [reflexivity|].
  cbn [decrypt_all]. rewrite (decrypt_set_pending p g m Hkey).
  pose proof (decrypt_same_key g m) as (_ & _ & Hk & _).
  destruct (decrypt g m) as [g1 txt]. cbn [fst snd] in *.
  specialize (IH p g1 ltac:(rewrite Hk; exact Hkey)).
  destruct (decrypt_all (set_pending p g1) ms) as [ga ta].
  destruct (decrypt_all g1 ms) as [gb tb]. cbn [snd] in *.
  rewrite IH. reflexivity.
Qed.

Lemma flush_loop_out `{Sodium} (todo : list MsgFrame) :
  forall (g : Group) (rest : list MsgFrame) (out : list string),
    is_Some (groupKey g) ->
    snd (flush_loop g todo rest out)
    = out ++ omap id (snd (decrypt_all g todo)).
Proof.
  induction todo as [|m todo IH]; intros g rest out Hkey.
  - cbn. rewrite app_nil_r. reflexivity.
  - cbn [flush_loop decrypt_all].
    rewrite (decrypt_set_pending todo g m Hkey).
    pose proof (decrypt_same_key g m) as (_ & _ & Hk & _).
    destruct (decrypt g m) as [g1 txt]. cbn [fst snd] in *.
    assert (is_Some (groupKey (set_pending todo g1))) as Hkey1
      by (cbn; rewrite Hk; exact Hkey).
    pose proof (decrypt_all_set_pending todo todo g1
                  ltac:(rewrite Hk; exact Hkey)) as Hind.
    destruct (decrypt_all g1 todo) as [g2 txts] eqn:Hall.
    cbn [snd] in Hind.
    destruct txt as [t|].
    + rewrite IH by exact Hkey1. rewrite Hind, <- app_assoc. reflexivity.
    + destruct (_ <? _); rewrite IH by exact Hkey1; rewrite Hind;
        reflexivity.
Qed.

Lemma flush_out `{Sodium} (g : Group) :
  is_Some (groupKey g) ->
  snd (flush g) = omap id (snd (decrypt_all g (pending g))).
Proof.
  intros Hkey. unfold flush. destruct Hkey as [k Hk]. rewrite Hk.
  pose proof (flush_loop_out (pending g) g [] [] ltac:(eauto)) as Hout.
  destruct (flush_loop g (pending g) [] []) as [[g1 rest] out].
  exact Hout.
Qed.

(** [flush] on a buffer of later epochs only changes nothing and hands
    nothing to its callback. *)
Lemma flush_loop_later `{Sodium} (todo : list MsgFrame) :
  forall (g : Group) (rest : list MsgFrame) (out : list string),
    is_Some (groupKey g) ->
    Forall (fun m => toInt32 (epoch g) < toInt32 (m_e m)) todo ->
    flush_loop g todo rest out
    = (match todo with [] => g | _ :: _ => set_pending [] g end,
       rest ++ todo, out).
Proof.
  induction todo as [|m todo IH]; intros g rest out Hkey Hall.
  - cbn. rewrite app_nil_r. reflexivity.
  - apply Forall_cons in Hall as [Hm Hall].
    cbn [flush_loop].
    assert (decrypt (set_pending todo g) m = (set_pending todo g, None))
      as ->.
    { destruct Hkey as [k Hk]. unfold decrypt.
      cbn [set_pending groupKey epoch]. rewrite Hk.
      destruct (Z.eqb_spec (toInt32 (m_e m)) (toInt32 (epoch g)));
        [lia | reflexivity]. }
    cbn [set_pending epoch].
    destruct (Z.ltb_spec (toInt32 (epoch g)) (toInt32 (m_e m))); [|lia].
    rewrite IH by (cbn; assumption).
    rewrite <- app_assoc. destruct todo; reflexivity.
Qed.

Lemma flush_later `{Sodium} (g : Group) :
  Forall (fun m => toInt32 (epoch g) < toInt32 (m_e m)) (pending g) ->
  flush g = (g, []).
Proof.
  intros Hall. unfold flush.
  destruct (groupKey g) as [k|] eqn:Hk; [|reflexivity].
  rewrite (flush_loop_later (pending g) g [] [] ltac:(eauto) Hall).
  destruct g as [c ps key e pend ss rs]. cbn in *.
  destruct pend; cbn; rewrite ?app_nil_r; reflexivity.
Qed.

Lemma flush_twice `{Sodium} (g : Group) :
  flush (fst (flush g)) = (fst (flush g), []).
Proof.
  destruct (groupKey g) as [k|] eqn:Hk.
  - apply flush_later.
    destruct (flush_with_key g ltac:(eauto)) as [Hp _]. cbv zeta in Hp.
    rewrite Hp.
    pose proof (flush_same_key g) as (_ & _ & _ & He). rewrite He.
    apply Forall_forall. intros m Hin.
    apply list_elem_of_filter in Hin as [Hlt _].
    apply Is_true_true, Z.ltb_lt in Hlt. exact Hlt.
  - unfold flush. rewrite Hk. cbn [fst]. rewrite Hk. reflexivity.
Qed.

(** X5 ([loadGK] and the buffer).  [MlsGroup.loadGK] calls [onReady]
    between the install and its own [flush] with an empty callback.  With
    the [readyUI] of the program as [onReady], when a key is installed
    the texts that [decrypt] returns on the buffered frames go, in their
    order, to [addMsg]; nothing goes to the empty callback; the group
    ends as it does with no callback: the frames of a later epoch stay
    buffered and [decrypt] turns down every frame that was buffered.
    With a callback that leaves the group alone, the same texts go to the
    empty callback instead. *)
Theorem X5_loadGK_hands_buffer_to_readyUI `{Sodium} (g : MlsGroup)
        (msg : GkFrame) (mySk gk : bytes) :
  addressed_elsewhere (gk_to msg) (cid (base g)) = false ->
  toInt32 (epoch (base g)) < toInt32 (gk_e msg) ->
  fst (loadGK_attempts msg (toInt32 (gk_e msg)) mySk) = Some gk ->
  let g1 := install gk (toInt32 (gk_e msg)) (base g) in
  let texts := omap id (snd (decrypt_all g1 (pending (base g)))) in
  let g' := base (fst (loadGK g msg mySk)) in
  loadGK_with readyUI g msg mySk = (fst (loadGK g msg mySk), texts, []) /\
  loadGK_with (fun g0 => (g0, [])) g msg mySk
  = (fst (loadGK g msg mySk), [], texts) /\
  pending g'
  = filter (fun m => toInt32 (gk_e msg) <? toInt32 (m_e m)) (pending (base g))
  /\
  forall m, In m (pending (base g)) -> decrypt g' m = (g', None).
Proof.
  intros Hto Hlt Hopen g1 texts g'.
  assert (fst (loadGK g msg mySk) = mkMls (fst (flush g1)) (isInitiator g))
    as Hstate.
  { unfold loadGK. rewrite Hto.
    destruct (Z.leb_spec (toInt32 (gk_e msg)) (toInt32 (epoch (base g))));
      [lia|].
    rewrite Hopen. reflexivity. }
  assert (snd (flush g1) = texts) as Htexts.
  { subst texts. rewrite flush_out by (cbn; eauto). reflexivity. }
  split_and!.
  - unfold loadGK_with, readyUI. rewrite Hto.
    destruct (Z.leb_spec (toInt32 (gk_e msg)) (toInt32 (epoch (base g))));
      [lia|].
    rewrite Hopen. cbv zeta. fold g1.
    rewrite Hstate, <- Htexts.
    destruct (flush g1) as [g2 shown] eqn:Hflush.
    pose proof (flush_twice g1) as Htwice. rewrite Hflush in Htwice.
    cbn [fst] in Htwice. rewrite Htwice. reflexivity.
  - unfold loadGK_with. rewrite Hto.
    destruct (Z.leb_spec (toInt32 (gk_e msg)) (toInt32 (epoch (base g))));
      [lia|].
    rewrite Hopen. cbv zeta. fold g1.
    rewrite Hstate, <- Htexts.
    destruct (flush g1) as [g2 shown]. reflexivity.
  - subst g'. rewrite Hstate. cbn [base].
    destruct (flush_with_key g1 ltac:(cbn; eauto)) as [Hp _].
    cbv zeta in Hp. rewrite Hp. subst g1. cbn [install epoch pending].
    rewrite toInt32_idem. reflexivity.
  - subst g'. rewrite Hstate. cbn [base].
    destruct (flush_with_key g1 ltac:(cbn; eauto)) as [_ Hd].
    exact Hd.
Qed.

Lemma X5_loadGK_hands_buffer_to_readyUI_witness :
  pending (base Sample.guest_waiting) = [Sample.msg_early] /\
  loadGK_with (H := Toy.sodium) (readyUI (H := Toy.sodium))
              Sample.guest_waiting
              (Toy.gk_frame 7 (VStr "rh") (VStr "rh")) Toy.key32
  = (fst (loadGK (H := Toy.sodium) Sample.guest_waiting
                 (Toy.gk_frame 7 (VStr "rh") (VStr "rh")) Toy.key32),
     ["early"%string], []).
Proof.
  split; [reflexivity|].
  refine (proj1 (X5_loadGK_hands_buffer_to_readyUI (H := Toy.sodium)
                   Sample.guest_waiting
                   (Toy.gk_frame 7 (VStr "rh") (VStr "rh")) Toy.key32
                   Sample.gkey _ _ _)).
  - reflexivity.
  - vm_compute. reflexivity.
  - vm_compute. reflexivity.
Defined.

Lemma X4_flush_keeps_later_epochs_witness :
  let g := install Sample.gkey 7 (base Sample.guest_waiting) in
  pending (fst (flush (H := Toy.sodium) g)) = [] /\
  decrypt (H := Toy.sodium) (fst (flush (H := Toy.sodium) g)) Sample.msg_early
  = (fst (flush (H := Toy.sodium) g), None).
Proof.
  intros g.
  destruct (proj2 (X4_flush_keeps_later_epochs (H := Toy.sodium) g))
    as (Hp & _ & _ & Hd).
  - simpl. eauto.
  - split.
    + rewrite Hp. vm_compute. reflexivity.
    + apply Hd. left. reflexivity.
Defined.

(** ** Key distribution end to end *)

Section Distribution.

Context `{Sodium}.

(** [MlsGroup.rekey] on an initiator whose members hold 32-byte keys, by
    its frames. *)
Lemma rekey_runs (g : MlsGroup) (r : rng) :
  isInitiator g = true -> aead_accepts ->
  Forall (fun p : string * bytes => length (snd p) = 32%nat) (peers (base g)) ->
  let gk := tape_slice r (pos r) 32 in
  let e' := toInt32 (epoch (base g)) + 1 in
  let rh := _rosterHash (base g) in
  exists frames,
    rekey g r
    = (mkMls (install gk e' (base g)) true,
       mkRng (tape r) (pos r + 32 + length (peers (base g)) * 24),
       EvReady :: map EvSend frames, Returned tt) /\
    length frames = length (peers (base g)) /\
    forall (i : nat) peerCid sk,
      peers (base g) !! i = Some (peerCid, sk) ->
      let nonce := tape_slice r (pos r + 32 + i * 24) 24 in
      exists ek,
        aead_encrypt gk (_aadGK (cid (base g)) e' (VStr rh)) nonce sk
        = Some ek /\
        frames !! i
        = Some (mkGk (cid (base g)) (VStr peerCid) e' (VStr rh)
                     (VStr (b64 nonce)) (VStr (b64 ek))).
Proof.
  intros Hinit Haead Hkeys gk e' rh.
  destruct (rekey_loop_sends (cid (base g)) gk e' rh (peers (base g))
              Haead Hkeys (mkRng (tape r) (pos r + 32)))
    as (frames & Hloop & Hlen & Hframes).
  exists frames. unfold rekey. rewrite Hinit. simpl.
  fold gk. fold e'.
  change (_rosterHash (install gk e' (base g))) with rh.
  rewrite Hloop. simpl.
  split_and!; [reflexivity | exact Hlen | exact Hframes].
Qed.

(** The loop of the base-class [rekey], by its frames. *)
Lemma Group_rekey_loop_sends self gk e ps :
  aead_accepts ->
  Forall (fun p : string * bytes => length (snd p) = 32%nat) ps ->
  forall r,
  exists frames,
    Group_rekey_loop self gk e ps r
    = (mkRng (tape r) (pos r + length ps * 24), map EvSend frames,
       Returned tt) /\
    length frames = length ps /\
    forall (i : nat) peerCid sk,
      ps !! i = Some (peerCid, sk) ->
      let nonce := tape_slice r (pos r + i * 24) 24 in
      exists ek,
        aead_encrypt gk (_aad "gk" self 0 e) nonce sk = Some ek /\
        frames !! i
        = Some (mkGk self (VStr peerCid) e VUndefined
                     (VStr (b64 nonce)) (VStr (b64 ek))).
Proof.
  intros Haead Hkeys.
  induction Hkeys as [|[peerCid sk] ps Hsk Hkeys IH]; intros r.
  - exists []. simpl. split_and!.
    + destruct r as [t p]. simpl. do 2 f_equal. f_equal. lia.
    + reflexivity.
    + intros i ? ? Hi. rewrite lookup_nil in Hi. discriminate.
  - simpl in Hsk. simpl.
    destruct (Haead gk (_aad "gk" self 0 e)
                    (tape_slice r (pos r) NPUBBYTES) sk) as [ek Hek].
    { apply tape_slice_length. } { exact Hsk. }
    rewrite Hek.
    destruct (IH (mkRng (tape r) (pos r + NPUBBYTES)))
      as (frames & Hloop & Hlen & Hframes).
    rewrite Hloop. simpl.
    exists (mkGk self (VStr peerCid) e VUndefined
                 (VStr (b64 (tape_slice r (pos r) NPUBBYTES)))
                 (VStr (b64 ek)) :: frames).
    split_and!.
    + simpl. do 2 f_equal. f_equal. unfold NPUBBYTES. lia.
    + simpl. rewrite Hlen. reflexivity.
    + intros [|i] c' sk' Hi; simpl in Hi.
      * injection Hi as <- <-. exists ek.
        replace (pos r + 0 * 24)%nat with (pos r) by lia.
        split; [exact Hek | reflexivity].
      * destruct (Hframes i c' sk' Hi) as (ek' & Henc & Hfr).
        exists ek'. simpl in Henc, Hfr.
        replace (pos r + S i * 24)%nat with (pos r + NPUBBYTES + i * 24)%nat
          by (unfold NPUBBYTES; lia).
        split; [exact Henc | exact Hfr].
Qed.

(** A member opens the frame made for it: the attempts of
    [MlsGroup.loadGK] on a frame sealed with the AAD of its own [rh]. *)
Lemma loadGK_attempts_sealed (self : string) (to rh : value) (e : Z)
      (gk nonce ek sk : bytes) :
  aead_correct -> int32 e ->
  aead_encrypt gk (_aadGK self e (if typeof_string rh then rh else VUndefined))
               nonce sk = Some ek ->
  fst (loadGK_attempts (mkGk self to e rh (VStr (b64 nonce)) (VStr (b64 ek)))
                       (toInt32 e) sk) = Some gk.
Proof.
  intros Hcorrect Hre Hseal. rewrite (toInt32_id _ Hre).
  unfold loadGK_attempts, tryDecrypt. cbn [gk_rh gk_cid gk_ek gk_n].
  rewrite !u8_b64.
  destruct (typeof_string rh);
    rewrite (Hcorrect _ _ _ _ _ Hseal); reflexivity.
Qed.

End Distribution.

(** X6 (a member installs what the initiator sent it).  The frame that
    [MlsGroup.rekey] sends to a member is installed by that member's
    [loadGK] under the pair key it was sealed with: the member ends with
    the initiator's new group key and epoch and fires [onReady].  This
    needs the new epoch to be below [2^31] and above the member's. *)
Theorem X6_rekey_loadGK_round_trip `{Sodium} (host member : MlsGroup)
        (r : rng) (i : nat) (peerCid : string) (sk : bytes) :
  isInitiator host = true -> aead_accepts -> aead_correct ->
  Forall (fun p : string * bytes => length (snd p) = 32%nat)
         (peers (base host)) ->
  peers (base host) !! i = Some (peerCid, sk) ->
  cid (base member) = peerCid ->
  toInt32 (epoch (base host)) + 1 < 2 ^ 31 ->
  toInt32 (epoch (base member)) < toInt32 (epoch (base host)) + 1 ->
  let host' := fst (fst (fst (rekey host r))) in
  exists f,
    snd (fst (rekey host r)) !! S i = Some (EvSend f) /\
    gk_to f = VStr peerCid /\
    snd (loadGK member f sk) = [EvReady] /\
    groupKey (base (fst (loadGK member f sk))) = groupKey (base host') /\
    epoch (base (fst (loadGK member f sk))) = epoch (base host') /\
    sendSeq (base (fst (loadGK member f sk))) = 0.
Proof.
  intros Hinit Haead Hcorrect Hkeys Hi Hcid Hhi Hlt host'.
  destruct (rekey_runs host r Hinit Haead Hkeys)
    as (frames & Hrekey & _ & Hframes).
  destruct (Hframes i peerCid sk Hi) as (ek & Hseal & Hf).
  subst host'. rewrite Hrekey. cbn [fst snd].
  set (gk := tape_slice r (pos r) 32) in *.
  set (e' := toInt32 (epoch (base host)) + 1) in *.
  set (rh := _rosterHash (base host)) in *.
  set (nonce := tape_slice r (pos r + 32 + i * 24) 24) in *.
  assert (int32 e') as Hre.
  { pose proof (toInt32_range (epoch (base host))) as Hr.
    unfold int32 in *. subst e'. lia. }
  eexists. split.
  { cbn [lookup]. simpl. rewrite list_lookup_fmap, Hf. reflexivity. }
  split; [reflexivity|].
  pose proof (loadGK_attempts_sealed (cid (base host)) (VStr peerCid)
                (VStr rh) e' gk nonce ek sk Hcorrect Hre Hseal) as Hopen.
  unfold loadGK. cbn [gk_to gk_e].
  assert (addressed_elsewhere (VStr peerCid) (cid (base member)) = false)
    as ->.
  { unfold addressed_elsewhere. rewrite Hcid, String.eqb_refl.
    apply andb_false_r. }
  rewrite (toInt32_id e' Hre) in *.
  destruct (Z.leb_spec e' (toInt32 (epoch (base member)))); [lia|].
  rewrite Hopen. cbn [fst snd base].
  destruct (flush_install_fields gk e' (base member)) as (Hk & He & Hs & _).
  split_and!; [reflexivity | exact Hk | exact He | exact Hs].
Qed.

Lemma X6_rekey_loadGK_round_trip_witness :
  exists f,
    snd (fst (rekey (H := Toy.sodium) Sample.host_two Toy.rng0)) !! 1%nat
    = Some (EvSend f) /\
    groupKey (base (fst (loadGK (H := Toy.sodium) Sample.ann0 f Toy.key32)))
    = Some (Toy.zeros 32) /\
    epoch (base (fst (loadGK (H := Toy.sodium) Sample.ann0 f Toy.key32))) = 5.
Proof.
  destruct (X6_rekey_loadGK_round_trip (H := Toy.sodium) Sample.host_two
              Sample.ann0 Toy.rng0 0 "ann" Toy.key32 eq_refl
              toy_aead_accepts toy_aead_correct)
    as (f & Hf & _ & _ & Hk & He & _).
  - repeat constructor.
  - reflexivity.
  - reflexivity.
  - vm_compute. reflexivity.
  - vm_compute. reflexivity.
  - exists f. split_and!; [exact Hf | rewrite Hk | rewrite He];
      vm_compute; reflexivity.
Defined.

(** X7 (base-class frames).  The frame that the base-class [Group.rekey]
    sends to a member carries no [rh]; it is installed by the member's
    base-class [loadGK] whatever the member's epoch, and also by
    [MlsGroup.loadGK], at its first attempt, when the new epoch is above
    the member's: the AAD of [_aadGK] without [rh] is the AAD of [_aad]. *)
Theorem X7_base_rekey_frames_install `{Sodium} (host member : Group)
        (mls : MlsGroup) (r : rng) (i : nat) (peerCid : string) (sk : bytes) :
  aead_accepts -> aead_correct ->
  Forall (fun p : string * bytes => length (snd p) = 32%nat) (peers host) ->
  peers host !! i = Some (peerCid, sk) ->
  toInt32 (epoch host) + 1 < 2 ^ 31 ->
  let gk := tape_slice r (pos r) 32 in
  let e' := toInt32 (epoch host) + 1 in
  exists f,
    fst (fst (fst (Group_rekey host r))) = install gk e' host /\
    snd (Group_rekey host r) = Returned tt /\
    snd (fst (Group_rekey host r)) !! S i = Some (EvSend f) /\
    gk_rh f = VUndefined /\
    (cid member = peerCid ->
     Group_loadGK member f sk
     = (fst (flush (install gk e' member)), [EvReady])) /\
    (cid (base mls) = peerCid -> toInt32 (epoch (base mls)) < e' ->
     loadGK mls f sk
     = (mkMls (fst (flush (install gk e' (base mls)))) (isInitiator mls),
        [EvReady]) /\
     snd (loadGK_attempts f (toInt32 (gk_e f)) sk) = [false]).
Proof.
  intros Haead Hcorrect Hkeys Hi Hhi gk e'.
  destruct (Group_rekey_loop_sends (cid host) gk e' (peers host) Haead Hkeys
              (mkRng (tape r) (pos r + 32)))
    as (frames & Hloop & _ & Hframes).
  destruct (Hframes i peerCid sk Hi) as (ek & Hseal & Hf).
  cbn [pos tape] in Hseal, Hf. cbv zeta in Hseal, Hf.
  change (tape_slice (mkRng (tape r) (pos r + 32)) (pos r + 32 + i * 24) 24)
    with (tape_slice r (pos r + 32 + i * 24) 24) in Hseal, Hf.
  set (nonce := tape_slice r (pos r + 32 + i * 24) 24) in *.
  assert (int32 e') as Hre.
  { pose proof (toInt32_range (epoch host)) as Hr.
    unfold int32 in *. subst e'. lia. }
  assert (Group_rekey host r
          = (install gk e' host,
             mkRng (tape r) (pos r + 32 + length (peers host) * 24),
             EvReady :: map EvSend frames, Returned tt)) as Hrekey.
  { unfold Group_rekey. simpl. fold gk. fold e'. rewrite Hloop. reflexivity. }
  rewrite Hrekey. cbn [fst snd]. eexists.
  split; [reflexivity|]. split; [reflexivity|].
  split; [simpl; rewrite list_lookup_fmap, Hf; reflexivity|].
  split; [reflexivity|].
  assert (forall c, c = peerCid ->
                    addressed_elsewhere (VStr peerCid) c = false) as Hto.
  { intros c ->. unfold addressed_elsewhere. rewrite String.eqb_refl.
    apply andb_false_r. }
  split.
  - intros Hcid. unfold Group_loadGK. cbn [gk_to gk_e gk_cid gk_ek gk_n].
    rewrite (Hto _ Hcid), !u8_b64, (toInt32_id e' Hre).
    rewrite (Hcorrect _ _ _ _ _ Hseal). reflexivity.
  - intros Hcid Hlt.
    pose proof (loadGK_attempts_sealed (cid host) (VStr peerCid) VUndefined
                  e' gk nonce ek sk Hcorrect Hre Hseal) as Hopen.
    split.
    + unfold loadGK. cbn [gk_to gk_e]. rewrite (Hto _ Hcid).
      rewrite (toInt32_id e' Hre) in *.
      destruct (Z.leb_spec e' (toInt32 (epoch (base mls)))); [lia|].
      rewrite Hopen. reflexivity.
    + cbn [gk_e]. unfold loadGK_attempts in *. cbn [gk_rh typeof_string] in *.
      destruct (tryDecrypt _ _ sk false); [reflexivity | discriminate].
Qed.

Lemma X7_base_rekey_frames_install_witness :
  exists f,
    snd (fst (Group_rekey (H := Toy.sodium) (base Sample.host_two) Toy.rng0))
      !! 1%nat = Some (EvSend f) /\
    snd (loadGK (H := Toy.sodium) Sample.ann0 f Toy.key32) = [EvReady] /\
    snd (Group_loadGK (H := Toy.sodium) (base Sample.ann0) f Toy.key32)
    = [EvReady].
Proof.
  destruct (X7_base_rekey_frames_install (H := Toy.sodium)
              (base Sample.host_two) (base Sample.ann0) Sample.ann0 Toy.rng0
              0 "ann" Toy.key32 toy_aead_accepts toy_aead_correct)
    as (f & _ & _ & Hf & _ & Hbase & Hmls).
  - repeat constructor.
  - reflexivity.
  - vm_compute. reflexivity.
  - exists f. split; [exact Hf|]. split.
    + destruct Hmls as [-> _]; [reflexivity | vm_compute; reflexivity |].
      reflexivity.
    + rewrite Hbase by reflexivity. reflexivity.
Defined.

(** ** Membership and distribution *)

Section Membership.

Context `{Sodium}.

(** Every frame of the loop of [rekey] is addressed to a member. *)
Lemma rekey_loop_targets self gk e rh ps : forall r f,
  In (EvSend f) (snd (fst (rekey_loop self gk e rh ps r))) ->
  exists c sk, In (c, sk) ps /\ gk_to f = VStr c.
Proof.
  induction ps as [|[c sk] ps IH]; intros r f; simpl; [intros []|].
  destruct (aead_encrypt _ _ _ sk) as [ek|]; [|intros []].
  specialize (IH (mkRng (tape r) (pos r + NPUBBYTES)) f).
  destruct (rekey_loop self gk e rh ps _) as [[r2 evs] c0].
  simpl in *. intros [Heq | Hin].
  - injection Heq as <-. exists c, sk. auto.
  - destruct (IH Hin) as (c' & sk' & Hin' & Hto). exists c', sk'. auto.
Qed.

Lemma rekey_targets (g : MlsGroup) r f :
  In (EvSend f) (snd (fst (rekey g r))) ->
  exists c sk, In (c, sk) (peers (base g)) /\ gk_to f = VStr c.
Proof.
  unfold rekey. destruct (isInitiator g); simpl; [|intros []].
  pose proof (rekey_loop_targets (cid (base g)) (tape_slice r (pos r) 32)
                (toInt32 (epoch (base g)) + 1)
                (_rosterHash (install (tape_slice r (pos r) 32)
                                (toInt32 (epoch (base g)) + 1) (base g)))
                (peers (base g)) (mkRng (tape r) (pos r + 32)) f) as Hl.
  destruct (rekey_loop _ _ _ _ _ _) as [[r2 evs] c0]. simpl in *.
  intros [Heq | Hin]; [discriminate | auto].
Qed.

Lemma peers_delete_gone c ps sk : ~ In (c, sk) (peers_delete c ps).
Proof.
  unfold peers_delete. intros Hin.
  apply list_elem_of_In, list_elem_of_filter in Hin as [Hne _].
  simpl in Hne. rewrite String.eqb_refl in Hne. exact Hne.
Qed.

Lemma peers_delete_others c c' ps sk :
  c' <> c -> In (c', sk) ps -> In (c', sk) (peers_delete c ps).
Proof.
  intros Hne Hin. unfold peers_delete.
  apply list_elem_of_In, list_elem_of_filter. split.
  - simpl. destruct (String.eqb_spec c c'); [congruence | exact I].
  - apply list_elem_of_In. exact Hin.
Qed.

Lemma peers_set_keys32 c sk ps :
  length sk = 32%nat ->
  Forall (fun p : string * bytes => length (snd p) = 32%nat) ps ->
  Forall (fun p : string * bytes => length (snd p) = 32%nat)
         (peers_set c sk ps).
Proof.
  intros Hsk Hps. induction Hps as [|[c' sk'] ps Hc Hps IH]; simpl.
  - repeat constructor. exact Hsk.
  - destruct (String.eqb c c'); constructor; auto.
Qed.

Lemma peers_set_keys c sk ps :
  map fst (peers_set c sk ps)
  = if existsb (String.eqb c) (map fst ps) then map fst ps
    else map fst ps ++ [c].
Proof.
  induction ps as [|[c' sk'] ps IH]; simpl; [reflexivity|].
  destruct (String.eqb c c'); simpl; [reflexivity|].
  rewrite IH. destruct (existsb _ _); reflexivity.
Qed.

Lemma peers_set_NoDup c sk ps :
  NoDup (map fst ps) -> NoDup (map fst (peers_set c sk ps)).
Proof.
  intros Hnd. rewrite peers_set_keys.
  destruct (existsb (String.eqb c) (map fst ps)) eqn:Hex; [exact Hnd|].
  apply NoDup_app. split_and!; [exact Hnd | | apply NoDup_singleton].
  intros x Hx Hc. apply list_elem_of_singleton in Hc. subst x.
  assert (existsb (String.eqb c) (map fst ps) = true); [|congruence].
  apply existsb_exists. exists c. split.
  - apply list_elem_of_In. exact Hx.
  - apply String.eqb_refl.
Qed.

Lemma peers_set_lookup c sk ps :
  exists i : nat, peers_set c sk ps !! i = Some (c, sk).
Proof.
  induction ps as [|[c' sk'] ps [i IH]]; simpl.
  - exists 0%nat. reflexivity.
  - destruct (String.eqb_spec c c') as [->|Hne].
    + exists 0%nat. reflexivity.
    + exists (S i). exact IH.
Qed.

Lemma peers_delete_NoDup c ps :
  NoDup (map fst ps) -> NoDup (map fst (peers_delete c ps)).
Proof.
  unfold peers_delete. induction ps as [|[c' sk'] ps IH]; simpl; [auto|].
  intros Hnd. apply NoDup_cons in Hnd as [Hnotin Hnd].
  rewrite filter_cons. case_decide; [|auto].
  simpl. apply NoDup_cons. split; [|auto].
  intros Hin. apply Hnotin.
  apply list_elem_of_fmap in Hin as ([c2 s2] & -> & Hin).
  apply list_elem_of_filter in Hin as [_ Hin].
  apply list_elem_of_fmap. exists (c2, s2). auto.
Qed.

End Membership.

(** X8 (a removed member gets no key).  After [removeMember(c)] no entry
    of [peers] is left for [c], and no frame that [rekey] sends is
    addressed to [c], while every other member keeps its entry. *)
Theorem X8_removed_member_gets_no_key `{Sodium} (g : MlsGroup) (c : string)
        (r : rng) :
  (forall sk, ~ In (c, sk) (peers (base (removeMember c g)))) /\
  (forall c' sk, c' <> c -> In (c', sk) (peers (base g)) ->
                 In (c', sk) (peers (base (removeMember c g)))) /\
  (forall f, In (EvSend f) (snd (fst (rekey (removeMember c g) r))) ->
             gk_to f <> VStr c).
Proof.
  split_and!.
  - intros sk. apply peers_delete_gone.
  - intros c' sk Hne Hin. apply peers_delete_others; assumption.
  - intros f Hin Hto.
    destruct (rekey_targets _ _ _ Hin) as (c' & sk & Hin' & Hto').
    rewrite Hto in Hto'. injection Hto' as <-.
    exact (peers_delete_gone c _ sk Hin').
Qed.

Lemma X8_removed_member_gets_no_key_witness :
  map (fun ev => match ev with EvSend f => gk_to f | EvReady => VNull end)
      (snd (fst (rekey (H := Toy.sodium)
                   (removeMember "ann" Sample.host_two) Toy.rng0)))
  = [VNull; VStr "bob"] /\
  forall f,
    In (EvSend f) (snd (fst (rekey (H := Toy.sodium)
                               (removeMember "ann" Sample.host_two) Toy.rng0)))
    -> gk_to f <> VStr "ann".
Proof.
  split; [vm_compute; reflexivity|].
  exact (proj2 (proj2 (X8_removed_member_gets_no_key (H := Toy.sodium)
                         Sample.host_two "ann" Toy.rng0))).
Defined.

(** X9 (an added member gets the key).  After [addMember(c, sk)] on an
    initiator whose members hold 32-byte keys, [rekey] sends exactly one
    frame addressed to [c]; it wraps the new group key under [sk], the key
    given last, so that [c] opens it with [sk]. *)
Theorem X9_added_member_gets_key `{Sodium} (g : MlsGroup) (c : string)
        (sk : bytes) (r : rng) :
  isInitiator g = true -> aead_accepts -> aead_correct ->
  length sk = 32%nat ->
  Forall (fun p : string * bytes => length (snd p) = 32%nat) (peers (base g)) ->
  NoDup (map fst (peers (base g))) ->
  let g1 := addMember c sk g in
  let gk := tape_slice r (pos r) 32 in
  let e' := toInt32 (epoch (base g)) + 1 in
  exists (i : nat) f ek nonce,
    snd (fst (rekey g1 r)) !! S i = Some (EvSend f) /\
    gk_to f = VStr c /\ gk_n f = VStr (b64 nonce) /\ gk_ek f = VStr (b64 ek) /\
    aead_decrypt ek (_aadGK (cid (base g)) e' (gk_rh f)) nonce sk = Some gk /\
    groupKey (base (fst (fst (fst (rekey g1 r))))) = Some gk /\
    forall (j : nat) f',
      snd (fst (rekey g1 r)) !! S j = Some (EvSend f') ->
      gk_to f' = VStr c -> j = i.
Proof.
  intros Hinit Haead Hcorrect Hsk Hkeys Hnd g1 gk e'.
  assert (Forall (fun p : string * bytes => length (snd p) = 32%nat)
                 (peers (base g1))) as Hkeys1
    by (apply peers_set_keys32; assumption).
  assert (NoDup (map fst (peers (base g1)))) as Hnd1
    by (apply peers_set_NoDup; assumption).
  assert (exists i : nat, peers (base g1) !! i = Some (c, sk)) as [i Hi]
    by apply peers_set_lookup.
  destruct (rekey_runs g1 r Hinit Haead Hkeys1)
    as (frames & Hrekey & Hlen & Hframes).
  destruct (Hframes i c sk Hi) as (ek & Hseal & Hf).
  rewrite Hrekey. cbn [fst snd].
  eexists i, _, ek, _. split_and!.
  - simpl. rewrite list_lookup_fmap, Hf. reflexivity.
  - reflexivity.
  - reflexivity.
  - reflexivity.
  - apply Hcorrect. exact Hseal.
  - reflexivity.
  - intros j f' Hj Hto. simpl in Hj.
    rewrite list_lookup_fmap in Hj.
    destruct (frames !! j) as [fj|] eqn:Hfj; [|discriminate].
    injection Hj as <-.
    assert (j < length (peers (base g1)))%nat as Hjlt.
    { rewrite <- Hlen. apply lookup_lt_Some in Hfj. exact Hfj. }
    destruct (lookup_lt_is_Some_2 _ _ Hjlt) as [[cj skj] Hpj].
    destruct (Hframes j cj skj Hpj) as (ekj & _ & Hfj').
    rewrite Hfj in Hfj'. injection Hfj' as ->. simpl in Hto.
    injection Hto as ->.
    apply (NoDup_lookup (map fst (peers (base g1))) j i c Hnd1);
      rewrite list_lookup_fmap; [rewrite Hpj | rewrite Hi]; reflexivity.
Qed.

Lemma X9_added_member_gets_key_witness :
  exists (i : nat) f,
    snd (fst (rekey (H := Toy.sodium)
                (addMember "bob" (Toy.zeros 32) Sample.host_two) Toy.rng0))
      !! S i = Some (EvSend f) /\
    gk_to f = VStr "bob".
Proof.
  destruct (X9_added_member_gets_key (H := Toy.sodium) Sample.host_two "bob"
              (Toy.zeros 32) Toy.rng0 eq_refl toy_aead_accepts
              toy_aead_correct eq_refl)
    as (i & f & _ & _ & Hf & Hto & _).
  - repeat constructor.
  - apply (NoDup_cons_2 "ann"%string ["bob"%string]).
    + intros Hin. apply list_elem_of_singleton in Hin. discriminate.
    + apply NoDup_singleton.
  - exists i, f. split; assumption.
Defined.

(** The loop of [rekey] stops at the first member whose key the AEAD
    turns down. *)
Lemma rekey_loop_breaks `{Sodium} self gk e rh before c sk later :
  aead_accepts ->
  Forall (fun p : string * bytes => length (snd p) = 32%nat) before ->
  (forall m ad n, aead_encrypt m ad n sk = None) ->
  forall r,
  exists frames,
    rekey_loop self gk e rh (before ++ (c, sk) :: later) r
    = (mkRng (tape r) (pos r + S (length before) * 24), map EvSend frames,
       Thrown) /\
    map gk_to frames = map (fun p => VStr (fst p)) before.
Proof.
  intros Haead Hkeys Hbad.
  induction Hkeys as [|[c' sk'] before Hsk Hkeys IH]; intros r.
  - exists []. simpl. rewrite Hbad. split; reflexivity.
  - simpl in Hsk. simpl.
    destruct (Haead gk (_aadGK self e (VStr rh))
                    (tape_slice r (pos r) NPUBBYTES) sk') as [ek Hek].
    { apply tape_slice_length. } { exact Hsk. }
    rewrite Hek.
    destruct (IH (mkRng (tape r) (pos r + NPUBBYTES)))
      as (frames & Hloop & Hto).
    rewrite Hloop. simpl.
    eexists (_ :: frames). split.
    + simpl. do 2 f_equal. f_equal. unfold NPUBBYTES. lia.
    + simpl. rewrite Hto. reflexivity.
Qed.

(** X10 (a key the AEAD turns down).  When the AEAD rejects the pair key
    of one member, [rekey] ends with that exception, after it has already
    replaced the group key, raised the epoch, reset the counters, fired
    [onReady] and sent their frames to the members before that one: the
    member itself and all members after it get no frame, and the initiator
    is in the new epoch alone with the members served. *)
Theorem X10_rekey_stops_at_bad_key `{Sodium} (g : MlsGroup) (r : rng)
        (before later : list (string * bytes)) (c : string) (sk : bytes) :
  isInitiator g = true -> aead_accepts ->
  peers (base g) = before ++ (c, sk) :: later ->
  Forall (fun p : string * bytes => length (snd p) = 32%nat) before ->
  (forall m ad n, aead_encrypt m ad n sk = None) ->
  let gk := tape_slice r (pos r) 32 in
  let e' := toInt32 (epoch (base g)) + 1 in
  exists frames,
    rekey g r
    = (mkMls (install gk e' (base g)) true,
       mkRng (tape r) (pos r + 32 + S (length before) * 24),
       EvReady :: map EvSend frames, Thrown) /\
    map gk_to frames = map (fun p => VStr (fst p)) before.
Proof.
  intros Hinit Haead Hpeers Hkeys Hbad gk e'.
  destruct (rekey_loop_breaks (cid (base g)) gk e'
              (_rosterHash (base g)) before c sk later Haead Hkeys Hbad
              (mkRng (tape r) (pos r + 32)))
    as (frames & Hloop & Hto).
  exists frames. unfold rekey. rewrite Hinit. simpl.
  fold gk. fold e'.
  change (_rosterHash (install gk e' (base g))) with (_rosterHash (base g)).
  rewrite Hpeers, Hloop. simpl. split; [reflexivity | exact Hto].
Qed.

Lemma X10_rekey_stops_at_bad_key_witness :
  exists frames,
    rekey (H := Toy.sodium) Sample.host_bad Toy.rng0
    = (mkMls (install (Toy.zeros 32) 5 (base Sample.host_bad)) true,
       mkRng (fun _ => x00) 80, EvReady :: map EvSend frames, Thrown) /\
    map gk_to frames = [VStr "ann"].
Proof.
  destruct (X10_rekey_stops_at_bad_key (H := Toy.sodium) Sample.host_bad
              Toy.rng0 [("ann"%string, Toy.key32)]
              [("cat"%string, Toy.key32)] "bob" (Toy.zeros 5)
              eq_refl toy_aead_accepts eq_refl)
    as (frames & Hrekey & Hto).
  - repeat constructor.
  - intros m ad n. simpl. unfold Toy.seal.
    rewrite andb_false_r. reflexivity.
  - exists frames. split; [exact Hrekey | exact Hto].
Defined.

(** ** The roster *)

Lemma utf16_rank_inj (x y : ascii) : utf16_rank x = utf16_rank y -> x = y.
Proof.
  unfold utf16_rank, rankN. intros Heq.
  pose proof (N_ascii_bounded x) as Hx. pose proof (N_ascii_bounded y) as Hy.
  rewrite <- (ascii_N_embedding x), <- (ascii_N_embedding y). f_equal.
  destruct (N.ltb_spec (N_of_ascii x) 238), (N.ltb_spec (N_of_ascii x) 240),
           (N.ltb_spec (N_of_ascii y) 238), (N.ltb_spec (N_of_ascii y) 240);
    lia.
Qed.

Lemma units_compare_swap (a : list N) : forall b,
  units_compare b a = CompOpp (units_compare a b).
Proof.
  induction a as [|x a IH]; intros [|y b]; try reflexivity.
  cbn [units_compare]. rewrite (N.compare_antisym x).
  destruct (x ?= y)%N; cbn [CompOpp];
    [apply IH | reflexivity | reflexivity].
Qed.

Lemma units_compare_eq (a : list N) : forall b,
  units_compare a b = Eq -> a = b.
Proof.
  induction a as [|x a IH]; intros [|y b]; cbn [units_compare];
    try discriminate; [reflexivity|].
  destruct (N.compare_spec x y) as [E|L|G]; try discriminate.
  intros Hab. rewrite E, (IH b Hab). reflexivity.
Qed.

Lemma units_compare_trans_le (s1 : list N) : forall s2 s3,
  units_compare s1 s2 <> Gt -> units_compare s2 s3 <> Gt ->
  units_compare s1 s3 <> Gt.
Proof.
  induction s1 as [|c1 s1 IH]; intros [|c2 s2] [|c3 s3];
    cbn [units_compare]; try congruence.
  destruct (N.compare_spec c1 c2) as [E12|L12|G12];
    destruct (N.compare_spec c2 c3) as [E23|L23|G23];
    destruct (N.compare_spec c1 c3) as [E13|L13|G13];
    try congruence; try lia.
  apply IH.
Qed.

Lemma utf16_compare_swap (a b : string) :
  utf16_compare b a = CompOpp (utf16_compare a b).
Proof. apply units_compare_swap. Qed.

Lemma utf16_ranks_inj (a : list ascii) : forall b,
  map utf16_rank a = map utf16_rank b -> a = b.
Proof.
  induction a as [|x a IH]; intros [|y b]; cbn [map]; try discriminate;
    [reflexivity|].
  intros [= Hxy Hab]. apply utf16_rank_inj in Hxy.
  rewrite Hxy, (IH b Hab). reflexivity.
Qed.

Lemma utf16_compare_eq (a b : string) : utf16_compare a b = Eq -> a = b.
Proof.
  intros Heq. apply units_compare_eq, utf16_ranks_inj in Heq.
  rewrite <- (string_of_list_ascii_of_string a),
          <- (string_of_list_ascii_of_string b), Heq.
  reflexivity.
Qed.

Lemma utf16_compare_trans_le (s1 s2 s3 : string) :
  utf16_compare s1 s2 <> Gt -> utf16_compare s2 s3 <> Gt ->
  utf16_compare s1 s3 <> Gt.
Proof. apply units_compare_trans_le. Qed.

#[global] Instance str_le_trans : Transitive str_le.
Proof.
  intros x y z. unfold str_le, utf16_leb. intros Hxy Hyz.
  pose proof (utf16_compare_trans_le x y z) as Ht.
  destruct (utf16_compare x y); destruct (utf16_compare y z);
    destruct (utf16_compare x z); try discriminate; try reflexivity;
    exfalso; apply Ht; congruence.
Qed.

#[global] Instance str_le_antisym : AntiSymm (=) str_le.
Proof.
  intros x y. unfold str_le, utf16_leb. intros Hxy Hyx.
  apply utf16_compare_eq.
  rewrite (utf16_compare_swap x y) in Hyx.
  destruct (utf16_compare x y); [reflexivity | discriminate..].
Qed.

Lemma str_le_total (x y : string) : utf16_leb x y = false -> str_le y x.
Proof.
  unfold str_le, utf16_leb. rewrite (utf16_compare_swap x y).
  destruct (utf16_compare x y); [discriminate.. | reflexivity].
Qed.

Lemma sort_insert_perm x l : sort_insert x l ≡ₚ x :: l.
Proof.
  induction l as [|y l IH]; simpl; [reflexivity|].
  destruct (utf16_leb x y); [reflexivity|].
  rewrite IH. apply Permutation_swap.
Qed.

Lemma sort_perm l : sort l ≡ₚ l.
Proof.
  induction l as [|x l IH]; simpl; [reflexivity|].
  unfold sort in *. simpl. rewrite sort_insert_perm, IH. reflexivity.
Qed.

Lemma sort_insert_sorted x l :
  Sorted str_le l -> Sorted str_le (sort_insert x l).
Proof.
  induction l as [|y l IH]; simpl; intros Hs.
  - repeat constructor.
  - destruct (utf16_leb x y) eqn:Hxy.
    + constructor; [exact Hs | constructor; exact Hxy].
    + apply Sorted_inv in Hs as [Hs Hhd].
      constructor; [apply IH; exact Hs|].
      pose proof (str_le_total x y Hxy) as Hyx.
      destruct l as [|z l]; simpl; [constructor; exact Hyx|].
      destruct (utf16_leb x z); constructor; [exact Hyx|].
      apply HdRel_inv in Hhd. exact Hhd.
Qed.

Lemma sort_sorted l : StronglySorted str_le (sort l).
Proof.
  apply (Sorted_StronglySorted str_le).
  induction l as [|x l IH]; [constructor|].
  apply sort_insert_sorted. exact IH.
Qed.

(** *** The comparison is that of the UTF-16 code units *)

Lemma units_compare_app_same (p a b : list N) :
  units_compare (p ++ a) (p ++ b) = units_compare a b.
Proof.
  induction p as [|x p IH]; [reflexivity|].
  cbn [app units_compare]. rewrite N.compare_refl. exact IH.
Qed.

Lemma differ_app (a : list N) : forall b R a2 b2,
  differ a b = Some R -> units_compare (a ++ a2) (b ++ b2) = R.
Proof.
  induction a as [|x a IH]; intros [|y b] R a2 b2; cbn [differ];
    try discriminate.
  cbn [app units_compare].
  destruct (N.compare x y); [apply IH | intros [= <-]; reflexivity ..].
Qed.

Lemma differ16 (c d : N) :
  scalar c -> scalar d -> c <> d ->
  differ (utf16_of c) (utf16_of d) = Some (N.compare (key16 c) (key16 d)).
Proof.
  intros Hc Hd Hne. unfold utf16_of, key16.
  destruct (N.ltb_spec c 65536), (N.ltb_spec d 65536);
    destruct (N.ltb_spec c 55296), (N.ltb_spec d 55296);
    unfold scalar in *; try lia; cbn [differ].
  all: repeat match goal with
         | |- context [N.compare ?a ?b] =>
             destruct (N.compare_spec a b)
         end; try reflexivity; try (exfalso; ndiv).
Qed.

Lemma rankN_cont (m : N) : (m < 64)%N -> rankN (128 + m) = (128 + m)%N.
Proof.
  intros Hm. unfold rankN. destruct (N.ltb_spec (128 + m) 238); lia.
Qed.

Lemma utf8_ranked (cp : N) :
  (cp < 1114112)%N ->
  map rankN (utf8_of cp)
  = (if cp <? 128 then [cp]
     else if cp <? 2048 then [192 + cp / 64; 128 + cp mod 64]
     else if cp <? 57344
          then [224 + cp / 4096; 128 + (cp / 64) mod 64; 128 + cp mod 64]
     else if cp <? 65536
          then [240 + cp / 4096; 128 + (cp / 64) mod 64; 128 + cp mod 64]
          else [238 + cp / 262144; 128 + (cp / 4096) mod 64;
                128 + (cp / 64) mod 64; 128 + cp mod 64])%N.
Proof.
  intros Hcp. unfold utf8_of.
  destruct (N.ltb_spec cp 128); [|destruct (N.ltb_spec cp 2048);
    [|destruct (N.ltb_spec cp 57344);
      [destruct (N.ltb_spec cp 65536); [|lia]
      |destruct (N.ltb_spec cp 65536)]]];
    cbn [map]; rewrite ?rankN_cont by (apply N.mod_lt; discriminate);
    f_equal; unfold rankN;
    repeat match goal with
           | |- context [if (?a <? ?b)%N then _ else _] =>
               destruct (N.ltb_spec a b)
           end; try reflexivity; try ndiv.
Qed.

(** The base-64 digits of a number. *)
Lemma digits (cp : N) :
  (cp = 64 * (cp / 64) + cp mod 64 /\ cp mod 64 < 64 /\
   cp / 64 = 64 * (cp / 4096) + (cp / 64) mod 64 /\ (cp / 64) mod 64 < 64 /\
   cp / 4096 = 64 * (cp / 262144) + (cp / 4096) mod 64 /\
   (cp / 4096) mod 64 < 64)%N.
Proof.
  change 4096%N with (64 * 64)%N. change 262144%N with (64 * 64 * 64)%N.
  rewrite <- !N.Div0.div_div.
  repeat split; try (apply N.mod_lt; discriminate); apply N.div_mod';
    discriminate.
Qed.

Ltac digit_vars c :=
  let C0 := fresh "C" in let C1 := fresh "C" in let C2 := fresh "C" in
  let C3 := fresh "C" in let C4 := fresh "C" in let C5 := fresh "C" in
  pose proof (digits c) as (C0 & C1 & C2 & C3 & C4 & C5);
  let m0 := fresh "m" in let m1 := fresh "m" in let m2 := fresh "m" in
  let q1 := fresh "q" in let q2 := fresh "q" in let q3 := fresh "q" in
  set (m0 := (c mod 64)%N) in *; set (m1 := ((c / 64) mod 64)%N) in *;
  set (m2 := ((c / 4096) mod 64)%N) in *;
  set (q1 := (c / 64)%N) in *; set (q2 := (c / 4096)%N) in *;
  set (q3 := (c / 262144)%N) in *;
  clearbody m0 m1 m2 q1 q2 q3.

Lemma differ8 (c d : N) :
  scalar c -> scalar d -> c <> d ->
  differ (map rankN (utf8_of c)) (map rankN (utf8_of d))
  = Some (N.compare (key16 c) (key16 d)).
Proof.
  intros Hc Hd Hne.
  rewrite !utf8_ranked by (unfold scalar in *; lia).
  unfold key16, scalar in *.
  digit_vars c. digit_vars d.
  destruct (N.ltb_spec c 128), (N.ltb_spec d 128);
    destruct (N.ltb_spec c 2048), (N.ltb_spec d 2048);
    destruct (N.ltb_spec c 55296), (N.ltb_spec d 55296);
    destruct (N.ltb_spec c 57344), (N.ltb_spec d 57344);
    destruct (N.ltb_spec c 65536), (N.ltb_spec d 65536);
    try lia; cbn [differ].
  all: repeat match goal with
         | |- context [N.compare ?a ?b] =>
             destruct (N.compare_spec a b)
         end; try reflexivity; try (exfalso; lia).
Qed.

Lemma utf8_of_bytes (cp : N) :
  (cp < 1114112)%N -> Forall (fun b => (b < 256)%N) (utf8_of cp).
Proof.
  intros Hcp. unfold utf8_of. digit_vars cp.
  repeat match goal with
         | |- context [if (?a <? ?b)%N then _ else _] =>
             destruct (N.ltb_spec a b)
         end;
    repeat (apply List.Forall_cons; [cbv beta; lia|]); apply List.Forall_nil.
Qed.

Lemma utf8_of_cons (cp : N) : exists b l, utf8_of cp = b :: l.
Proof.
  unfold utf8_of.
  repeat match goal with
         | |- context [if (?a <? ?b)%N then _ else _] => destruct (a <? b)%N
         end; eauto.
Qed.

Lemma utf16_of_cons (cp : N) : exists b l, utf16_of cp = b :: l.
Proof. unfold utf16_of. destruct (cp <? 65536)%N; eauto. Qed.

Lemma utf16_ranks_bytes (a : list N) :
  Forall (fun x => (x < 256)%N) a ->
  map utf16_rank (list_ascii_of_string
                    (string_of_list_ascii (map ascii_of_N a)))
  = map rankN a.
Proof.
  rewrite list_ascii_of_string_of_list_ascii.
  induction 1 as [|x a Hx _ IH]; [reflexivity|].
  cbn [map]. unfold utf16_rank at 1. rewrite N_ascii_embedding by exact Hx.
  rewrite IH. reflexivity.
Qed.

Lemma utf16_compare_bytes (a b : list N) :
  Forall (fun x => (x < 256)%N) a -> Forall (fun x => (x < 256)%N) b ->
  utf16_compare (string_of_list_ascii (map ascii_of_N a))
                (string_of_list_ascii (map ascii_of_N b))
  = units_compare (map rankN a) (map rankN b).
Proof.
  intros Ha Hb. unfold utf16_compare.
  rewrite !utf16_ranks_bytes by assumption. reflexivity.
Qed.

(** On the UTF-8 bytes of two sequences of scalar values the comparison of
    [sort()] is the comparison of their UTF-16 code units. *)
Lemma utf16_compare_units (s : list N) : forall t,
  Forall scalar s -> Forall scalar t ->
  utf16_compare (utf8_string s) (utf8_string t)
  = units_compare (flat_map utf16_of s) (flat_map utf16_of t).
Proof.
  assert (forall l, Forall scalar l ->
                    Forall (fun x => (x < 256)%N) (flat_map utf8_of l)) as Hb.
  { induction 1 as [|cp l Hcp _ IH]; [constructor|].
    cbn [flat_map]. apply Forall_app. split; [|exact IH].
    apply utf8_of_bytes. unfold scalar in Hcp. lia. }
  intros t Hs Ht. unfold utf8_string.
  rewrite utf16_compare_bytes by (apply Hb; assumption).
  clear Hb. revert t Ht.
  induction Hs as [|c s Hc Hs IH]; intros t Ht.
  - destruct Ht as [|d t Hd Ht]; [reflexivity|]. cbn [flat_map map].
    destruct (utf8_of_cons d) as (b & l & ->).
    destruct (utf16_of_cons d) as (b' & l' & ->). reflexivity.
  - destruct Ht as [|d t Hd Ht].
    + cbn [flat_map map].
      destruct (utf8_of_cons c) as (b & l & ->).
      destruct (utf16_of_cons c) as (b' & l' & ->). reflexivity.
    + cbn [flat_map]. rewrite !map_app.
      destruct (N.eq_dec c d) as [->|Hne].
      * rewrite !units_compare_app_same. apply IH. exact Ht.
      * rewrite (differ_app _ _ _ _ _ (differ8 c d Hc Hd Hne)).
        rewrite (differ_app _ _ _ _ _ (differ16 c d Hc Hd Hne)).
        reflexivity.
Qed.

(** A participant id of the supplementary planes (U+1F600) is sorted
    before one of the private use area (U+E000), as its surrogate pair
    is. *)
Lemma sort_supplementary_first :
  sort [utf8_string [57344%N]; utf8_string [128512%N]]
  = [utf8_string [128512%N]; utf8_string [57344%N]] /\
  String.leb (utf8_string [57344%N]) (utf8_string [128512%N]) = true.
Proof. vm_compute. split; reflexivity. Qed.

Lemma set_of_elem (xs : list string) (x : string) : x ∈ set_of xs <-> x ∈ xs.
Proof.
  induction xs as [|y xs IH]; simpl; [reflexivity|].
  rewrite !elem_of_cons, list_elem_of_filter, IH.
  destruct (String.eqb_spec y x) as [->|Hne]; simpl; [tauto|].
  split; [tauto|]. intros [-> | Hin]; [congruence | auto].
Qed.

Lemma set_of_NoDup (xs : list string) : NoDup (set_of xs).
Proof.
  induction xs as [|y xs IH]; simpl; [constructor|].
  apply NoDup_cons. split.
  - rewrite list_elem_of_filter. intros [Hne _].
    rewrite String.eqb_refl in Hne. exact Hne.
  - apply NoDup_filter. exact IH.
Qed.

(** X11 (the roster is canonical).  [_rosterCids] is sorted in the order
    of [sort()], has no duplicates and holds exactly the own [cid] and
    the keys of [peers]; so two groups with the same participants,
    whoever is "self" and in whatever order the members joined, have the
    same roster and the same roster hash.  The order of [sort()] is that
    of the UTF-16 code units: on the strings of two sequences of Unicode
    scalar values it holds exactly when the code units of the first do
    not compare above those of the second. *)
Theorem X11_roster_canonical `{Sodium} (g g' : Group) :
  StronglySorted str_le (_rosterCids g) /\
  NoDup (_rosterCids g) /\
  (forall c, In c (_rosterCids g)
             <-> c = cid g \/ In c (map fst (peers g))) /\
  ((forall c, (c = cid g \/ In c (map fst (peers g)))
              <-> (c = cid g' \/ In c (map fst (peers g')))) ->
   _rosterCids g' = _rosterCids g /\ _rosterHash g' = _rosterHash g) /\
  (forall s t, Forall scalar s -> Forall scalar t ->
               (str_le (utf8_string s) (utf8_string t)
                <-> units_compare (flat_map utf16_of s) (flat_map utf16_of t)
                    <> Gt)).
Proof.
  assert (forall s t, Forall scalar s -> Forall scalar t ->
            (str_le (utf8_string s) (utf8_string t)
             <-> units_compare (flat_map utf16_of s) (flat_map utf16_of t)
                 <> Gt)) as Horder.
  { intros s t Hs Ht. unfold str_le, utf16_leb.
    rewrite (utf16_compare_units s t Hs Ht).
    destruct (units_compare _ _); split; congruence. }
  assert (forall h : Group,
            StronglySorted str_le (_rosterCids h) /\
            NoDup (_rosterCids h) /\
            (forall c, In c (_rosterCids h)
                       <-> c = cid h \/ In c (map fst (peers h)))) as Hall.
  { intros h. unfold _rosterCids. split_and!.
    - apply sort_sorted.
    - rewrite sort_perm. apply set_of_NoDup.
    - intros c. rewrite <- list_elem_of_In, sort_perm, set_of_elem,
        elem_of_cons, <- list_elem_of_In. reflexivity. }
  destruct (Hall g) as (Hs & Hnd & Hel).
  destruct (Hall g') as (Hs' & Hnd' & Hel').
  split_and!; [exact Hs | exact Hnd | exact Hel | | exact Horder].
  intros Hsame.
  assert (_rosterCids g' = _rosterCids g) as Heq.
  { apply (StronglySorted_unique str_le); [exact Hs' | exact Hs |].
    apply NoDup_Permutation; [exact Hnd' | exact Hnd |].
    intros c. rewrite !list_elem_of_In, Hel, Hel', Hsame. reflexivity. }
  split; [exact Heq|]. unfold _rosterHash. rewrite Heq. reflexivity.
Qed.

Lemma X11_roster_canonical_witness :
  _rosterCids Sample.bob_view = ["ann"; "bob"; "host"]%string /\
  _rosterHash (H := Toy.sodium) Sample.bob_view
  = _rosterHash (H := Toy.sodium) (base Sample.host_two).
Proof.
  destruct (proj1 (proj2 (proj2 (proj2
              (X11_roster_canonical (H := Toy.sodium) (base Sample.host_two)
                 Sample.bob_view))))) as [Hc Hh].
  - intros c. simpl. intuition congruence.
  - split; [rewrite Hc; vm_compute; reflexivity | exact Hh].
Defined.

(** ** Handshake: short authentication string and signature *)

Lemma strip_trailing_eq_tail (s : string) (c : ascii) :
  is_pad c = false ->
  strip_trailing_eq (String.append s (String c "=="))
  = String.append s (String c EmptyString).
Proof.
  intros Hc. induction s as [|a s IH].
  - simpl. rewrite Hc. reflexivity.
  - rewrite !append_cons. cbn [strip_trailing_eq]. rewrite IH.
    destruct s; reflexivity.
Qed.

(** The SAS of four hash bytes: six base64 characters, no padding. *)
Lemma fp4_shape `{Sodium} (u : bytes) :
  hash_length ->
  String.length (fp4 u) = 6%nat /\
  forall c, In c (list_ascii_of_string (fp4 u)) -> is_pad c = false.
Proof.
  intros Hhash. unfold fp4.
  pose proof (Hhash 4%nat u None) as Hlen.
  destruct (crypto_generichash 4 u None) as [|a [|b [|c [|d [|? ?]]]]];
    try discriminate.
  cbn [b64]. unfold b64_quad. cbv zeta. cbn [Nat.leb].
  pose proof (Byte.to_N_bounded a) as Ha.
  pose proof (Byte.to_N_bounded b) as Hb.
  pose proof (Byte.to_N_bounded c) as Hc.
  pose proof (Byte.to_N_bounded d) as Hd.
  set (x := Byte.to_N a) in *. set (y := Byte.to_N b) in *.
  set (z := Byte.to_N c) in *. set (w := Byte.to_N d) in *.
  set (n := (x * 65536 + y * 256 + z)%N).
  set (m := (w * 65536 + 0 * 256 + 0)%N).
  destruct (b64_char_value (n / 262144)) as [_ P0]; [subst n; ndiv|].
  destruct (b64_char_value ((n / 4096) mod 64)) as [_ P1]; [subst n; ndiv|].
  destruct (b64_char_value ((n / 64) mod 64)) as [_ P2]; [subst n; ndiv|].
  destruct (b64_char_value (n mod 64)) as [_ P3]; [subst n; ndiv|].
  destruct (b64_char_value (m / 262144)) as [_ P4]; [subst m; ndiv|].
  destruct (b64_char_value ((m / 4096) mod 64)) as [_ P5]; [subst m; ndiv|].
  rewrite !append_cons, append_nil.
  set (c0 := b64_char (n / 262144)) in *.
  set (c1 := b64_char ((n / 4096) mod 64)) in *.
  set (c2 := b64_char ((n / 64) mod 64)) in *.
  set (c3 := b64_char (n mod 64)) in *.
  set (c4 := b64_char (m / 262144)) in *.
  set (c5 := b64_char ((m / 4096) mod 64)) in *.
  change (String c0 (String c1 (String c2 (String c3
            (String c4 (String c5 "=="))))))
    with (String.append
            (String c0 (String c1 (String c2 (String c3 (String c4 ""))))) 
            (String c5 "==")).
  rewrite (strip_trailing_eq_tail _ c5 P5).
  rewrite !append_cons, append_nil. split; [reflexivity|].
  simpl. intros ch Hin.
  repeat (destruct Hin as [<- | Hin]; [assumption|]). destruct Hin.
Qed.

(** X12 (SAS and signature).  For generated key records the two sides of
    a handshake stash the same short authentication string, six base64
    characters without padding, and the responder, given the signature
    the initiator stashed, sets [sigOK] to [true]. *)
Theorem X12_sas_and_signature_agree `{Sodium} `{Kem} (A B : LocalKeys)
        (room : option string) (coins coins' : bytes) :
  hash_length -> ecdh_agrees -> kem_correct -> sign_correct ->
  generated A -> generated B -> generated_id A ->
  exists peerB peerA skey sas,
    handshakeWith (peer_of B) A "init" room coins = (peerB, Returned skey) /\
    handshakeWith (with_ct (peer_of A) (p_ct peerB) (p_sig peerB)) B "resp"
                  room coins'
    = (peerA, Returned skey) /\
    p_sas peerB = Some sas /\ p_sas peerA = Some sas /\
    String.length sas = 6%nat /\
    (forall c, In c (list_ascii_of_string sas) -> is_pad c = false) /\
    p_sigOK peerA = Some true.
Proof.
  intros Hhash Hecdh Hkem Hsign [[sxa Hxa] _] [[sxb Hxb] [skb Hkb]] [si Hsi].
  destruct (Hecdh sxa sxb) as [[sharedX HX] Hagree].
  rewrite Hxa, Hxb in HX, Hagree. simpl in HX, Hagree.
  rewrite HX in Hagree. symmetry in Hagree.
  destruct (Hkem skb coins) as (ct & sharedK & Henc & Hdec).
  rewrite Hkb in Henc, Hdec. simpl in Henc, Hdec.
  set (transcript :=
         buildTranscript (local_pub A) (peer_pub (peer_of B)) "init"
                         (default "nt"%string room)).
  destruct (Hsign si transcript) as (sg & Hsg & Hok).
  rewrite Hsi in Hsg, Hok. cbn [fst snd] in Hsg, Hok.
  destruct (fp4_shape transcript Hhash) as [Hlen Hchars].
  assert (handshakeWith (peer_of B) A "init" room coins
          = (mkPeer (idPub B) (xPub B) (pqPub B) (Some ct) (Some sg) None
                    (Some (fp4 transcript)),
             Returned (deriveSharedKey sharedX sharedK transcript
                                       (default "nt"%string room))))
    as Hinit.
  { unfold handshakeWith. simpl. rewrite HX, Henc. simpl.
    unfold signDetached.
    match goal with
    | |- context [crypto_sign_detached ?t ?k] =>
        replace (crypto_sign_detached t k) with (Some sg)
          by (symmetry; exact Hsg)
    end.
    reflexivity. }
  eexists _, _, _, (fp4 transcript). split_and!.
  - exact Hinit.
  - cbn [p_ct p_sig]. unfold handshakeWith. simpl. rewrite Hagree, Hdec.
    simpl. reflexivity.
  - reflexivity.
  - reflexivity.
  - exact Hlen.
  - exact Hchars.
  - simpl. unfold verifyDetached.
    match goal with
    | |- context [crypto_sign_verify_detached ?a ?t ?k] =>
        replace (crypto_sign_verify_detached a t k) with (Some true)
          by (symmetry; exact Hok)
    end.
    reflexivity.
Qed.

Lemma toy_hash_len (n : nat) (d : bytes) (k : option bytes) :
  length (Toy.hash n d k) = n.
Proof. unfold Toy.hash. rewrite length_map, length_seq. reflexivity. Qed.

Lemma toy_sign_correct : sign_correct (H := Toy.sodium).
Proof.
  intros seed msg. simpl. unfold Toy.verify, Toy.sign.
  rewrite toy_sign_priv_length. cbn [Nat.eqb].
  eexists. split; [reflexivity|].
  unfold Toy.sign_priv.
  rewrite drop_app_length' by (symmetry; apply toy_hash_len).
  rewrite toy_hash_len. unfold Toy.sign_pub at 1. rewrite toy_hash_len.
  cbn [Nat.eqb andb]. rewrite toy_bytes_eqb_refl. reflexivity.
Qed.

Lemma X12_sas_and_signature_agree_witness :
  exists peerB peerA skey sas,
    handshakeWith (H := Toy.sodium) (H0 := Toy.kem)
                  (peer_of Sample.keysB) Sample.keysA "init"
                  (Some "r1"%string) (Toy.zeros 32)
    = (peerB, Returned skey) /\
    handshakeWith (H := Toy.sodium) (H0 := Toy.kem)
                  (with_ct (peer_of Sample.keysA) (p_ct peerB) (p_sig peerB))
                  Sample.keysB "resp" (Some "r1"%string) []
    = (peerA, Returned skey) /\
    p_sas peerB = Some sas /\ p_sas peerA = Some sas /\
    p_sigOK peerA = Some true.
Proof.
  destruct (X12_sas_and_signature_agree (H := Toy.sodium) (H0 := Toy.kem)
              Sample.keysA Sample.keysB (Some "r1"%string) (Toy.zeros 32) []
              toy_hash_length toy_ecdh_agrees toy_kem_correct
              toy_sign_correct
              (createLocalKeys_generated (H := Toy.sodium) (H0 := Toy.kem) _)
              (createLocalKeys_generated (H := Toy.sodium) (H0 := Toy.kem) _))
    as (peerB & peerA & skey & sas & Hi & Hr & Hs1 & Hs2 & _ & _ & Hok).
  - eexists. reflexivity.
  - exists peerB, peerA, skey, sas. split_and!; assumption.
Defined.

(** X13 (the responder's checks).  As responder [handshakeWith] throws
    when the peer record has no [ct], whatever else it holds, and leaves
    the record as it was.  The signature is advisory: if the call returns
    a key for a peer record, it returns the same key and the same SAS for
    that record with any signature put in, and only [sigOK] tells them
    apart: it is [true] when the signature verifies and [false] when it
    does not or when the check itself throws. *)
Theorem X13_responder_checks `{Sodium} `{Kem} (p : Peer) (local : LocalKeys)
        (role : string) (room : option string) (coins sig : bytes) :
  role <> "init"%string ->
  (p_ct p = None -> handshakeWith p local role room coins = (p, Thrown)) /\
  (forall peer' key,
     handshakeWith p local role room coins = (peer', Returned key) ->
     exists peer2,
       handshakeWith (with_sig p (Some sig)) local role room coins
       = (peer2, Returned key) /\
       p_sas peer2 = p_sas peer' /\
       p_sigOK peer2
       = Some (match verifyDetached sig
                       (buildTranscript (local_pub local) (peer_pub p) role
                                        (default "nt"%string room))
                       (p_idPub p) with
               | Some b => b
               | None => false
               end)).
Proof.
  intros Hrole.
  assert (String.eqb role "init" = false) as Hne
    by (apply String.eqb_neq; exact Hrole).
  split.
  - intros Hct. unfold handshakeWith. rewrite Hne, Hct.
    destruct (crypto_scalarmult _ _); reflexivity.
  - intros peer' key. unfold handshakeWith. rewrite !Hne.
    cbn [with_sig p_xPub p_ct p_pqPub].
    destruct (crypto_scalarmult _ _) as [sharedX|]; [|discriminate].
    destruct (p_ct p) as [ct|]; [|discriminate].
    destruct (kem_decap ct (pqPriv local)) as [sharedK|]; [|discriminate].
    cbn [p_sig]. intros Hret.
    eexists. split; [|split].
    + f_equal. injection Hret as _ <-. reflexivity.
    + injection Hret as <- _. destruct (p_sig p); reflexivity.
    + reflexivity.
Qed.

Lemma X13_responder_checks_witness :
  handshakeWith (H := Toy.sodium) (H0 := Toy.kem) (peer_of Sample.keysA)
                Sample.keysB "resp" (Some "r1"%string) []
  = (peer_of Sample.keysA, Thrown).
Proof.
  apply (proj1 (X13_responder_checks (H := Toy.sodium) (H0 := Toy.kem)
                  (peer_of Sample.keysA) Sample.keysB "resp"
                  (Some "r1"%string) [] [] ltac:(discriminate))).
  reflexivity.
Defined.

(* ===================================================================== *)
(** ** Capsule: from [createCapsule] to [parseCapsule] *)
(* ===================================================================== *)

(** The padding goes behind the three members and changes none of them. *)
Lemma capsule_padded_get (now u : Z) (r : rng) (room c : string)
      (x_pub pq_pub sig id_pub : bytes) (k : string) :
  String.eqb "pad" k = false ->
  get k (VObj (capsule_padded now u r room c x_pub pq_pub sig id_pub))
  = get k (VObj (capsule_unpadded now room c x_pub pq_pub sig id_pub)).
Proof.
  intros Hk. unfold capsule_padded.
  destruct (0 <? _); [|reflexivity].
  unfold capsule_unpadded. cbn [assoc_set String.eqb Ascii.eqb Bool.eqb].
  cbn [get assoc_get].
  destruct (String.eqb k "payload"); [reflexivity|].
  destruct (String.eqb k "id"); [reflexivity|].
  destruct (String.eqb k "sig"); [reflexivity|].
  rewrite String.eqb_sym, Hk. reflexivity.
Qed.

(** X14 (a capsule is read back while it is fresh).  For identity keys
    from [crypto_sign_keypair], [createCapsule] signs and returns; on a
    platform that reads the capsule text back and when the text is at
    most 4096 bytes long, [parseCapsule] on what [createCapsule] returned
    at time [now] gives, at every time [t] with
    [now <= t <= now + 120000], the invitation with the room, the
    participant id and the three public keys that went in, labelled with
    the current version and algorithm; at every other time it gives
    [null]. *)
Theorem X14_capsule_round_trip `{Sodium} `{Platform} (now u t : Z) (r : rng)
        (room c : string) (x_pub pq_pub seed : bytes) :
  let id_pub := fst (crypto_sign_keypair seed) in
  let id_priv := snd (crypto_sign_keypair seed) in
  sign_correct ->
  exists sig out,
    signDetached
      (buildCapsuleTranscript (capsule_payload now room c x_pub pq_pub))
      id_priv = Some sig /\
    createCapsule now u r room x_pub pq_pub c id_priv id_pub = Returned out /\
    let padded := capsule_padded now u r room c x_pub pq_pub sig id_pub in
    (reads_back (VObj padded) ->
     Z.of_nat (length (_u8 (JSON_stringify (VObj padded))))
     <= MAX_CAPSULE_BYTES ->
     parseCapsule (VStr out) t
     = Returned (if (now <=? t) && (t <=? now + CAPSULE_TTL_MS)
                 then Some (mkInvitation (VStr room) (VStr c) x_pub pq_pub
                                         id_pub
                                         (VStr CAPSULE_VER)
                                         (VStr CAPSULE_ALG))
                 else None)).
Proof.
  intros id_pub id_priv Hsign.
  destruct (Hsign seed
              (buildCapsuleTranscript
                 (capsule_payload now room c x_pub pq_pub)))
    as (sig & Hsig & Hverify).
  fold id_priv in Hsig. fold id_pub in Hverify.
  exists sig,
    (b64 (_u8 (JSON_stringify
                 (VObj (capsule_padded now u r room c x_pub pq_pub
                                       sig id_pub))))).
  split; [exact Hsig|]. split.
  { unfold createCapsule, signDetached. rewrite Hsig. reflexivity. }
  intros padded (Htrim & Hdec & Hparse) Hsize.
  unfold parseCapsule, parseCapsule_body. fold padded.
  rewrite Htrim, u8_b64. cbn [call mbind completion_bind].
  destruct (Z.ltb_spec MAX_CAPSULE_BYTES
              (Z.of_nat (length (_u8 (JSON_stringify (VObj padded))))));
    [lia|].
  rewrite Hdec, Hparse. cbn [call mbind completion_bind].
  change (truthy (VObj padded)) with true.
  change (typeof_object (VObj padded)) with true.
  cbn [negb orb].
  subst padded. rewrite !capsule_padded_get by reflexivity.
  set (payload := capsule_payload now room c x_pub pq_pub) in *.
  change (get "payload" (VObj (capsule_unpadded now room c x_pub pq_pub
                                                sig id_pub)))
    with payload.
  change (get "id" (VObj (capsule_unpadded now room c x_pub pq_pub
                                           sig id_pub)))
    with (VStr (b64 id_pub)).
  change (get "sig" (VObj (capsule_unpadded now room c x_pub pq_pub
                                            sig id_pub)))
    with (VStr (b64 sig)).
  change (truthy payload) with true.
  change (typeof_object payload) with true.
  cbn [negb orb].
  change (get "exp" payload) with (VNum (now + CAPSULE_TTL_MS)).
  change (get "iat" payload) with (VNum now).
  change (get "x" payload) with (VStr (b64 x_pub)).
  change (get "k" payload) with (VStr (b64 pq_pub)).
  change (get "room" payload) with (VStr room).
  change (get "cid" payload) with (VStr c).
  change (get "v" payload) with (VStr CAPSULE_VER).
  change (get "alg" payload) with (VStr CAPSULE_ALG).
  rewrite !u8_b64.
  change (or_else (VStr CAPSULE_VER) (VStr "legacy")) with (VStr CAPSULE_VER).
  change (or_else (VStr CAPSULE_ALG) (VStr "legacy")) with (VStr CAPSULE_ALG).
  replace (now + CAPSULE_TTL_MS - now) with CAPSULE_TTL_MS by lia.
  change (CAPSULE_TTL_MS * 2 <? CAPSULE_TTL_MS) with false.
  rewrite orb_false_r.
  destruct (Z.ltb_spec (now + CAPSULE_TTL_MS) t),
           (Z.ltb_spec t now),
           (Z.leb_spec now t),
           (Z.leb_spec t (now + CAPSULE_TTL_MS));
    try lia; try reflexivity.
  cbn [call mbind completion_bind]. unfold verifyDetached.
  rewrite Hverify. reflexivity.
Qed.

Lemma X14_capsule_round_trip_witness :
  createCapsule (H := Toy.sodium) Toy.capsule_now 0 Toy.rng0 "r1"
                (Toy.zeros 32) (Toy.zeros 8) "cid"
                (Toy.sign_priv Toy.key32) (Toy.sign_pub Toy.key32)
  = Returned Toy.capsule_str /\
  parseCapsule (H := Toy.sodium) (H0 := Toy.platform [Toy.capsule_doc])
               (VStr Toy.capsule_str) (Toy.capsule_now + 1000)
  = Returned (Some (mkInvitation (VStr "r1") (VStr "cid") (Toy.zeros 32)
                                 (Toy.zeros 8) (Toy.sign_pub Toy.key32)
                                 (VStr CAPSULE_VER) (VStr CAPSULE_ALG))).
Proof.
  destruct (X14_capsule_round_trip (H := Toy.sodium)
              (H0 := Toy.platform [Toy.capsule_doc])
              Toy.capsule_now 0 (Toy.capsule_now + 1000) Toy.rng0 "r1" "cid"
              (Toy.zeros 32) (Toy.zeros 8) Toy.key32 toy_sign_correct)
    as (sig & out & Hsig & Hout & Hparse).
  assert (sig = Toy.capsule_sig) as ->.
  { vm_compute in Hsig. injection Hsig as <-. vm_compute. reflexivity. }
  assert (out = Toy.capsule_str) as ->.
  { cbn [crypto_sign_keypair Toy.sodium fst snd] in Hout.
    unfold Toy.capsule_str. rewrite Hout. reflexivity. }
  split; [exact Hout|].
  apply Hparse.
  - vm_compute. split_and!; reflexivity.
  - vm_compute. discriminate.
Defined.

(** X15 (what an accepted capsule went through).  When [parseCapsule]
    returns an invitation, its argument was a string whose trimmed text is
    base64 of at most 4096 bytes that parse to a document with a number
    [exp] not before the clock and, if [iat] is a number, [iat] not after
    the clock and at most 240 s before [exp]; the signature in [sig]
    verified over the transcript of the payload under the key in [id], and
    the invitation holds that key, the decoded [x] and [k], the payload's
    [room] and [cid], and a version and an algorithm that are never
    falsy. *)
Theorem X15_parseCapsule_sound `{Sodium} `{Platform} (str : value) (now : Z)
        (inv : Invitation) :
  parseCapsule str now = Returned (Some inv) ->
  exists s bs obj exp_n sigb,
    str = VStr s /\
    u8 (VStr (trim s)) = Some bs /\
    Z.of_nat (length bs) <= MAX_CAPSULE_BYTES /\
    JSON_parse (TextDecoder_decode bs) = Some obj /\
    get "exp" (get "payload" obj) = VNum exp_n /\
    now <= exp_n /\
    (forall iat_n, get "iat" (get "payload" obj) = VNum iat_n ->
                   iat_n <= now /\ exp_n - iat_n <= 2 * CAPSULE_TTL_MS) /\
    u8 (get "id" obj) = Some (inv_idPub inv) /\
    u8 (get "sig" obj) = Some sigb /\
    verifyDetached sigb (buildCapsuleTranscript (get "payload" obj))
                   (inv_idPub inv) = Some true /\
    u8 (get "x" (get "payload" obj)) = Some (inv_xPub inv) /\
    u8 (get "k" (get "payload" obj)) = Some (inv_pqPub inv) /\
    inv_room inv = get "room" (get "payload" obj) /\
    inv_cid inv = get "cid" (get "payload" obj) /\
    truthy (inv_ver inv) = true /\ truthy (inv_alg inv) = true.
Proof.
  assert (forall a, truthy (or_else a (VStr "legacy")) = true) as Hor.
  { intros a. unfold or_else. destruct (truthy a) eqn:Ha; [exact Ha|].
    reflexivity. }
  unfold parseCapsule, parseCapsule_body.
  destruct str as [| |b|n|s|xs|fs]; try discriminate.
  destruct (u8 (VStr (trim s))) as [bs|] eqn:Hbs; [|discriminate].
  cbn [call mbind completion_bind].
  destruct (Z.ltb_spec MAX_CAPSULE_BYTES (Z.of_nat (length bs)));
    [discriminate|].
  destruct (JSON_parse (TextDecoder_decode bs)) as [obj|] eqn:Hobj;
    [|discriminate].
  cbn [call mbind completion_bind].
  destruct (negb (truthy obj) || negb (typeof_object obj)); [discriminate|].
  destruct (negb (truthy (get "payload" obj))
            || negb (typeof_object (get "payload" obj))); [discriminate|].
  destruct (get "exp" (get "payload" obj)) as [| |b|exp_n|e|xs|fs] eqn:Hexp;
    try discriminate.
  destruct (Z.ltb_spec exp_n now); [discriminate|].
  destruct (match get "iat" (get "payload" obj) with
            | VNum iat_n =>
                (now <? iat_n) || (CAPSULE_TTL_MS * 2 <? exp_n - iat_n)
            | _ => false
            end) eqn:Hiat; [discriminate|].
  destruct (u8 (get "id" obj)) as [idb|] eqn:Hid; [|discriminate].
  cbn [call mbind completion_bind].
  destruct (u8 (get "sig" obj)) as [sigb|] eqn:Hsig; [|discriminate].
  cbn [call mbind completion_bind].
  destruct (verifyDetached sigb _ idb) as [[|]|] eqn:Hver; try discriminate.
  cbn [call mbind completion_bind negb].
  destruct (u8 (get "x" (get "payload" obj))) as [xb|] eqn:Hx; [|discriminate].
  cbn [call mbind completion_bind].
  destruct (u8 (get "k" (get "payload" obj))) as [kb|] eqn:Hk; [|discriminate].
  cbn [call mbind completion_bind mret completion_ret].
  intros [= <-]. cbn [inv_idPub inv_xPub inv_pqPub inv_room inv_cid inv_ver
                      inv_alg].
  exists s, bs, obj, exp_n, sigb.
  split_and!; try reflexivity; try assumption; try apply Hor.
  intros iat_n Hn. rewrite Hn in Hiat.
  apply orb_false_iff in Hiat as [Ha Hb].
  apply Z.ltb_ge in Ha, Hb. lia.
Qed.

Lemma X15_parseCapsule_sound_witness :
  exists s bs obj exp_n sigb,
    VStr Toy.capsule_str = VStr s /\
    u8 (VStr s) = Some bs /\
    Z.of_nat (length bs) <= MAX_CAPSULE_BYTES /\
    Toy.parse_known [Toy.capsule_doc] (string_of_list_byte bs) = Some obj /\
    get "exp" (get "payload" obj) = VNum exp_n /\
    Toy.capsule_now + 1000 <= exp_n /\
    u8 (get "sig" obj) = Some sigb /\
    Toy.verify sigb
      (buildCapsuleTranscript (get "payload" obj))
      (Toy.sign_pub Toy.key32) = Some true.
Proof.
  destruct (X15_parseCapsule_sound (H := Toy.sodium)
              (H0 := Toy.platform [Toy.capsule_doc])
              (VStr Toy.capsule_str) (Toy.capsule_now + 1000)
              (mkInvitation (VStr "r1") (VStr "cid") (Toy.zeros 32)
                            (Toy.zeros 8) (Toy.sign_pub Toy.key32)
                            (VStr CAPSULE_VER) (VStr CAPSULE_ALG)))
    as (s & bs & obj & exp_n & sigb & Hs & Hbs & Hsz & Hobj & Hexp & Hnow
        & _ & _ & Hsig & Hver & _).
  - vm_compute. reflexivity.
  - exists s, bs, obj, exp_n, sigb. split_and!; assumption.
Defined.

(* ===================================================================== *)
(** ** Padding and the length of what is sent *)
(* ===================================================================== *)

Lemma js_length_append (s t : string) :
  js_length (String.append s t) = (js_length s + js_length t)%nat.
Proof.
  induction s as [|c s IH]; [reflexivity|].
  rewrite append_cons. cbn [js_length]. rewrite IH. lia.
Qed.

Lemma JSON_stringify_obj (l : list (string * value)) :
  JSON_stringify (VObj l)
  = String.append "{" (String.append (obj_props l true) "}").
Proof.
  reflexivity.
Qed.

Lemma js_length_quote (s : string) :
  js_length (quote s) = (2 + js_length (quote_body s))%nat.
Proof.
  unfold quote. rewrite !js_length_append.
  change (js_length dquote) with 1%nat. lia.
Qed.

(** A member appended to an object is printed behind the others, after a
    comma if one of them is printed. *)
Lemma obj_props_app_length (l : list (string * value)) (k p : string)
      (first : bool) :
  js_length (obj_props (l ++ [(k, VStr p)]) first)
  = (js_length (obj_props l first)
     + (if first && negb (visible l) then 0 else 1)
     + js_length (quote k) + 1 + js_length (quote p))%nat.
Proof.
  revert first. induction l as [|[k' x] l IH]; intros first.
  - cbn [app obj_props JSON_stringify visible existsb negb].
    rewrite !js_length_append, andb_true_r.
    destruct first; cbn [js_length]; change (utf16_units ":") with 1%nat;
      change (utf16_units ",") with 1%nat; lia.
  - cbn [app obj_props].
    destruct x;
      try (rewrite !js_length_append, IH;
           cbn [visible existsb snd orb negb andb];
           rewrite andb_false_r; lia).
    rewrite IH. reflexivity.
Qed.

Lemma assoc_set_fresh (k : string) (v : value) (l : list (string * value)) :
  has_key k (VObj l) = false -> assoc_set k v l = l ++ [(k, v)].
Proof.
  cbn [has_key].
  induction l as [|[k' x] l IH]; [reflexivity|].
  cbn [existsb fst assoc_set app]. intros Hk.
  apply orb_false_iff in Hk as [Hk Hl].
  rewrite Hk, IH by exact Hl. reflexivity.
Qed.

Lemma utf16_units_low (c : ascii) :
  (N_of_ascii c < 128)%N -> utf16_units c = 1%nat.
Proof.
  intros Hc. unfold utf16_units. cbv zeta.
  destruct (N.ltb_spec (N_of_ascii c) 128); [reflexivity | lia].
Qed.

(** Printable ASCII is written as it is, but for the quote and the
    backslash, which get a backslash in front. *)
Lemma js_length_quote_body (s : string) :
  (forall c, In c (list_ascii_of_string s) -> (32 <= N_of_ascii c < 128)%N) ->
  js_length (quote_body s) = (String.length s + escapes s)%nat.
Proof.
  unfold escapes.
  induction s as [|c s IH]; intros Hs; [reflexivity|].
  cbn [quote_body String.length list_ascii_of_string].
  rewrite js_length_append, IH
    by (intros c' Hc'; apply Hs; right; exact Hc').
  rewrite filter_cons.
  pose proof (Hs c (or_introl eq_refl)) as Hc.
  unfold quote_char. cbv zeta.
  destruct (N.eqb_spec (N_of_ascii c) 34) as [E34|N34].
  { rewrite decide_True by exact I. cbn [length js_length].
    rewrite !utf16_units_low by (vm_compute; reflexivity). lia. }
  destruct (N.eqb_spec (N_of_ascii c) 92) as [E92|N92].
  { rewrite decide_True by exact I. cbn [length js_length].
    rewrite !utf16_units_low by (vm_compute; reflexivity). lia. }
  rewrite decide_False by (intros []).
  destruct (N.eqb_spec (N_of_ascii c) 8); [lia|].
  destruct (N.eqb_spec (N_of_ascii c) 12); [lia|].
  destruct (N.eqb_spec (N_of_ascii c) 10); [lia|].
  destruct (N.eqb_spec (N_of_ascii c) 13); [lia|].
  destruct (N.eqb_spec (N_of_ascii c) 9); [lia|].
  destruct (N.ltb_spec (N_of_ascii c) 32); [lia|].
  cbn [js_length]. rewrite utf16_units_low by lia. lia.
Qed.

(** What a [pad] member adds to the text of an object that has none and
    prints some member: a comma, the quoted name, a colon and the quoted
    padding. *)
Lemma pad_member_length (l : list (string * value)) (p : string) :
  visible l = true ->
  has_key "pad" (VObj l) = false ->
  (forall c, In c (list_ascii_of_string p) -> (32 <= N_of_ascii c < 128)%N) ->
  js_length (JSON_stringify (VObj (assoc_set "pad" (VStr p) l)))
  = (js_length (JSON_stringify (VObj l)) + 9 + String.length p + escapes p)%nat.
Proof.
  intros Hvis Hkey Hp.
  rewrite assoc_set_fresh by exact Hkey.
  rewrite !JSON_stringify_obj, !js_length_append, obj_props_app_length.
  rewrite Hvis, (js_length_quote p), js_length_quote_body by exact Hp.
  rewrite andb_false_r.
  change (js_length (quote "pad")) with 5%nat.
  change (js_length "{") with 1%nat. change (js_length "}") with 1%nat.
  lia.
Qed.

Lemma randomString_length (len : nat) (r : rng) :
  String.length (fst (randomString len r)) = len.
Proof.
  unfold randomString. simpl.
  rewrite string_of_list_ascii_length, length_map. apply tape_slice_length.
Qed.

(** [randomString] is made of the letters ["a"] to ["z"]. *)
Lemma randomString_chars (len : nat) (r : rng) (ch : ascii) :
  In ch (list_ascii_of_string (fst (randomString len r))) ->
  (97 <= N_of_ascii ch <= 122)%N.
Proof.
  unfold randomString. simpl.
  rewrite list_ascii_of_string_of_list_ascii.
  intros Hin. apply in_map_iff in Hin as (v & <- & _).
  pose proof (N.mod_upper_bound (Byte.to_N v) 26 ltac:(discriminate)) as Hm.
  set (k := (Byte.to_N v mod 26)%N) in *. clearbody k.
  rewrite N_ascii_embedding by lia. lia.
Qed.

Lemma escapes_none (s : string) :
  (forall c, In c (list_ascii_of_string s) ->
             N_of_ascii c <> 34%N /\ N_of_ascii c <> 92%N) ->
  escapes s = 0%nat.
Proof.
  unfold escapes.
  induction (list_ascii_of_string s) as [|c l IH]; intros Hs; [reflexivity|].
  destruct (Hs c (or_introl eq_refl)) as [H34 H92].
  rewrite filter_cons, decide_False.
  - apply IH. intros c' Hc'. apply Hs. right. exact Hc'.
  - apply N.eqb_neq in H34, H92. rewrite H34, H92. intros [].
Qed.

(** X16 (the length of a padded capsule).  When the JSON text of the
    capsule is shorter than the target, the text of the padded capsule is
    nine characters longer than the target, plus one for every quote and
    backslash among the padding characters; when it is not shorter,
    nothing changes.  In both cases the text has at least 512
    characters.  [sig] is the signature in the capsule, whatever it is. *)
Theorem X16_padded_capsule_length (now u : Z) (r : rng)
        (room c : string) (x_pub pq_pub sig id_pub : bytes) :
  let unpadded := capsule_unpadded now room c x_pub pq_pub sig id_pub in
  let padded := capsule_padded now u r room c x_pub pq_pub sig id_pub in
  let j := Z.of_nat (js_length (JSON_stringify (VObj unpadded))) in
  let len := Z.of_nat (js_length (JSON_stringify (VObj padded))) in
  let target := capsule_target u in
  (j < target ->
   len = target + 9
         + Z.of_nat (escapes (fst (randomPad (Z.to_nat (target - j)) r)))) /\
  (target <= j -> len = j) /\
  512 <= len.
Proof.
  intros unpadded padded j len target.
  pose proof (capsule_target_range u) as Ht. fold target in Ht.
  assert (j < target ->
          len = target + 9
                + Z.of_nat (escapes (fst (randomPad (Z.to_nat (target - j)) r))))
    as Hshort.
  { intros Hlt. subst len padded. unfold capsule_padded.
    fold unpadded. fold target. fold j.
    destruct (Z.ltb_spec 0 (target - j)); [|lia].
    rewrite pad_member_length.
    - fold j. rewrite randomPad_length. lia.
    - reflexivity.
    - reflexivity.
    - intros ch Hch. apply randomPad_chars in Hch. lia. }
  assert (target <= j -> len = j) as Hlong.
  { intros Hge. subst len padded. unfold capsule_padded.
    fold unpadded. fold target. fold j.
    destruct (Z.ltb_spec 0 (target - j)); [lia|reflexivity]. }
  split; [exact Hshort|]. split; [exact Hlong|].
  destruct (Z.lt_ge_cases j target) as [Hlt|Hge].
  - rewrite (Hshort Hlt). lia.
  - rewrite (Hlong Hge). lia.
Qed.

Lemma X16_padded_capsule_length_witness :
  Z.of_nat (js_length (JSON_stringify Toy.capsule_doc))
  = 521 + Z.of_nat (escapes (fst (randomPad 170 Toy.rng0))).
Proof.
  apply (proj1 (X16_padded_capsule_length
                  Toy.capsule_now 0 Toy.rng0 "r1" "cid"
                  (Toy.zeros 32) (Toy.zeros 8) Toy.capsule_sig
                  (Toy.sign_pub Toy.key32))).
  vm_compute. reflexivity.
Defined.

(** X17 ([sendMessage] on the wire).  Without a socket nothing is sent.
    With one, for an object that prints some member and has no [pad],
    the target is between 3000 and 5000; when the JSON text of the object
    plus eight is below the target, what is sent is one character longer
    than the target, and otherwise it is the JSON text of the object as it
    came. *)
Theorem X17_sendMessage_length (obj : list (string * value)) (u : Z)
        (r : rng) :
  visible obj = true ->
  has_key "pad" (VObj obj) = false ->
  let j := Z.of_nat (js_length (JSON_stringify (VObj obj))) in
  let target :=
    MIN_PACKET_SIZE
    + Math_random_floor u (MAX_PACKET_SIZE - MIN_PACKET_SIZE + 1) in
  sendMessage false obj u r = None /\
  3000 <= target <= 5000 /\
  exists wire,
    sendMessage true obj u r = Some wire /\
    (j + 8 < target -> Z.of_nat (js_length wire) = target + 1) /\
    (target <= j + 8 -> wire = JSON_stringify (VObj obj)).
Proof.
  intros Hvis Hkey j target.
  split; [reflexivity|]. split.
  { subst target. unfold MIN_PACKET_SIZE, MAX_PACKET_SIZE.
    pose proof (Math_random_floor_range u (5000 - 3000 + 1) eq_refl). lia. }
  unfold sendMessage. cbn [negb]. fold j. fold target.
  eexists. split; [reflexivity|]. split.
  - intros Hlt.
    destruct (Z.ltb_spec 0 (target - (j + 8))); [|lia].
    rewrite pad_member_length; try assumption.
    + fold j. rewrite randomString_length, escapes_none.
      * lia.
      * intros ch Hch. apply randomString_chars in Hch. lia.
    + intros ch Hch. apply randomString_chars in Hch. lia.
  - intros Hge.
    destruct (Z.ltb_spec 0 (target - (j + 8))); [lia|reflexivity].
Qed.

Lemma X17_sendMessage_length_witness :
  exists wire,
    sendMessage true [("t"%string, VStr "gk_req"); ("cid"%string, VStr "g1");
                      ("to"%string, VStr "h1")] 0 Toy.rng0 = Some wire /\
    Z.of_nat (js_length wire) = 3001.
Proof.
  destruct (X17_sendMessage_length
              [("t"%string, VStr "gk_req"); ("cid"%string, VStr "g1");
               ("to"%string, VStr "h1")] 0 Toy.rng0 eq_refl eq_refl)
    as (_ & _ & wire & Hsend & Hlen & _).
  exists wire. split; [exact Hsend|].
  apply Hlen. vm_compute. reflexivity.
Defined.

(* ===================================================================== *)
(** ** The rekey throttle of the host *)
(* ===================================================================== *)

Lemma safeRekey_cases `{Sodium} (last : Z) (g : option MlsGroup) (now : Z)
      (r : rng) :
  (fst (fst (fst (safeRekey (mkHost last g) now r))) = mkHost last g /\
   snd (fst (safeRekey (mkHost last g) now r)) = []) \/
  (last + 800 <= now /\
   lastRekeyAt (fst (fst (fst (safeRekey (mkHost last g) now r)))) = now).
Proof.
  unfold safeRekey. cbn [grp lastRekeyAt].
  destruct g as [g|]; [|left; split; reflexivity].
  unfold REKEY_MIN_MS.
  destruct (Z.ltb_spec (now - last) 800); [left; split; reflexivity|].
  right. destruct (rekey g r) as [[[g' r'] evs] c].
  split; [lia | reflexivity].
Qed.

Lemma rekey_times_spaced `{Sodium} (calls : list (Z * option MlsGroup)) :
  forall (last : Z) (r : rng),
    Forall (fun t => last + 800 <= t) (rekey_times last calls r) /\
    StronglySorted (fun a b => a + 800 <= b) (rekey_times last calls r).
Proof.
  induction calls as [|[now g] rest IH]; intros last r.
  - split; constructor.
  - cbn [rekey_times].
    pose proof (safeRekey_cases last g now r) as Hc.
    destruct (safeRekey (mkHost last g) now r) as [[[h' r'] evs] c].
    cbn [fst snd] in Hc.
    destruct (IH (lastRekeyAt h') r') as [Hlow Hsort].
    destruct Hc as [[-> ->]|[Hnow Hlast]].
    + split; assumption.
    + rewrite Hlast in Hlow, Hsort |- *.
      destruct evs as [|ev evs].
      * split; [|exact Hsort].
        eapply Forall_impl; [exact Hlow|]. cbv beta. intros t Ht. lia.
      * split.
        -- constructor; [exact Hnow|].
           eapply Forall_impl; [exact Hlow|]. cbv beta. intros t Ht. lia.
        -- constructor; assumption.
Qed.

(** X18 (the rekey throttle).  Over any run of [safeRekey] calls, with
    whatever group [grp] holds at each call and whatever the clock reads,
    every rekey comes at least 800 ms after the initial [lastRekeyAt] and
    any two rekeys are at least 800 ms apart, the later one later; and a
    call on an initiator's group at least 800 ms after [lastRekeyAt] does
    rekey. *)
Theorem X18_safeRekey_throttle `{Sodium} (last : Z)
        (calls : list (Z * option MlsGroup)) (r : rng) :
  let ts := rekey_times last calls r in
  Forall (fun t => last + 800 <= t) ts /\
  (forall i j a b, (i < j)%nat -> ts !! i = Some a -> ts !! j = Some b ->
                   a + 800 <= b) /\
  (forall now g rest,
     calls = (now, Some g) :: rest -> isInitiator g = true ->
     last + 800 <= now -> exists ts', ts = now :: ts').
Proof.
  intros ts. destruct (rekey_times_spaced calls last r) as [Hlow Hsort].
  fold ts in Hlow, Hsort.
  split; [exact Hlow|]. split.
  - clearbody ts. clear Hlow. induction Hsort as [|t ts Hs IH Hall].
    + intros i j a b _ Hi. discriminate.
    + intros [|i] [|j] a b Hij Hi Hj; try lia.
      * cbn in Hi, Hj. injection Hi as <-.
        rewrite Forall_forall in Hall. apply Hall.
        apply list_elem_of_lookup. eauto.
      * cbn in Hi, Hj. apply (IH i j); [lia | assumption | assumption].
  - intros now g rest -> Hinit Hnow. subst ts.
    cbn [rekey_times]. unfold safeRekey. cbn [grp lastRekeyAt].
    unfold REKEY_MIN_MS.
    destruct (Z.ltb_spec (now - last) 800); [lia|].
    unfold rekey. rewrite Hinit. cbn [negb].
    destruct (randombytes_buf 32 r) as [gk r1].
    destruct (rekey_loop _ _ _ _ _ _) as [[r2 evs] c].
    eexists. reflexivity.
Qed.

Lemma X18_safeRekey_throttle_witness :
  rekey_times (H := Toy.sodium) 0
              [(1000, Some Sample.host_two); (1500, Some Sample.host_two);
               (1799, None); (1800, Some Sample.host_two);
               (2650, Some Sample.ann0); (2700, Some Sample.host_two)]
              Toy.rng0
  = [1000; 1800] /\ 1000 + 800 <= 1800.
Proof.
  split; [vm_compute; reflexivity|].
  apply (proj1 (proj2 (X18_safeRekey_throttle (H := Toy.sodium) 0
                         [(1000, Some Sample.host_two);
                          (1500, Some Sample.host_two);
                          (1799, None); (1800, Some Sample.host_two);
                          (2650, Some Sample.ann0);
                          (2700, Some Sample.host_two)]
                         Toy.rng0)) 0%nat 1%nat);
    [lia | vm_compute; reflexivity | vm_compute; reflexivity].
Defined.

(* ===================================================================== *)
(** ** What the hashed and signed texts determine *)
(* ===================================================================== *)

Lemma chars_append (s t : string) :
  list_ascii_of_string (String.append s t)
  = list_ascii_of_string s ++ list_ascii_of_string t.
Proof.
  induction s as [|c s IH]; [reflexivity|].
  rewrite append_cons. cbn [list_ascii_of_string app]. rewrite IH. reflexivity.
Qed.

Lemma chars_inj (s t : string) :
  list_ascii_of_string s = list_ascii_of_string t -> s = t.
Proof.
  intros Heq.
  rewrite <- (string_of_list_ascii_of_string s),
          <- (string_of_list_ascii_of_string t), Heq.
  reflexivity.
Qed.

Lemma _u8_inj (s t : string) : _u8 s = _u8 t -> s = t.
Proof.
  unfold _u8. intros Heq.
  rewrite <- (string_of_list_byte_of_string s),
          <- (string_of_list_byte_of_string t), Heq.
  reflexivity.
Qed.

Lemma b64_inj (u v : bytes) : b64 u = b64 v -> u = v.
Proof.
  intros Heq. pose proof (from_base64_b64 u) as Hu.
  rewrite Heq, from_base64_b64 in Hu. congruence.
Qed.

(** Two texts that end in a field without a bar behind a bar agree in the
    field and in what is before the bar. *)
Lemma split_last (a b x y : list ascii) :
  ~ In "|"%char x -> ~ In "|"%char y ->
  a ++ "|"%char :: x = b ++ "|"%char :: y -> a = b /\ x = y.
Proof.
  intros Hx Hy. revert b.
  induction a as [|c a IH]; intros [|c' b] Heq; cbn [app] in Heq.
  - injection Heq as ->. split; reflexivity.
  - injection Heq as <- ->. exfalso. apply Hx. apply in_elt.
  - injection Heq as -> <-. exfalso. apply Hy. apply in_elt.
  - injection Heq as -> Heq. destruct (IH b Heq) as [-> ->].
    split; reflexivity.
Qed.

Lemma bar_fields_snoc (xs : list (list ascii)) (x : list ascii) :
  bar_fields (xs ++ [x]) = bar_fields xs ++ "|"%char :: x.
Proof.
  unfold bar_fields. rewrite map_app, concat_app. cbn [map concat].
  rewrite app_nil_r. reflexivity.
Qed.

(** A text that ends in a known number of barred fields, none of which
    holds a bar, determines the fields and what is before them. *)
Lemma bar_fields_inj (xs : list (list ascii)) :
  forall (ys : list (list ascii)) (r r' : list ascii),
    length xs = length ys ->
    Forall (fun x => ~ In "|"%char x) xs ->
    Forall (fun y => ~ In "|"%char y) ys ->
    r ++ bar_fields xs = r' ++ bar_fields ys ->
    r = r' /\ xs = ys.
Proof.
  induction xs as [|x xs IH] using rev_ind; intros ys r r' Hlen Hxs Hys Heq.
  - destruct ys; [|discriminate].
    cbn in Heq. rewrite !app_nil_r in Heq. split; [exact Heq | reflexivity].
  - destruct ys as [|y ys _] using rev_ind.
    { rewrite length_app in Hlen. cbn in Hlen. lia. }
    rewrite !length_app in Hlen. cbn [length] in Hlen.
    apply Forall_app in Hxs as [Hxs Hx]. apply Forall_app in Hys as [Hys Hy].
    apply Forall_cons in Hx as [Hx _]. apply Forall_cons in Hy as [Hy _].
    rewrite !bar_fields_snoc, !app_assoc in Heq.
    apply split_last in Heq as [Heq ->]; [|assumption|assumption].
    destruct (IH ys r r') as [-> ->]; [lia | assumption | assumption
                                      | exact Heq |].
    split; reflexivity.
Qed.

Lemma b64_char_no_bar (n : N) : b64_char n <> "|"%char.
Proof.
  unfold b64_char. generalize (N.to_nat n) as k. intros k.
  do 64 (destruct k as [|k]; [vm_compute; discriminate|]).
  cbn. discriminate.
Qed.

Lemma b64_no_bar (u : bytes) : ~ In "|"%char (list_ascii_of_string (b64 u)).
Proof.
  remember (length u) as k eqn:Hk. revert u Hk.
  induction k as [k IH] using lt_wf_ind. intros u ->.
  assert (forall a b c pad,
             ~ In "|"%char (list_ascii_of_string (b64_quad a b c pad)))
    as Hquad.
  { intros a b c pad. unfold b64_quad. cbv zeta.
    cbn [list_ascii_of_string In].
    intros [Hc|[Hc|[Hc|[Hc|[]]]]].
    - exact (b64_char_no_bar _ Hc).
    - exact (b64_char_no_bar _ Hc).
    - destruct (2 <=? pad)%nat; [discriminate | exact (b64_char_no_bar _ Hc)].
    - destruct (1 <=? pad)%nat; [discriminate | exact (b64_char_no_bar _ Hc)]. }
  destruct u as [|a [|b [|c r]]].
  - intros [].
  - apply Hquad.
  - apply Hquad.
  - cbn [b64]. rewrite chars_append. intros Hin.
    apply in_app_or in Hin as [Hin|Hin].
    + exact (Hquad _ _ _ _ Hin).
    + apply (IH (length r)) in Hin; [exact Hin | simpl; lia | reflexivity].
Qed.

Lemma uint_no_bar (d : Decimal.uint) :
  ~ In "|"%char (list_ascii_of_string (NilEmpty.string_of_uint d)).
Proof.
  induction d; cbn [NilEmpty.string_of_uint list_ascii_of_string In];
    [intros [] | intros [Hc|Hin]; [discriminate | exact (IHd Hin)] ..].
Qed.

Lemma number_no_bar (n : Z) :
  ~ In "|"%char (list_ascii_of_string (number_to_string n)).
Proof.
  unfold number_to_string.
  assert (forall d, ~ In "|"%char
                      (list_ascii_of_string (NilZero.string_of_uint d)))
    as Hu.
  { intros d. destruct d; try apply uint_no_bar.
    cbn. intros [Hc|[]]. discriminate. }
  destruct (Z.to_int n) as [d|d]; cbn [NilZero.string_of_int].
  - apply Hu.
  - cbn [list_ascii_of_string In]. intros [Hc|Hin];
      [discriminate | exact (Hu d Hin)].
Qed.

Lemma number_to_string_inj (n m : Z) :
  number_to_string n = number_to_string m -> n = m.
Proof.
  unfold number_to_string. intros Heq.
  assert (forall z, NilZero.int_of_string (NilZero.string_of_int (Z.to_int z))
                    = Some (Z.to_int z)) as Hisi.
  { intros z. apply NilZero.isi.
    - destruct z; cbn; try discriminate;
        intros [= Hp]; exact (DecimalPos.Unsigned.to_uint_nonnil _ Hp).
    - destruct z; cbn; try discriminate;
        intros [= Hp]; exact (DecimalPos.Unsigned.to_uint_nonnil _ Hp). }
  apply DecimalZ.to_int_inj.
  pose proof (Hisi n) as Hn. rewrite Heq, Hisi in Hn. congruence.
Qed.

(** X19 (what the nonce is derived from).  [_nonce] is the 24-byte hash
    of a text that determines the sender id, the sequence number and the
    epoch: two calls hash the same bytes only if all three agree, bars in
    the sender id included. *)
Theorem X19_nonce_input_injective `{Sodium} (c c' : string) (s e s' e' : Z) :
  _nonce c s e = crypto_generichash 24 (nonce_input c s e) None /\
  (nonce_input c s e = nonce_input c' s' e' -> c = c' /\ s = s' /\ e = e').
Proof.
  split; [reflexivity|].
  unfold nonce_input, _concat. cbn [concat]. rewrite !app_nil_r.
  intros Heq. apply app_inv_head, _u8_inj in Heq.
  apply (f_equal list_ascii_of_string) in Heq.
  cbn [join] in Heq. rewrite !chars_append in Heq.
  cbn [list_ascii_of_string] in Heq.
  destruct (bar_fields_inj
              [list_ascii_of_string (number_to_string s);
               list_ascii_of_string (number_to_string e)]
              [list_ascii_of_string (number_to_string s');
               list_ascii_of_string (number_to_string e')]
              (list_ascii_of_string c) (list_ascii_of_string c'))
    as [Hc Hf].
  - reflexivity.
  - repeat constructor; apply number_no_bar.
  - repeat constructor; apply number_no_bar.
  - exact Heq.
  - injection Hf as Hs He.
    apply chars_inj in Hc. apply chars_inj, number_to_string_inj in Hs, He.
    auto.
Qed.

Lemma X19_nonce_input_injective_witness :
  "a|1"%string = "a|1"%string /\ 2 = 2 /\ 3 = 3.
Proof.
  apply (proj2 (X19_nonce_input_injective (H := Toy.sodium)
                  "a|1" "a|1" 2 3 2 3)).
  reflexivity.
Defined.

Lemma field_no_bar (k : list ascii) (u : bytes) :
  ~ In "|"%char k -> ~ In "|"%char (k ++ list_ascii_of_string (b64 u)).
Proof.
  intros Hk Hin. apply in_app_or in Hin as [Hin|Hin];
    [exact (Hk Hin) | exact (b64_no_bar u Hin)].
Qed.

(** X20 (what the handshake transcript binds).  For one role, two
    transcripts are the same bytes only if the room and all six public
    keys are the same: room names with bars in them cannot make two
    handshakes look alike. *)
Theorem X20_transcript_binds_room_and_keys (l p l' p' : PubKeys)
        (role room room' : string) :
  buildTranscript l p role room = buildTranscript l' p' role room' ->
  room = room' /\ l = l' /\ p = p'.
Proof.
  unfold buildTranscript, toU8. cbv zeta. intros Heq.
  apply _u8_inj in Heq. apply (f_equal list_ascii_of_string) in Heq.
  cbn [join] in Heq. rewrite !chars_append in Heq.
  apply app_inv_head in Heq.
  set (init := if String.eqb role "init" then l else p) in *.
  set (resp := if String.eqb role "init" then p else l) in *.
  set (init' := if String.eqb role "init" then l' else p') in *.
  set (resp' := if String.eqb role "init" then p' else l') in *.
  pose (fields := fun i r : PubKeys =>
    [list_ascii_of_string "init.id=" ++ list_ascii_of_string (b64 (t_id i));
     list_ascii_of_string "resp.id=" ++ list_ascii_of_string (b64 (t_id r));
     list_ascii_of_string "init.x=" ++ list_ascii_of_string (b64 (t_x i));
     list_ascii_of_string "resp.x=" ++ list_ascii_of_string (b64 (t_x r));
     list_ascii_of_string "init.pq=" ++ list_ascii_of_string (b64 (t_pq i));
     list_ascii_of_string "resp.pq=" ++ list_ascii_of_string (b64 (t_pq r))]).
  assert (forall i r, Forall (fun x => ~ In "|"%char x) (fields i r)) as Hf.
  { intros i r. unfold fields.
    repeat (apply List.Forall_cons;
            [apply field_no_bar; cbn; intuition discriminate|]).
    constructor. }
  destruct (bar_fields_inj (fields init resp) (fields init' resp')
              (list_ascii_of_string room) (list_ascii_of_string room')
              eq_refl (Hf _ _) (Hf _ _) Heq) as [Hroom Hfields].
  apply chars_inj in Hroom.
  unfold fields in Hfields.
  injection Hfields as H1 H2 H3 H4 H5 H6.
  apply chars_inj, b64_inj in H1, H2, H3, H4, H5, H6.
  assert (init = init' /\ resp = resp') as [Hi Hr].
  { destruct init, resp, init', resp'. cbn in *. subst. split; reflexivity. }
  split; [exact Hroom|].
  subst init resp init' resp'.
  destruct (String.eqb role "init"); auto.
Qed.

Lemma X20_transcript_binds_room_and_keys_witness :
  "a|b"%string = "a|b"%string /\
  local_pub Sample.keysA = local_pub Sample.keysA /\
  local_pub Sample.keysB = local_pub Sample.keysB.
Proof.
  apply (X20_transcript_binds_room_and_keys
           (local_pub Sample.keysA) (local_pub Sample.keysB)
           (local_pub Sample.keysA) (local_pub Sample.keysB) "init").
  reflexivity.
Defined.

Lemma string_append_assoc (a b c : string) :
  String.append (String.append a b) c = String.append a (String.append b c).
Proof.
  induction a as [|x a IH]; [reflexivity|].
  rewrite !append_cons, IH. reflexivity.
Qed.

(** The text that [createCapsule] signs. *)
Lemma capsule_transcript_text (now : Z) (room c : string)
      (x_pub pq_pub : bytes) :
  buildCapsuleTranscript (capsule_payload now room c x_pub pq_pub)
  = encStr (join ["v="; CAPSULE_VER; "|alg="; CAPSULE_ALG;
                  "|room="; room; "|cid="; c;
                  "|x="; b64 x_pub; "|k="; b64 pq_pub;
                  "|iat="; number_to_string now;
                  "|exp="; number_to_string (now + CAPSULE_TTL_MS)]%string).
Proof. reflexivity. Qed.

(** X21 (what the capsule transcript does not bind).  The signed text of
    a capsule writes the room and the participant id one after the other
    with ["|cid="] between them, and either may hold that text itself:
    moving a piece from the end of the room to the front of the id gives
    another payload with the same transcript, so every signature made or
    accepted for one is made or accepted for the other. *)
Theorem X21_capsule_transcript_joins_room_and_cid `{Sodium} (now : Z)
        (room s c : string) (x_pub pq_pub : bytes) :
  let p1 :=
    capsule_payload now (String.append room (String.append "|cid=" s)) c
                    x_pub pq_pub in
  let p2 :=
    capsule_payload now room (String.append s (String.append "|cid=" c))
                    x_pub pq_pub in
  get "room" p1 <> get "room" p2 /\
  buildCapsuleTranscript p1 = buildCapsuleTranscript p2 /\
  (forall id_priv,
     signDetached (buildCapsuleTranscript p1) id_priv
     = signDetached (buildCapsuleTranscript p2) id_priv) /\
  (forall sig id_pub,
     verifyDetached sig (buildCapsuleTranscript p1) id_pub
     = verifyDetached sig (buildCapsuleTranscript p2) id_pub).
Proof.
  intros p1 p2.
  assert (buildCapsuleTranscript p1 = buildCapsuleTranscript p2) as Heq.
  { subst p1 p2. rewrite !capsule_transcript_text. f_equal.
    cbn [join]. do 5 f_equal.
    rewrite !string_append_assoc. reflexivity. }
  split; [|split; [exact Heq|split]].
  - subst p1 p2. cbn [capsule_payload get assoc_get String.eqb Ascii.eqb
                      Bool.eqb].
    intros [= Hroom]. apply (f_equal String.length) in Hroom.
    rewrite !String_length_append in Hroom. cbn [String.length] in Hroom. lia.
  - intros id_priv. rewrite Heq. reflexivity.
  - intros sig id_pub. rewrite Heq. reflexivity.
Qed.

(* ===================================================================== *)
(** ** Sequence numbers and nonces at the receiver *)
(* ===================================================================== *)

(** X22 (where the sequence numbers end).  [encrypt] numbers its frames
    with [sendSeq] as it is, [decrypt] reads the number with [| 0].  A
    frame that [encrypt] returns once [sendSeq] has reached 2^31 is
    dropped, without any change of state, by every group that holds a key,
    whatever it has decrypted, encrypted or flushed since the key was
    installed. *)
Theorem X22_numbers_from_2_31_are_dropped `{Sodium} (sender sender' : Group)
        (txt : string) (f : MsgFrame) (k : bytes) (e : Z) (g0 : Group)
        (ops : list op) :
  let receiver := run_ops (install k e g0) ops in
  2 ^ 31 <= sendSeq sender < 2 ^ 32 ->
  encrypt sender txt = (sender', Returned (Some f)) ->
  m_s f = sendSeq sender /\
  decrypt receiver f = (receiver, None).
Proof.
  intros receiver Hrange Henc.
  assert (m_s f = sendSeq sender) as Hs.
  { destruct (encrypt_cases sender txt) as [[_ [Hc|Hc]]|(n & c & Hc)].
    - rewrite Henc in Hc. discriminate.
    - rewrite Henc in Hc. discriminate.
    - rewrite Henc in Hc. injection Hc as _ ->. reflexivity. }
  split; [exact Hs|].
  apply decrypt_replay.
  - pose proof (run_ops_same_key ops (install k e g0)) as (_ & _ & Hk & _).
    fold receiver in Hk. rewrite Hk. cbn. eauto.
  - pose proof (run_ops_last_seen ops (m_cid f) (install k e g0)) as Hl.
    fold receiver in Hl.
    change (last_seen (install k e g0) (m_cid f)) with (-1) in Hl.
    rewrite Hs. unfold toInt32. pow2.
    replace (sendSeq sender + 2147483648)
      with (sendSeq sender - 2147483648 + 1 * 4294967296) by lia.
    rewrite Z.mod_add by lia. rewrite Z.mod_small by lia. lia.
Qed.

Lemma X22_numbers_from_2_31_are_dropped_witness :
  exists f,
    encrypt (H := Toy.sodium)
            (mkGroup "host" [] (Some Toy.key32) 5 [] (2 ^ 31) ∅) "hi"
    = (mkGroup "host" [] (Some Toy.key32) 5 [] (2 ^ 31 + 1) ∅,
       Returned (Some f)) /\
    decrypt (H := Toy.sodium) Toy.guest5 f = (Toy.guest5, None).
Proof.
  eexists. split; [vm_compute; reflexivity|].
  apply (proj2 (X22_numbers_from_2_31_are_dropped (H := Toy.sodium)
                  (mkGroup "host" [] (Some Toy.key32) 5 [] (2 ^ 31) ∅)
                  (mkGroup "host" [] (Some Toy.key32) 5 [] (2 ^ 31 + 1) ∅)
                  "hi" _ Toy.key32 5 Toy.guest5 []
                  ltac:(vm_compute; split; [discriminate | reflexivity])
                  ltac:(vm_compute; reflexivity))).
Defined.

(** X23 (the nonce is the frame's).  [decrypt] derives the nonce of the
    frame's sender, number and epoch, and then opens the ciphertext with
    the nonce that the frame carries in [n]: a text sealed under any
    nonce, with the AAD of its header and the group key, is accepted and
    recorded like a frame of [encrypt]. *)
Theorem X23_decrypt_takes_the_nonce_of_the_frame `{Sodium} (receiver : Group)
        (c : string) (s e : Z) (pt n k cipher : bytes) :
  aead_correct ->
  aead_encrypt pt (_aad "m" c s e) n k = Some cipher ->
  groupKey receiver = Some k ->
  epoch receiver = e -> int32 e -> int32 s ->
  last_seen receiver c < s ->
  decrypt receiver (mkMsg c s e (VStr (b64 n)) (VStr (b64 cipher)))
  = (set_recvSeq (<[c := s]> (recvSeq receiver)) receiver, to_string pt).
Proof.
  intros Hcorrect Hseal Hk He Hre Hrs Hlast.
  unfold decrypt, open_msg. rewrite Hk. cbn [m_e m_s m_cid m_n m_c].
  rewrite He, (toInt32_id _ Hre), (toInt32_id _ Hrs), Z.eqb_refl.
  cbn [negb]. fold (last_seen receiver c).
  destruct (Z.leb_spec s (last_seen receiver c)); [lia|].
  rewrite !u8_b64, (Hcorrect _ _ _ _ _ Hseal). reflexivity.
Qed.

Lemma X23_decrypt_takes_the_nonce_of_the_frame_witness :
  Toy.nonce24 <> _nonce (H := Toy.sodium) "host" 0 5 /\
  exists cipher,
    snd (decrypt (H := Toy.sodium) Toy.guest5
                 (mkMsg "host" 0 5 (VStr (b64 Toy.nonce24))
                        (VStr (b64 cipher))))
    = Some "hi"%string.
Proof.
  split; [vm_compute; discriminate|].
  exists (Toy.tag (_aad "m" "host" 0 5) Toy.nonce24 Toy.key32
          ++ from_string "hi").
  rewrite (X23_decrypt_takes_the_nonce_of_the_frame (H := Toy.sodium)
             Toy.guest5 "host" 0 5 (from_string "hi") Toy.nonce24 Toy.key32
             _ toy_aead_correct).
  - vm_compute. reflexivity.
  - vm_compute. reflexivity.
  - reflexivity.
  - reflexivity.
  - vm_compute. split; [discriminate | reflexivity].
  - vm_compute. split; [discriminate | reflexivity].
  - vm_compute. reflexivity.
Defined.

(* ===================================================================== *)
(** ** Where the epochs end *)
(* ===================================================================== *)

(** Every frame of the loop of [MlsGroup.rekey] carries the epoch it was
    called with, also when the loop stops early. *)
Lemma rekey_loop_epochs `{Sodium} (self : string) (gk : bytes) (e : Z)
      (rh : string) (ps : list (string * bytes)) :
  forall (r : rng) (f : GkFrame),
    In (EvSend f) (snd (fst (rekey_loop self gk e rh ps r))) -> gk_e f = e.
Proof.
  induction ps as [|[peerCid sk] ps IH]; intros r f; cbn [rekey_loop].
  - intros [].
  - destruct (randombytes_buf NPUBBYTES r) as [nonce r1].
    destruct (aead_encrypt gk _ nonce sk) as [ek|]; [|intros []].
    specialize (IH r1 f).
    destruct (rekey_loop self gk e rh ps r1) as [[r2 evs] c].
    cbn [fst snd] in *. intros [Hf|Hin].
    + injection Hf as <-. reflexivity.
    + exact (IH Hin).
Qed.

(** X24 (where the epochs end).  [rekey] counts [(epoch | 0) + 1] and
    [loadGK] reads the epoch of a frame with [| 0].  When the initiator's
    epoch reads [2^31 - 1], every frame its [rekey] sends carries epoch
    [2^31], and [loadGK] of every [MlsGroup], in whatever state and with
    whatever key, ignores it. *)
Theorem X24_epoch_2_31_is_not_installed `{Sodium} (host member : MlsGroup)
        (r : rng) (f : GkFrame) (sk : bytes) :
  toInt32 (epoch (base host)) = 2 ^ 31 - 1 ->
  In (EvSend f) (snd (fst (rekey host r))) ->
  gk_e f = 2 ^ 31 /\ loadGK member f sk = (member, []).
Proof.
  intros He Hin.
  assert (gk_e f = 2 ^ 31) as Hf.
  { unfold rekey in Hin.
    destruct (isInitiator host); [|destruct Hin].
    cbn [negb] in Hin.
    destruct (randombytes_buf 32 r) as [gk r1].
    pose proof (rekey_loop_epochs
                  (cid (install gk (toInt32 (epoch (base host)) + 1)
                                (base host)))
                  gk
                  (epoch (install gk (toInt32 (epoch (base host)) + 1)
                                  (base host)))
                  (_rosterHash (install gk (toInt32 (epoch (base host)) + 1)
                                        (base host)))
                  (peers (install gk (toInt32 (epoch (base host)) + 1)
                                  (base host)))
                  r1 f) as Hloop.
    destruct (rekey_loop _ _ _ _ _ r1) as [[r2 evs] c].
    cbn [fst snd] in Hin, Hloop.
    destruct Hin as [Hready|Hin]; [discriminate|].
    rewrite (Hloop Hin). cbn [epoch install]. rewrite He. lia. }
  split; [exact Hf|].
  apply loadGK_stale. rewrite Hf.
  pose proof (toInt32_range (epoch (base member))) as Hm.
  unfold int32 in Hm. unfold toInt32 at 1. pow2.
  change ((2147483648 + 2147483648) mod 4294967296) with 0. lia.
Qed.

Lemma X24_epoch_2_31_is_not_installed_witness :
  exists f,
    snd (fst (rekey (H := Toy.sodium)
                    (mkMls (mkGroup "host" [("ann"%string, Toy.key32)]
                                    None (2 ^ 31 - 1) [] 0 ∅) true)
                    Toy.rng0))
    = [EvReady; EvSend f] /\
    gk_e f = 2 ^ 31 /\
    loadGK (H := Toy.sodium) Sample.ann0 f Toy.key32 = (Sample.ann0, []).
Proof.
  eexists. split; [vm_compute; reflexivity|].
  apply (X24_epoch_2_31_is_not_installed (H := Toy.sodium)
           (mkMls (mkGroup "host" [("ann"%string, Toy.key32)]
                           None (2 ^ 31 - 1) [] 0 ∅) true)
           Sample.ann0 Toy.rng0 _ Toy.key32).
  - vm_compute. reflexivity.
  - vm_compute. right. left. reflexivity.
Defined.

(* ===================================================================== *)
(** ** The capsule at the sizes of the real keys *)
(* ===================================================================== *)

Lemma b64_char_printable (n : N) : (32 <= N_of_ascii (b64_char n) < 128)%N.
Proof.
  unfold b64_char. generalize (N.to_nat n) as k. intros k.
  do 64 (destruct k as [|k]; [vm_compute; split; [discriminate|reflexivity]|]).
  vm_compute. split; [discriminate|reflexivity].
Qed.

Lemma b64_printable (u : bytes) (c : ascii) :
  In c (list_ascii_of_string (b64 u)) -> (32 <= N_of_ascii c < 128)%N.
Proof.
  remember (length u) as k eqn:Hk. revert u Hk c.
  induction k as [k IH] using lt_wf_ind. intros u -> ch.
  assert (forall a b c pad,
             In ch (list_ascii_of_string (b64_quad a b c pad)) ->
             (32 <= N_of_ascii ch < 128)%N) as Hquad.
  { intros a b c pad. unfold b64_quad. cbv zeta.
    cbn [list_ascii_of_string In].
    intros [Hc|[Hc|[Hc|[Hc|[]]]]]; subst ch;
      try apply b64_char_printable.
    - destruct (2 <=? pad)%nat; [vm_compute; split; [discriminate|reflexivity]
                                | apply b64_char_printable].
    - destruct (1 <=? pad)%nat; [vm_compute; split; [discriminate|reflexivity]
                                | apply b64_char_printable]. }
  destruct u as [|a [|b [|c r]]].
  - intros [].
  - apply Hquad.
  - apply Hquad.
  - cbn [b64]. rewrite chars_append. intros Hin.
    apply in_app_or in Hin as [Hin|Hin].
    + exact (Hquad _ _ _ _ Hin).
    + apply (IH (length r)) with (u := r); [simpl; lia | reflexivity | exact Hin].
Qed.

Lemma _u8_length (s : string) : length (_u8 s) = String.length s.
Proof.
  unfold _u8, list_byte_of_string. rewrite length_map.
  induction s as [|c s IH]; [reflexivity|].
  cbn [list_ascii_of_string length String.length]. rewrite IH. reflexivity.
Qed.

Lemma quote_char_length (c : ascii) : (1 <= String.length (quote_char c))%nat.
Proof.
  unfold quote_char. cbv zeta.
  repeat match goal with
         | |- context [if ?b then _ else _] => destruct b
         end;
    rewrite ?String_length_append; cbn [String.length]; lia.
Qed.

Lemma quote_body_length (s : string) :
  (String.length s <= String.length (quote_body s))%nat.
Proof.
  induction s as [|c s IH]; [reflexivity|].
  cbn [quote_body String.length]. rewrite String_length_append.
  pose proof (quote_char_length c). lia.
Qed.

Lemma String_length_quote (s : string) :
  String.length (quote s) = (2 + String.length (quote_body s))%nat.
Proof.
  unfold quote. rewrite !String_length_append.
  cbn [dquote String.length]. lia.
Qed.

(** The JSON text of a capsule is longer than the base64 text of the KEM
    key it carries, in characters and in UTF-16 code units. *)
Lemma capsule_json_long (now : Z) (room c : string)
      (x_pub pq_pub sig id_pub : bytes) :
  let json :=
    JSON_stringify
      (VObj (capsule_unpadded now room c x_pub pq_pub sig id_pub)) in
  (String.length (b64 pq_pub) < js_length json)%nat /\
  (String.length (b64 pq_pub) < String.length json)%nat.
Proof.
  intros json. subst json. unfold capsule_unpadded, capsule_payload.
  rewrite !JSON_stringify_obj. cbn [obj_props]. rewrite !JSON_stringify_obj.
  cbn [obj_props JSON_stringify]. split.
  - rewrite !js_length_append.
    rewrite (js_length_quote (b64 pq_pub)).
    rewrite (js_length_quote_body (b64 pq_pub)) by apply b64_printable.
    lia.
  - rewrite !String_length_append.
    rewrite (String_length_quote (b64 pq_pub)).
    pose proof (quote_body_length (b64 pq_pub)). lia.
Qed.

(** With a KEM key of 800 bytes the padding block never runs. *)
Lemma capsule_800_unpadded (now u : Z) (r : rng) (room c : string)
      (x_pub pq_pub sig id_pub : bytes) :
  length pq_pub = 800%nat ->
  capsule_padded now u r room c x_pub pq_pub sig id_pub
  = capsule_unpadded now room c x_pub pq_pub sig id_pub.
Proof.
  intros Hlen.
  destruct (capsule_padding_cases now u r room x_pub pq_pub c sig id_pub)
    as (Ht & _ & Hsame).
  apply Hsame.
  destruct (capsule_json_long now room c x_pub pq_pub sig id_pub) as [Hj _].
  rewrite b64_length, Hlen in Hj.
  change (4 * ((800 + 2) / 3))%nat with 1068%nat in Hj. lia.
Qed.

(** C4 (the size of the capsule).  The claim is about every input; this
    is [createCapsule] on every input whose KEM public key has the 800
    bytes of an ML-KEM-512 key, the only KEM the program uses.  Whenever
    [createCapsule] returns a capsule for such a key, the JSON text was
    longer than every target, so that no padding was added: the capsule
    is the base64 of the unpadded text, it is the same for every draw of
    the target and of the padding bytes, and it is longer than 1024
    characters. *)
Theorem C4_capsule_not_padded `{Sodium} (now u : Z) (r : rng) (room : string)
        (x_pub pq_pub : bytes) (c : string) (id_priv id_pub : bytes)
        (out : string) :
  length pq_pub = 800%nat ->
  createCapsule now u r room x_pub pq_pub c id_priv id_pub = Returned out ->
  (exists sig,
     signDetached
       (buildCapsuleTranscript (capsule_payload now room c x_pub pq_pub))
       id_priv = Some sig /\
     out = b64 (_u8 (JSON_stringify
                       (VObj (capsule_unpadded now room c x_pub pq_pub
                                               sig id_pub))))) /\
  (forall u' r',
     createCapsule now u' r' room x_pub pq_pub c id_priv id_pub
     = Returned out) /\
  (1024 < String.length out)%nat.
Proof.
  intros Hlen. unfold createCapsule.
  destruct (signDetached _ id_priv) as [sig|]; [|discriminate].
  cbn [call mbind completion_bind mret completion_ret].
  rewrite capsule_800_unpadded by exact Hlen.
  unfold mret, completion_ret. intros Hout.
  assert (out = b64 (_u8 (JSON_stringify
                            (VObj (capsule_unpadded now room c x_pub pq_pub
                                                    sig id_pub))))) as ->
    by congruence.
  clear Hout. split; [|split].
  - exists sig. split; reflexivity.
  - intros u' r'. rewrite capsule_800_unpadded by exact Hlen. reflexivity.
  - rewrite b64_length, _u8_length.
    destruct (capsule_json_long now room c x_pub pq_pub sig id_pub)
      as [_ Hs].
    rewrite b64_length, Hlen in Hs.
    change (4 * ((800 + 2) / 3))%nat with 1068%nat in Hs.
    set (n := String.length _) in *.
    assert (356 <= (n + 2) / 3)%nat
      by (apply Nat.div_le_lower_bound; lia).
    lia.
Qed.

Lemma C4_capsule_not_padded_witness :
  (forall u' r',
     createCapsule (H := Toy.sodium) Toy.capsule_now u' r' "r1"
                   (Toy.zeros 32) (Toy.zeros 800) "cid"
                   (Toy.sign_priv Toy.key32) (Toy.sign_pub Toy.key32)
     = Returned Sample.real_capsule) /\
  (1024 < String.length Sample.real_capsule)%nat.
Proof.
  apply (C4_capsule_not_padded (H := Toy.sodium) Toy.capsule_now 0 Toy.rng0
           "r1" (Toy.zeros 32) (Toy.zeros 800) "cid"
           (Toy.sign_priv Toy.key32) (Toy.sign_pub Toy.key32)
           Sample.real_capsule).
  - reflexivity.
  - vm_compute. reflexivity.
Defined.

(** C4 as stated fails at the sizes of the real keys: with the lowest
    target and with the highest, and with different padding bytes,
    [createCapsule] returns the same capsule of 1864 characters. *)
Lemma C4_counterexample :
  createCapsule (H := Toy.sodium) Toy.capsule_now 0 Toy.rng0 "r1"
                (Toy.zeros 32) (Toy.zeros 800) "cid"
                (Toy.sign_priv Toy.key32) (Toy.sign_pub Toy.key32)
  = Returned Sample.real_capsule /\
  createCapsule (H := Toy.sodium) Toy.capsule_now (2 ^ 53 - 1)
                (mkRng (fun _ => x21) 0) "r1"
                (Toy.zeros 32) (Toy.zeros 800) "cid"
                (Toy.sign_priv Toy.key32) (Toy.sign_pub Toy.key32)
  = Returned Sample.real_capsule /\
  capsule_target 0 = 512 /\ capsule_target (2 ^ 53 - 1) = 1024 /\
  String.length Sample.real_capsule = 1864%nat /\
  length (Toy.sign_priv Toy.key32) = 64%nat /\
  length (Toy.sign_pub Toy.key32) = 32%nat.
Proof. vm_compute. repeat split; reflexivity. Qed.
